(** * deno-courts-info: the name pipeline and the crawl loop

    A shallow embedding of the name scraper of [src/main.ts] and of its
    two sibling scripts ([src/unnamed/part_000], [src/unnamed/part_001]):
    the tokenizer [splitCourts], the filters and the cleanup of
    [scrapePage], the loop of [scrapePages] and the writes of [main]. The
    DOM, the network, the console and the disk are the outside: a page is
    what [scrapePage] reads of it, a run is the list of its events. The
    table scraper in the second half of [src/main.ts] has no name
    pipeline and is left out.

    JavaScript strings are sequences of UTF-16 code units: [text.length],
    [indexOf], [substring] and the [+ 3] of [splitCourts] all count code
    units, so a string is a [list N] here and an index is a [Z] (the code
    compares indices with [-1]). *)

From Stdlib Require Import List ZArith NArith Bool Lia Arith.
From Stdlib Require Ascii String.
From Stdlib Require Import Sorting.Sorted Sorting.Permutation.
From Equations Require Import Equations.
Import ListNotations.
Import String.StringSyntax.
Delimit Scope string_scope with string.

Local Open Scope list_scope.
Local Open Scope Z_scope.

(** ** JavaScript strings *)

Module JS.

Definition code_unit := N.
Definition jsstring := list code_unit.

Definition len (s : jsstring) : Z := Z.of_nat (length s).

(** A literal of the Latin-1 range, one code unit per character. *)
Definition lit (s : String.string) : jsstring :=
  map Ascii.N_of_ascii (String.list_ascii_of_string s).

(** [array.length] *)
Definition len_list {A : Type} (l : list A) : Z := Z.of_nat (length l).

Fixpoint string_eqb (a b : jsstring) : bool :=
  match a, b with
  | [], [] => true
  | x :: a', y :: b' => N.eqb x y && string_eqb a' b'
  | _, _ => false
  end.

(** [startsWith pat s]: [pat] is a prefix of [s]. *)
Fixpoint startsWith (pat s : jsstring) : bool :=
  match pat, s with
  | [], _ => true
  | p :: pat', c :: s' => N.eqb p c && startsWith pat' s'
  | _ :: _, [] => false
  end.

(** An index argument is clamped to [0 .. length] by [indexOf] and
    [substring]. *)
Definition clamp (s : jsstring) (i : Z) : nat :=
  Z.to_nat (Z.min (Z.max i 0) (len s)).

(** Leftmost match of [pat] in [s], where [s] is the part of the string
    that starts at absolute position [k]. *)
Fixpoint find_from (pat s : jsstring) (k : nat) : option nat :=
  if startsWith pat s then Some k
  else match s with
       | [] => None
       | _ :: s' => find_from pat s' (S k)
       end.

(** [text.indexOf(pat, from)]: the least position [>= from] where [pat]
    occurs, [-1] when there is none. *)
Definition indexOf (text pat : jsstring) (from : Z) : Z :=
  match find_from pat (skipn (clamp text from) text) (clamp text from) with
  | Some k => Z.of_nat k
  | None => -1
  end.

(** [text.substring(a, b)]: both ends clamped, swapped when [a > b]. *)
Definition substring (text : jsstring) (a b : Z) : jsstring :=
  let a' := clamp text a in
  let b' := clamp text b in
  let lo := Nat.min a' b' in
  let hi := Nat.max a' b' in
  firstn (hi - lo) (skipn lo text).

(** [text.substring(a)]: to the end of the string. *)
Definition substring_from (text : jsstring) (a : Z) : jsstring :=
  substring text a (len text).

(** [text.endsWith(suf)]. *)
Definition endsWith (text suf : jsstring) : bool :=
  (length suf <=? length text)%nat &&
  string_eqb (skipn (length text - length suf) text) suf.

(** Number of positions of [s] at which [pat] occurs. *)
Fixpoint occurrences (pat s : jsstring) : nat :=
  ((if startsWith pat s then 1 else 0) +
   match s with
   | [] => 0
   | _ :: s' => occurrences pat s'
   end)%nat.

(** White space and line terminators: what [trim] strips and what [\s]
    matches (ECMAScript WhiteSpace and LineTerminator). *)
Definition is_space (c : code_unit) : bool :=
  ((0x09 <=? c) && (c <=? 0x0D) || (c =? 0x20) || (c =? 0xA0) ||
   (c =? 0x1680) || (0x2000 <=? c) && (c <=? 0x200A) ||
   (c =? 0x2028) || (c =? 0x2029) || (c =? 0x202F) || (c =? 0x205F) ||
   (c =? 0x3000) || (c =? 0xFEFF))%N.

Fixpoint trimStart (s : jsstring) : jsstring :=
  match s with
  | c :: s' => if is_space c then trimStart s' else s
  | [] => []
  end.

Definition trimEnd (s : jsstring) : jsstring := rev (trimStart (rev s)).

(** [s.trim()] *)
Definition trim (s : jsstring) : jsstring := trimEnd (trimStart s).

(** [s.replace(/a|b|.../g, f)] for literal, non-empty alternatives: at each
    position the first alternative that matches is replaced by [f] of it
    and the scan resumes after the match. [skip] counts the code units of
    the current match still to be passed over. *)
Fixpoint replace_scan (alts : list jsstring) (f : jsstring -> jsstring)
    (skip : nat) (s : jsstring) : jsstring :=
  match s with
  | [] => []
  | c :: s' =>
      match skip with
      | S k => replace_scan alts f k s'
      | O =>
          match find (fun p => startsWith p s) alts with
          | Some p => f p ++ replace_scan alts f (length p - 1) s'
          | None => c :: replace_scan alts f 0 s'
          end
      end
  end.

Definition replace_g (alts : list jsstring) (f : jsstring -> jsstring)
    (s : jsstring) : jsstring :=
  replace_scan alts f 0 s.

(** [s.replace(/[...]|\s/g, empty)]: delete every code unit of a class. *)
Definition remove_class (cls : code_unit -> bool) (s : jsstring) : jsstring :=
  filter (fun c => negb (cls c)) s.

(** [s.split(sep)] for a one-unit separator. *)
Fixpoint split (sep : code_unit) (s : jsstring) : list jsstring :=
  match s with
  | [] => [[]]
  | c :: s' =>
      if (c =? sep)%N then [] :: split sep s'
      else match split sep s' with
           | l :: ls => (c :: l) :: ls
           | [] => [[c]]
           end
  end.

(** The order of [<] on strings: code unit by code unit. *)
Fixpoint string_ltb (a b : jsstring) : bool :=
  match a, b with
  | _, [] => false
  | [], _ :: _ => true
  | x :: a', y :: b' =>
      if (x <? y)%N then true
      else if (y <? x)%N then false
      else string_ltb a' b'
  end.

(** The comparison [Array.prototype.sort] makes without a comparator. *)
Definition default_compare (a b : jsstring) : Z :=
  if string_ltb a b then -1 else if string_ltb b a then 1 else 0.

(** [Array.prototype.sort] is stable: an element moves behind a later one
    only when the comparator is positive. For a consistent comparator the
    result of a stable sort does not depend on the algorithm; insertion
    from the right is the simplest one. *)
Fixpoint insert_sorted {A : Type} (cmp : A -> A -> Z) (x : A) (l : list A)
    : list A :=
  match l with
  | [] => [x]
  | y :: l' => if 0 <? cmp x y then y :: insert_sorted cmp x l' else x :: l
  end.

Fixpoint sort_by {A : Type} (cmp : A -> A -> Z) (l : list A) : list A :=
  match l with
  | [] => []
  | x :: l' => insert_sorted cmp x (sort_by cmp l')
  end.

Definition sort (l : list jsstring) : list jsstring :=
  sort_by default_compare l.

(** A [Set] of strings keeps its elements in insertion order. *)
Definition set_has (s : list jsstring) (x : jsstring) : bool :=
  existsb (string_eqb x) s.

Definition set_add (s : list jsstring) (x : jsstring) : list jsstring :=
  if set_has s x then s else s ++ [x].

(** [new Set(l)], read back with [[...set]] or [Array.from(set)]. *)
Definition new_Set (l : list jsstring) : list jsstring :=
  fold_left set_add l [].

End JS.
Import JS.

(** ** Vocabulary of the scripts *)

(** "裁判所" (court), the terminator of [splitCourts]. *)
Definition saibansho : jsstring := [0x88C1; 0x5224; 0x6240]%N.
(** "支部" (branch). *)
Definition shibu : jsstring := [0x652F; 0x90E8]%N.
(** "出張所" (sub-office). *)
Definition shutchojo : jsstring := [0x51FA; 0x5F35; 0x6240]%N.
(** "内の" (within). *)
Definition naino : jsstring := [0x5185; 0x306E]%N.
(** "/" *)
Definition slash : jsstring := [0x2F]%N.
(** "・" (katakana middle dot). *)
Definition nakaguro : jsstring := [0x30FB]%N.
(** A line feed. *)
Definition LF : code_unit := 0x0A%N.

(** ** Loops *)

(** What one pass through a loop body does: go round again or [break]. *)
Inductive flow (S : Type) : Type :=
| Continue (s : S)
| Break (s : S).
Arguments Continue {S} s.
Arguments Break {S} s.

(** Match on a value and keep the equation, for the loops defined by
    well-founded recursion. *)
Definition inspect {A : Type} (a : A) : {b : A | a = b} := exist _ a eq_refl.

(** A [while] loop run for at most [fuel] passes; [None] when the fuel
    runs out before the loop is left. *)
Fixpoint while_fuel {S : Type} (cond : S -> bool) (body : S -> flow S)
    (fuel : nat) (st : S) : option S :=
  match fuel with
  | O => None
  | Datatypes.S fuel' =>
      if cond st then
        match body st with
        | Continue st' => while_fuel cond body fuel' st'
        | Break st' => Some st'
        end
      else Some st
  end.

(** ** Facts about [indexOf] that the loops rest on *)

Section IndexOfFacts.

Lemma find_from_ge (pat s : jsstring) (k i : nat) :
  find_from pat s k = Some i -> (k <= i)%nat.
Proof.
  revert k; induction s as [|c s IH]; intros k; simpl.
  - destruct (startsWith pat []); intros H; inversion H; lia.
  - destruct (startsWith pat (c :: s)).
    + intros H; inversion H; lia.
    + intros H; apply IH in H; lia.
Qed.

Lemma indexOf_ge (text pat : jsstring) (from : Z) :
  from <= len text ->
  indexOf text pat from <> -1 -> from <= indexOf text pat from.
Proof.
  unfold indexOf; intros Hfrom.
  destruct (find_from _ _ _) as [i|] eqn:E; [|congruence].
  intros _. apply find_from_ge in E. unfold clamp, len in *; lia.
Qed.

End IndexOfFacts.

(** ** Pieces shared by the three scripts *)

(** The class [[，．･・]|\s] of the final cleanup. *)
Definition is_decoration (c : code_unit) : bool :=
  ((c =? 0xFF0C) || (c =? 0xFF0E) || (c =? 0xFF65) || (c =? 0x30FB))%N
  || is_space c.

(** [s.trim()], then every code unit of the class [[，．･・]|\s] deleted. *)
Definition cleanup (s : jsstring) : jsstring :=
  remove_class is_decoration (trim s).

(** [.split("\n").map(line => line.trim())], then
    [.filter(line => 0 < line.trim().length)]. *)
Definition trimmed_lines (s : jsstring) : list jsstring :=
  filter (fun line => 0 <? len (trim line)) (map trim (split LF s)).

(** [s.indexOf("内の") == -1 && s.indexOf("/") == -1] *)
Definition not_excluded (s : jsstring) : bool :=
  (indexOf s naino 0 =? -1) && (indexOf s slash 0 =? -1).

(** [new Set(lines)], [.sort()], then [.sort((a, b) => a.length - b.length)]. *)
Definition aggregate (lines : list jsstring) : list jsstring :=
  let uniq := new_Set lines in
  let sorted := sort uniq in
  sort_by (fun a b => len a - len b) sorted.

(** What a request for a page comes to, for a document type [D]: the
    request itself fails, the status is not ok, the body does not parse,
    or there is a document. *)
Inductive response (D : Type) : Type :=
| NetworkFailure
| NotOk (status : Z)
| Unparsable
| Parsed (document : D).
Arguments NetworkFailure {D}.
Arguments NotOk {D} status.
Arguments Unparsable {D}.
Arguments Parsed {D} document.

(** The errors thrown inside [scrapePage], and the one it rethrows. *)
Inductive error : Type :=
| FetchRejected
| HttpError (status : Z)
| ParseFailed
| WriteError
| ErrorIn (url : jsstring) (cause : error).

Record ScrapeResult (T : Type) : Type := mkResult {
  url : jsstring;
  data : list T
}.
Arguments mkResult {T} url data.
Arguments url {T} _.
Arguments data {T} _.

(** The files of a run: one for a scraped URL, one for all the data. *)
Inductive file : Type :=
| SourceFile (u : jsstring)
| CombinedFile.

(** What a run does to the outside, in order. *)
Inductive event : Type :=
| LogFetching (u : jsstring)
| Fetch (u : jsstring)
| LogResult (result : list jsstring)
| LogProgress (i n : Z)
| LogWaiting (i n delayMs : Z)
| ConsoleError (e : error)
| Sleep (ms : Z)
| WriteTextFile (f : file) (content : jsstring)
| WriteRejected (f : file).

(** [data.join(sep)] *)
Fixpoint join (sep : jsstring) (l : list jsstring) : jsstring :=
  match l with
  | [] => []
  | [x] => x
  | x :: l' => x ++ sep ++ join sep l'
  end.

(** The run so far: the results pushed and the events emitted. *)
Record run (T : Type) : Type := mkRun {
  pushed : list (ScrapeResult T);
  trace : list event
}.
Arguments mkRun {T} pushed trace.
Arguments pushed {T} _.
Arguments trace {T} _.

Definition emit {T : Type} (es : list event) (r : run T) : run T :=
  mkRun (pushed r) (trace r ++ es).

Definition push {T : Type} (x : ScrapeResult T) (r : run T) : run T :=
  mkRun (pushed r ++ [x]) (trace r).

(** [saveAsFile(data, filename)]: [disk k] tells whether the [k]-th write
    of the run succeeds; a failed write is logged and thrown again. *)
Definition saveAsFile (disk : nat -> bool) (k : nat) (content : list jsstring)
    (f : file) : list event * bool :=
  if disk k then ([WriteTextFile f (join [LF] content)], true)
  else ([WriteRejected f; ConsoleError WriteError], false).

(** [for (const result of results) { await saveAsFile(result.data, ...) }]:
    the events, the number of writes made, and whether all succeeded. *)
Fixpoint save_each (disk : nat -> bool) (k : nat)
    (rs : list (ScrapeResult jsstring)) : list event * nat * bool :=
  match rs with
  | [] => ([], k, true)
  | r :: rs' =>
      let '(es, ok) := saveAsFile disk k (data r) (SourceFile (url r)) in
      if ok then
        let '(es', k', ok') := save_each disk (S k) rs' in
        (es ++ es', k', ok')
      else (es, S k, false)
  end.

(** [main] after [scrapePages]: the per-URL files, then the combined one
    when [allData] is not empty. The flag tells whether [main] returned
    (no write threw). *)
Definition write_out (disk : nat -> bool)
    (results : list (ScrapeResult jsstring)) (allData : list jsstring)
    : list event * bool :=
  let '(es, k, ok) := save_each disk 0 results in
  if ok then
    if 0 <? len_list allData then
      let '(es', ok') := saveAsFile disk k allData CombinedFile in
      (es ++ es', ok')
    else (es, true)
  else (es, false).

(** ** [src/main.ts] *)

Module Main.

Record loop_state : Type := mkState {
  results : list jsstring;
  currentIndex : Z
}.

Definition loop_cond (text : jsstring) (st : loop_state) : bool :=
  (0 <=? currentIndex st) && (currentIndex st <? len text).

Definition loop_body (text : jsstring) (st : loop_state) : flow loop_state :=
  let nextCourtEnd := indexOf text saibansho (currentIndex st) in
  if nextCourtEnd =? -1 then Break st
  else
    let courtName := substring text (currentIndex st) (nextCourtEnd + 3) in
    Continue (mkState (results st ++ [courtName]) (nextCourtEnd + 3)).

(** Code units left to scan. *)
Definition remaining (text : jsstring) (st : loop_state) : nat :=
  Z.to_nat (len text - currentIndex st).

Lemma currentIndex_advances (text : jsstring) (st st' : loop_state) :
  loop_cond text st = true ->
  loop_body text st = Continue st' ->
  currentIndex st + 3 <= currentIndex st' /\
  (remaining text st' < remaining text st)%nat.
Proof.
  unfold loop_cond, loop_body, remaining; intros Hc Hb.
  apply andb_true_iff in Hc as [H0 Hlt].
  apply Z.leb_le in H0; apply Z.ltb_lt in Hlt.
  destruct (indexOf text saibansho (currentIndex st) =? -1) eqn:E;
    [discriminate|].
  apply Z.eqb_neq in E.
  pose proof (indexOf_ge text saibansho (currentIndex st)) as Hge.
  inversion Hb; subst; simpl. lia.
Qed.

(** The [while] loop of [splitCourts], by well-founded recursion on the
    number of code units left to scan. *)
Equations? loop (text : jsstring) (st : loop_state) : loop_state
  by wf (remaining text st) lt :=
  loop text st with inspect (loop_cond text st) := {
    | exist _ true Hc with inspect (loop_body text st) := {
        | exist _ (Continue st') Hb => loop text st'
        | exist _ (Break st') _ => st' }
    | exist _ false _ => st }.
Proof. exact (proj2 (currentIndex_advances _ _ _ Hc Hb)). Qed.

Definition splitCourts (text : jsstring) : list jsstring :=
  let st := loop text (mkState [] 0) in
  if len_list (results st) <? 2 then [text] else results st.

(** An [<a>] element: its [title] attribute, if any, and its text. *)
Record anchor : Type := mkAnchor {
  title : option jsstring;
  innerText : jsstring
}.

Definition candidate (atag : anchor) : jsstring :=
  let s := match title atag with Some t => t | None => [] end in
  if negb (string_eqb s []) then s else trim (innerText atag).

(** The two [filter]s of [scrapePage] taken together. *)
Definition accepted (s : jsstring) : bool :=
  (endsWith s saibansho || endsWith s shibu) && not_excluded s.

Definition normalize (s : jsstring) : list jsstring :=
  let s1 := replace_g [shibu] (fun _ => shibu ++ [LF]) s in
  let s2 := replace_g [shutchojo] (fun _ => shutchojo ++ [LF]) s1 in
  let s3 := replace_g [nakaguro] (fun _ => [LF]) s2 in
  trimmed_lines s3.

(** The body of the [try] block once the document is there. *)
Definition extract (document : list anchor) : list jsstring :=
  let lines :=
    map cleanup
      (flat_map splitCourts
         (flat_map normalize
            (filter not_excluded
               (filter (fun s => endsWith s saibansho || endsWith s shibu)
                  (map candidate document))))) in
  aggregate lines.

Definition scrapePage (u : jsstring) (r : response (list anchor))
    : error + list jsstring :=
  match r with
  | NetworkFailure => inl (ErrorIn u FetchRejected)
  | NotOk status => inl (ErrorIn u (HttpError status))
  | Unparsable => inl (ErrorIn u ParseFailed)
  | Parsed document => inr (extract document)
  end.

Section Crawl.

(** [web i u]: the response to the request for [u] made in pass [i] of
    the loop of [scrapePages]. *)
Variable web : nat -> jsstring -> response (list anchor).

(** [await scrapePage(url)] in pass [i]. *)
Definition scrape (i : nat) (u : jsstring) : error + list jsstring :=
  scrapePage u (web i u).

(** One pass of the [for] loop, [n = urls.length]. *)
Definition pass (n : Z) (delayMs : Z) (i : nat) (u : jsstring)
    (r : run jsstring) : run jsstring :=
  let r := emit [LogFetching u; Fetch u] r in
  let r :=
    match scrape i u with
    | inr result => push (mkResult u result) (emit [LogResult result] r)
    | inl e => emit [ConsoleError e] r
    end in
  if Z.of_nat i <? n - 1
  then emit [LogWaiting (Z.of_nat i + 1) n delayMs; Sleep delayMs] r
  else r.

Fixpoint for_loop (n : Z) (delayMs : Z) (i : nat) (rest : list jsstring)
    (r : run jsstring) : run jsstring :=
  match rest with
  | [] => r
  | u :: rest' => for_loop n delayMs (S i) rest' (pass n delayMs i u r)
  end.

Definition scrapePages (urls : list jsstring) (delayMs : Z) : run jsstring :=
  for_loop (len_list urls) delayMs 0 urls (mkRun [] []).

(** [main], from the URLs that [getBaseUrls] returned. *)
Definition allData (results : list (ScrapeResult jsstring)) : list jsstring :=
  flat_map data results.

Definition main (disk : nat -> bool) (urls : list jsstring)
    : list event * bool :=
  let r := scrapePages urls 3000 in
  let '(es, ok) := write_out disk (pushed r) (allData (pushed r)) in
  (trace r ++ es, ok).

End Crawl.

End Main.

(** ** [src/unnamed/part_000] *)

Module Part000.

Record loop_state : Type := mkState {
  found : list jsstring;
  startPos : Z
}.

Definition loop_cond (text : jsstring) (st : loop_state) : bool :=
  startPos st <? len text.

Definition loop_body (text : jsstring) (st : loop_state) : flow loop_state :=
  let courtEndPos := indexOf text saibansho (startPos st) in
  if courtEndPos =? -1 then Break st
  else
    let endPos := courtEndPos + 3 in
    let nextCourtPos := indexOf text saibansho endPos in
    if negb (nextCourtPos =? -1) then
      Continue (mkState (found st ++ [substring text (startPos st) endPos])
                        endPos)
    else
      Break (mkState (found st ++ [substring_from text (startPos st)])
                     (startPos st)).

Definition remaining (text : jsstring) (st : loop_state) : nat :=
  Z.to_nat (len text - startPos st).

Lemma startPos_advances (text : jsstring) (st st' : loop_state) :
  loop_cond text st = true ->
  loop_body text st = Continue st' ->
  startPos st + 3 <= startPos st' /\
  (remaining text st' < remaining text st)%nat.
Proof.
  unfold loop_cond, loop_body, remaining; intros Hc Hb.
  apply Z.ltb_lt in Hc.
  destruct (indexOf text saibansho (startPos st) =? -1) eqn:E;
    [discriminate|].
  apply Z.eqb_neq in E.
  pose proof (indexOf_ge text saibansho (startPos st)) as Hge.
  destruct (negb _); inversion Hb; subst; simpl. lia.
Qed.

Equations? loop (text : jsstring) (st : loop_state) : loop_state
  by wf (remaining text st) lt :=
  loop text st with inspect (loop_cond text st) := {
    | exist _ true Hc with inspect (loop_body text st) := {
        | exist _ (Continue st') Hb => loop text st'
        | exist _ (Break st') _ => st' }
    | exist _ false _ => st }.
Proof. exact (proj2 (startPos_advances _ _ _ Hc Hb)). Qed.

Definition splitCourts (text : jsstring) : list jsstring :=
  found (loop text (mkState [] 0)).

(** What [scrapePage] reads of a parsed page: the text of every [<a>]
    and the text of every [tr > td:nth-child(1)]. *)
Record page : Type := mkPage {
  anchors : list jsstring;
  first_cells : list jsstring
}.

Definition is_line_terminator (c : code_unit) : bool :=
  ((c =? 0x0A) || (c =? 0x0D) || (c =? 0x2028) || (c =? 0x2029))%N.

(** "地図" (map). *)
Definition chizu : jsstring := [0x5730; 0x56F3]%N.

(** [s.replace(/地図.+$/g, empty)]: the match starts at the first "地図" that
    is followed, up to the end of the string, by at least one code unit
    and no line terminator. *)
Fixpoint strip_map_note (s : jsstring) : jsstring :=
  match s with
  | [] => []
  | c :: s' =>
      let rest := skipn 2 s in
      if startsWith chizu s && (0 <? len rest) &&
         forallb (fun x => negb (is_line_terminator x)) rest
      then [] else c :: strip_map_note s'
  end.

Definition candidates (u : jsstring) (document : page) : list jsstring :=
  if negb (indexOf u (lit "/okayama/about/"%string) 0 =? -1) ||
     negb (indexOf u (lit "/matsue/about/"%string) 0 =? -1)
  then map strip_map_note (first_cells document)
  else map trim (anchors document).

(** The two [filter]s of [scrapePage] taken together. *)
Definition accepted (s : jsstring) : bool :=
  (endsWith s saibansho || endsWith s shibu || endsWith s shutchojo)
  && not_excluded s.

Definition normalize (s : jsstring) : list jsstring :=
  trimmed_lines
    (replace_g [shibu; shutchojo; nakaguro] (fun m => m ++ [LF]) s).

Definition extract (u : jsstring) (document : page) : list jsstring :=
  let lines :=
    filter (fun s => 0 <? len s)
      (map cleanup
         (flat_map splitCourts
            (flat_map normalize
               (filter not_excluded
                  (filter (fun s => endsWith s saibansho || endsWith s shibu
                                    || endsWith s shutchojo)
                     (candidates u document)))))) in
  aggregate lines.

Definition scrapePage (u : jsstring) (r : response page)
    : error + list jsstring :=
  match r with
  | NetworkFailure => inl (ErrorIn u FetchRejected)
  | NotOk status => inl (ErrorIn u (HttpError status))
  | Unparsable => inl (ErrorIn u ParseFailed)
  | Parsed document => inr (extract u document)
  end.

Section Crawl.

Variable web : nat -> jsstring -> response page.

Definition scrape (i : nat) (u : jsstring) : error + list jsstring :=
  scrapePage u (web i u).

Definition pass (n : Z) (delayMs : Z) (i : nat) (u : jsstring)
    (r : run jsstring) : run jsstring :=
  let r := emit [LogProgress (Z.of_nat i + 1) n; LogFetching u; Fetch u] r in
  let r :=
    match scrape i u with
    | inr result => push (mkResult u result) (emit [LogResult result] r)
    | inl e => emit [ConsoleError e] r
    end in
  if Z.of_nat i <? n - 1 then emit [Sleep delayMs] r else r.

Fixpoint for_loop (n : Z) (delayMs : Z) (i : nat) (rest : list jsstring)
    (r : run jsstring) : run jsstring :=
  match rest with
  | [] => r
  | u :: rest' => for_loop n delayMs (S i) rest' (pass n delayMs i u r)
  end.

Definition scrapePages (urls : list jsstring) (delayMs : Z) : run jsstring :=
  for_loop (len_list urls) delayMs 0 urls (mkRun [] []).

Definition allData (results : list (ScrapeResult jsstring)) : list jsstring :=
  new_Set (flat_map data results).

Definition main (disk : nat -> bool) (urls : list jsstring)
    : list event * bool :=
  let r := scrapePages urls 1500 in
  let '(es, ok) := write_out disk (pushed r) (allData (pushed r)) in
  (trace r ++ es, ok).

End Crawl.

End Part000.

(** ** [src/unnamed/part_001] *)

Module Part001.

(** The two [filter]s of [scrapePage] taken together. *)
Definition accepted (s : jsstring) : bool :=
  (endsWith s saibansho || endsWith s shibu) && not_excluded s.

(** Each [<a>] is read by its text alone; the lines are neither split at
    "裁判所" nor cleaned. *)
Definition extract (document : list jsstring) : list jsstring :=
  let lines :=
    flat_map Main.normalize
      (filter not_excluded
         (filter (fun s => endsWith s saibansho || endsWith s shibu)
            (map trim document))) in
  aggregate lines.

End Part001.

(** ** The rest of the scripts *)

(** [s.replace(pat, rep)] with a string for a pattern: the first
    occurrence only. *)
Fixpoint replace_first (pat rep s : jsstring) : jsstring :=
  if startsWith pat s then rep ++ skipn (length pat) s
  else match s with
       | [] => []
       | c :: s' => c :: replace_first pat rep s'
       end.

(** [s.replace(/[...]/g, rep)]: every code unit of a class replaced. *)
Definition replace_class (cls : code_unit -> bool) (rep : jsstring)
    (s : jsstring) : jsstring :=
  flat_map (fun c => if cls c then rep else [c]) s.

(** [iso.replace(/[:.]/g, "-")], where [iso] is what
    [new Date().toISOString()] returns. *)
Definition getTimestamp (iso : jsstring) : jsstring :=
  replace_class (fun c => (c =? 0x3A)%N || (c =? 0x2E)%N) (lit "-"%string) iso.

(** "https://www.courts.go.jp/" *)
Definition courts_root : jsstring := lit "https://www.courts.go.jp/"%string.

(** [filenameFromURL(url)] of the three name scrapers, at the time [iso].
    [split] never returns an empty array, so element [0] is there. *)
Definition basename_of (u : jsstring) : jsstring :=
  hd [] (split 0x2F%N (replace_first courts_root [] u)).

Definition filenameFromURL (iso u : jsstring) : jsstring :=
  getTimestamp iso ++ lit "_"%string ++ basename_of u ++ lit ".txt"%string.

(** The errors [getBaseUrls] throws; nothing catches them. *)
Definition index_failure {D : Type} (r : response D) : option error :=
  match r with
  | NetworkFailure => Some FetchRejected
  | NotOk status => Some (HttpError status)
  | Unparsable => Some ParseFailed
  | Parsed _ => None
  end.

(** [getBaseUrls], from what [getAttribute("href")] gives for every
    [<a>] of the index page ([None] for [null]); [wanted] is the test on
    the path. *)
Definition collect_urls (wanted : jsstring -> bool)
    (hrefs : list (option jsstring)) : list jsstring :=
  new_Set
    (map (replace_first (lit "./../../"%string) courts_root)
       (filter wanted
          (flat_map (fun h => match h with Some x => [x] | None => [] end)
             hrefs))).

Definition getBaseUrls (wanted : jsstring -> bool)
    (r : response (list (option jsstring))) : error + list jsstring :=
  match r with
  | Parsed hrefs => inr (collect_urls wanted hrefs)
  | NetworkFailure => inl FetchRejected
  | NotOk status => inl (HttpError status)
  | Unparsable => inl ParseFailed
  end.

(** The path tests of [src/main.ts] (and [src/unnamed/part_001]) and of
    [src/unnamed/part_000]. *)
Definition wanted_main (href : jsstring) : bool :=
  negb (indexOf href (lit "syozai/index.html"%string) 0 =? -1) ||
  negb (indexOf href (lit "ip/info/access/index.html"%string) 0 =? -1).

Definition wanted_part000 (href : jsstring) : bool :=
  negb (indexOf href (lit "syozai"%string) 0 =? -1) ||
  negb (indexOf href (lit "ip/info/access/index.html"%string) 0 =? -1).

(** ** [scrapePages] of [src/unnamed/part_001] *)

Module Part001Crawl.

Definition scrapePage (u : jsstring) (r : response (list jsstring))
    : error + list jsstring :=
  match r with
  | NetworkFailure => inl (ErrorIn u FetchRejected)
  | NotOk status => inl (ErrorIn u (HttpError status))
  | Unparsable => inl (ErrorIn u ParseFailed)
  | Parsed document => inr (Part001.extract document)
  end.

Section Crawl.

Variable web : nat -> jsstring -> response (list jsstring).

Definition scrape (i : nat) (u : jsstring) : error + list jsstring :=
  scrapePage u (web i u).

Definition pass (n : Z) (delayMs : Z) (i : nat) (u : jsstring)
    (r : run jsstring) : run jsstring :=
  let r := emit [LogFetching u; Fetch u] r in
  let r :=
    match scrape i u with
    | inr result => push (mkResult u result) r
    | inl e => emit [ConsoleError e] r
    end in
  if Z.of_nat i <? n - 1
  then emit [LogWaiting (Z.of_nat i + 1) n delayMs; Sleep delayMs] r
  else r.

Fixpoint for_loop (n : Z) (delayMs : Z) (i : nat) (rest : list jsstring)
    (r : run jsstring) : run jsstring :=
  match rest with
  | [] => r
  | u :: rest' => for_loop n delayMs (S i) rest' (pass n delayMs i u r)
  end.

Definition scrapePages (urls : list jsstring) (delayMs : Z) : run jsstring :=
  for_loop (len_list urls) delayMs 0 urls (mkRun [] []).

Definition main (disk : nat -> bool) (urls : list jsstring)
    : list event * bool :=
  let r := scrapePages urls 3000 in
  let '(es, ok) :=
    write_out disk (pushed r) (flat_map data (pushed r)) in
  (trace r ++ es, ok).

End Crawl.

End Part001Crawl.

(** ** The table scraper in the second half of [src/main.ts] *)

Module Csv.

(** What [scrapePage] reads of a [tbody tr] after the first: the text of
    its [th], if it has one, and the text of every [td]. *)
Record row : Type := mkRow {
  th : option jsstring;
  tds : list jsstring
}.

(** [place] and [tel] are [undefined] when the row has no such [td]. *)
Record CourtInfo : Type := mkCourt {
  name : jsstring;
  place : option jsstring;
  tel : option jsstring
}.

(** [s.replace(/\s+/g, " ")]: [in_run] tells that the code unit before
    was white space too. *)
Fixpoint collapse (in_run : bool) (s : jsstring) : jsstring :=
  match s with
  | [] => []
  | c :: s' =>
      if is_space c then
        if in_run then collapse true s' else 0x20%N :: collapse true s'
      else c :: collapse false s'
  end.

Definition court_name (text : jsstring) : jsstring :=
  trim (collapse false text).

(** The callback of [.map]: [querySelector("th")!] is [null] for a row
    without [th], and reading [textContent] of it throws. *)
Definition court_of (r : row) : option CourtInfo :=
  match th r with
  | None => None
  | Some text =>
      let cells := map trim (tds r) in
      Some (mkCourt (court_name text) (nth_error cells 0) (nth_error cells 1))
  end.

Fixpoint courts_of (rows : list row) : option (list CourtInfo) :=
  match rows with
  | [] => Some []
  | r :: rows' =>
      match court_of r with
      | None => None
      | Some c =>
          match courts_of rows' with
          | None => None
          | Some cs => Some (c :: cs)
          end
      end
  end.

(** What [scrapePage] catches and wraps. *)
Inductive cause : Type :=
| Thrown (e : error)
| TypeError.

Definition scrapePage (u : jsstring) (r : response (list row))
    : (jsstring * cause) + list CourtInfo :=
  match r with
  | NetworkFailure => inl (u, Thrown FetchRejected)
  | NotOk status => inl (u, Thrown (HttpError status))
  | Unparsable => inl (u, Thrown ParseFailed)
  | Parsed rows =>
      match courts_of rows with
      | Some courts => inr courts
      | None => inl (u, TypeError)
      end
  end.

(** A template literal prints [undefined] by its name. *)
Definition shown (x : option jsstring) : jsstring :=
  match x with
  | Some s => s
  | None => lit "undefined"%string
  end.

Definition quote : code_unit := 0x22%N.
Definition comma : code_unit := 0x2C%N.

Definition csv_line (c : CourtInfo) : jsstring :=
  [quote] ++ name c ++ [quote; comma; quote] ++ shown (place c)
  ++ [quote; comma; quote] ++ shown (tel c) ++ [quote].

(** "裁判所名,所在地,電話番号" and a line feed. *)
Definition header : jsstring :=
  [0x88C1; 0x5224; 0x6240; 0x540D; 0x2C; 0x6240; 0x5728; 0x5730; 0x2C;
   0x96FB; 0x8A71; 0x756A; 0x53F7; 0x0A]%N.

(** What [saveAsCSV] writes. *)
Definition csv_content (data : list CourtInfo) : jsstring :=
  header ++ join [LF] (map csv_line data).

Definition basename_of (u : jsstring) : jsstring :=
  hd [] (split 0x2E%N (last (split 0x2F%N u) [])).

Definition filenameFromURL (iso u : jsstring) : jsstring :=
  lit "court_data_"%string ++ basename_of u ++ lit "_"%string
  ++ getTimestamp iso ++ lit ".csv"%string.

(** The URLs of [main]. *)
Definition urls : list jsstring :=
  map (fun s => lit "https://www.choutei.jp/courts/courts_family/"%string ++ s)
    [lit "sapporo.html"%string; lit "sendai.html"%string;
     lit "tokyo.html"%string; lit "nagoya.html"%string;
     lit "osaka.html"%string; lit "hiroshima.html"%string;
     lit "takamatsu.html"%string; lit "fukuoka.html"%string].

End Csv.

(** ** The vocabulary of the properties *)

(** [s] contains [pat] as a substring. *)
Definition contains (s pat : jsstring) : Prop :=
  exists pre post, s = pre ++ pat ++ post.

(** [s] ends with [suf]. *)
Definition has_suffix (s suf : jsstring) : Prop :=
  exists pre, s = pre ++ suf.

(** A clean string: no white space and none of "，．･・" anywhere. *)
Definition clean (s : jsstring) : Prop :=
  Forall (fun c => is_decoration c = false) s.

(** The order of the default sort: [a] does not come after [b], code
    unit by code unit. *)
Definition le_units (a b : jsstring) : Prop := string_ltb b a = false.

(** The position at which [x] first appears in [l]; [length l] when it
    does not appear. *)
Fixpoint first_position (x : jsstring) (l : list jsstring) : nat :=
  match l with
  | [] => 0
  | y :: l' => if string_eqb y x then 0 else S (first_position x l')
  end.

(** [r] lists its elements in the order in which they first appear in
    [l]: an element that first appears earlier in [l] stands earlier in
    [r]. *)
Definition by_first_appearance (l r : list jsstring) : Prop :=
  StronglySorted
    (fun a b => (first_position a l < first_position b l)%nat) r.

(** The order of the output: shorter first, equal lengths ordered by
    [le]. *)
Definition by_length_then (le : jsstring -> jsstring -> Prop)
    (a b : jsstring) : Prop :=
  len a < len b \/ (len a = len b /\ le a b).

(** The code points of a string: a high surrogate followed by a low one
    is one code point, any other code unit stands for itself. *)
Definition is_high_surrogate (c : code_unit) : bool :=
  ((0xD800 <=? c) && (c <=? 0xDBFF))%N.
Definition is_low_surrogate (c : code_unit) : bool :=
  ((0xDC00 <=? c) && (c <=? 0xDFFF))%N.

Fixpoint codepoints (s : jsstring) : list N :=
  match s with
  | [] => []
  | h :: t =>
      match t with
      | [] => [h]
      | l :: s' =>
          if is_high_surrogate h && is_low_surrogate l
          then (0x10000 + (h - 0xD800) * 0x400 + (l - 0xDC00))%N :: codepoints s'
          else h :: codepoints t
      end
  end.

(** Lexicographic order by code points. *)
Definition le_codepoints (a b : jsstring) : Prop :=
  string_ltb (codepoints b) (codepoints a) = false.

(** No code unit of the string is a surrogate. *)
Definition no_surrogate (s : jsstring) : Prop :=
  Forall (fun c => is_high_surrogate c = false /\ is_low_surrogate c = false) s.

(** The URLs requested, and the errors written to the console, in order. *)
Definition fetched (tr : list event) : list jsstring :=
  flat_map (fun e => match e with Fetch u => [u] | _ => [] end) tr.

Definition errors_logged (tr : list event) : list error :=
  flat_map (fun e => match e with ConsoleError e => [e] | _ => [] end) tr.

(** The events that touch the combined file. *)
Definition on_combined (e : event) : bool :=
  match e with
  | WriteTextFile CombinedFile _ | WriteRejected CombinedFile => true
  | _ => false
  end.

Section CrawlSpec.

(** [scrape i u]: what [scrapePage(u)] comes to in pass [i]. *)
Variable scrape : nat -> jsstring -> error + list jsstring.

(** The URLs that succeed, with their data, in the order of the list. *)
Fixpoint successes (i : nat) (urls : list jsstring)
    : list (ScrapeResult jsstring) :=
  match urls with
  | [] => []
  | u :: urls' =>
      match scrape i u with
      | inr result => mkResult u result :: successes (S i) urls'
      | inl _ => successes (S i) urls'
      end
  end.

(** The errors of the URLs that fail, in the order of the list. *)
Fixpoint failures (i : nat) (urls : list jsstring) : list error :=
  match urls with
  | [] => []
  | u :: urls' =>
      match scrape i u with
      | inr _ => failures (S i) urls'
      | inl e => e :: failures (S i) urls'
      end
  end.

End CrawlSpec.

(** The combined file was written. *)
Definition combined_written (tr : list event) : Prop :=
  exists content, In (WriteTextFile CombinedFile content) tr.

(** The requests and the pauses of a run. *)
Definition request_or_sleep (e : event) : bool :=
  match e with
  | Fetch _ | Sleep _ => true
  | _ => false
  end.

(** One request per URL, in order, and a pause between two of them. *)
Fixpoint paced (delayMs : Z) (urls : list jsstring) : list event :=
  match urls with
  | [] => []
  | u :: rest =>
      match rest with
      | [] => [Fetch u]
      | _ :: _ => Fetch u :: Sleep delayMs :: paced delayMs rest
      end
  end.

(** The files written, with their content, in order. *)
Definition writes (tr : list event) : list (file * jsstring) :=
  flat_map (fun e => match e with
                     | WriteTextFile f content => [(f, content)]
                     | _ => []
                     end) tr.

(** The events of [saveAsFile]. *)
Definition is_write (e : event) : bool :=
  match e with
  | WriteTextFile _ _ | WriteRejected _ => true
  | _ => false
  end.

Definition is_rejected (e : event) : bool :=
  match e with
  | WriteRejected _ => true
  | _ => false
  end.

(** The file of a result and what goes into it. *)
Definition source_file (r : ScrapeResult jsstring) : file * jsstring :=
  (SourceFile (url r), join [LF] (data r)).

(** No two white-space code units are adjacent in [s]; [prev] tells that
    the code unit before [s] is white space. *)
Fixpoint single_spaced (prev : bool) (s : jsstring) : bool :=
  match s with
  | [] => true
  | c :: s' =>
      if is_space c then negb prev && single_spaced true s'
      else single_spaced false s'
  end.

(** ** Sample data *)

(** "東京地方裁判所" *)
Definition tokyo_chisai : jsstring :=
  [0x6771; 0x4EAC; 0x5730; 0x65B9]%N ++ saibansho.
(** "東京家庭裁判所" *)
Definition tokyo_kasai : jsstring :=
  [0x6771; 0x4EAC; 0x5BB6; 0x5EAD]%N ++ saibansho.
(** "立川支部" *)
Definition tachikawa_shibu : jsstring := [0x7ACB; 0x5DDD]%N ++ shibu.

(** "𠮷" (U+20BB7, a surrogate pair) and "﨑﨑" (U+FA11 twice): two
    strings of two code units each. *)
Definition yoshi : jsstring := [0xD842; 0xDFB7]%N.
Definition saki_saki : jsstring := [0xFA11; 0xFA11]%N.

(** "乙裁判所", "甲裁判所", "丙裁判所支部" *)
Definition otsu : jsstring := [0x4E59]%N ++ saibansho.
Definition ko : jsstring := [0x7532]%N ++ saibansho.
Definition hei_shibu : jsstring := [0x4E19]%N ++ saibansho ++ shibu.

(** An [<a>] whose text is "，・東京地方裁判所". *)
Definition decorated_anchor : Main.anchor :=
  Main.mkAnchor None ([0xFF0C; 0x30FB]%N ++ tokyo_chisai).

(** "最高裁判所" *)
Definition saikosai : jsstring := [0x6700; 0x9AD8]%N ++ saibansho.

Definition url_tokyo : jsstring :=
  lit "https://www.courts.go.jp/tokyo/about/syozai/index.html"%string.
Definition url_saikosai : jsstring :=
  lit "https://www.courts.go.jp/saikosai/about/syozai/index.html"%string.

(** Two pages, each with one link: "東京地方裁判所" on the first,
    "最高裁判所" on the second. *)
Definition two_sites (i : nat) (u : jsstring) : response Part000.page :=
  if string_eqb u url_tokyo then Parsed (Part000.mkPage [tokyo_chisai] [])
  else Parsed (Part000.mkPage [saikosai] []).

(** Three URLs, the second of which answers 503. *)
Definition url_osaka : jsstring :=
  lit "https://www.courts.go.jp/osaka/about/syozai/index.html"%string.

Definition second_fails (i : nat) (u : jsstring)
    : response (list Main.anchor) :=
  if string_eqb u url_osaka then NotOk 503
  else if string_eqb u url_tokyo then Parsed [Main.mkAnchor None tokyo_chisai]
  else Parsed [Main.mkAnchor None saikosai].

(** One page with the link "東京地方裁判所", and a disk on which no
    write succeeds. *)
Definition one_site (i : nat) (u : jsstring) : response (list Main.anchor) :=
  Parsed [Main.mkAnchor None tokyo_chisai].
Definition disk_full (k : nat) : bool := false.

(** A site that answers 503 to everything. *)
Definition site_down (i : nat) (u : jsstring) : response (list Main.anchor) :=
  NotOk 503.
Definition site_down' (i : nat) (u : jsstring) : response Part000.page :=
  NotOk 503.
Definition disk_ok (k : nat) : bool := true.

(** A table of two rows: "東京 家庭裁判所" (with a line feed and spaces
    between the two words) with an address and a telephone number, and
    "立川支部" with no cell; and the same table with a third row that has
    no [th]. *)
Definition row_tokyo : Csv.row :=
  Csv.mkRow (Some ([0x6771; 0x4EAC; 0x0A; 0x20; 0x20]%N ++ [0x5BB6; 0x5EAD]%N
                   ++ saibansho ++ [0x20]%N))
            [lit " 1-1-4 Kasumigaseki "%string; lit "03-3502-8311"%string].
Definition row_tachikawa : Csv.row := Csv.mkRow (Some tachikawa_shibu) [].
Definition row_without_th : Csv.row :=
  Csv.mkRow None [lit "note"%string].
Definition table_ok : list Csv.row := [row_tokyo; row_tachikawa].
Definition table_broken : list Csv.row :=
  [row_tokyo; row_tachikawa; row_without_th].
Definition url_choutei : jsstring :=
  lit "https://www.choutei.jp/courts/courts_family/tokyo.html"%string.

(** "岡山地方裁判所" and a note "（岡山市）" after the link to the map. *)
Definition okayama_chisai : jsstring :=
  [0x5CA1; 0x5C71; 0x5730; 0x65B9]%N ++ saibansho.
Definition okayama_note : jsstring :=
  [0xFF08; 0x5CA1; 0x5C71; 0x5E02; 0xFF09]%N.

(** A page of [src/unnamed/part_001] with the link "東京地方裁判所". *)
Definition one_link (i : nat) (u : jsstring) : response (list jsstring) :=
  Parsed [tokyo_chisai].

(** * Properties *)

(** ** String primitives against their meaning *)

Section StringFacts.

Lemma string_eqb_eq (a b : jsstring) : string_eqb a b = true <-> a = b.
Proof.
  revert b; induction a as [|x a IH]; intros [|y b]; simpl;
    try (split; [discriminate | intros H; inversion H]); try tauto.
  rewrite andb_true_iff, N.eqb_eq, IH. split.
  - intros [-> ->]; reflexivity.
  - intros H; inversion H; auto.
Qed.

Lemma startsWith_prefix (pat s : jsstring) :
  startsWith pat s = true <-> exists rest, s = pat ++ rest.
Proof.
  revert s; induction pat as [|p pat IH]; intros s; simpl.
  - split; [intros _; exists s; reflexivity | reflexivity].
  - destruct s as [|c s].
    + split; [discriminate | intros [r H]; discriminate].
    + rewrite andb_true_iff, N.eqb_eq, IH. split.
      * intros [-> [r ->]]. exists r; reflexivity.
      * intros [r H]. inversion H; subst. split; [reflexivity | eauto].
Qed.

Lemma startsWith_app (pat rest : jsstring) :
  startsWith pat (pat ++ rest) = true.
Proof. apply startsWith_prefix; eauto. Qed.

Lemma find_from_None (pat s : jsstring) (k : nat) :
  find_from pat s k = None <-> ~ contains s pat.
Proof.
  revert k; induction s as [|c s IH]; intros k; simpl.
  - destruct (startsWith pat []) eqn:E.
    + split; [discriminate|]. intros H; exfalso; apply H.
      apply startsWith_prefix in E as [r E]. exists [], r; exact E.
    + split; [|reflexivity]. intros _ (pre & post & H).
      destruct pre; simpl in H; [|discriminate].
      assert (startsWith pat [] = true) by (apply startsWith_prefix; eauto).
      congruence.
  - destruct (startsWith pat (c :: s)) eqn:E.
    + split; [discriminate|]. intros H; exfalso; apply H.
      apply startsWith_prefix in E as [r E]. exists [], r; exact E.
    + rewrite IH. split.
      * intros Hn (pre & post & H). destruct pre as [|x pre]; simpl in H.
        -- assert (startsWith pat (c :: s) = true)
             by (apply startsWith_prefix; eauto). congruence.
        -- inversion H; subst. apply Hn. exists pre, post; reflexivity.
      * intros Hn (pre & post & H). apply Hn.
        exists (c :: pre), post. simpl; rewrite H; reflexivity.
Qed.

Lemma find_from_Some (pat s : jsstring) (k i : nat) :
  find_from pat s k = Some i ->
  exists pre post, s = pre ++ pat ++ post /\ i = (k + length pre)%nat /\
    (forall j, (j < length pre)%nat -> startsWith pat (skipn j s) = false).
Proof.
  revert k; induction s as [|c s IH]; intros k; simpl.
  - destruct (startsWith pat []) eqn:E; [|discriminate].
    intros H; inversion H; subst.
    apply startsWith_prefix in E as [r E].
    exists [], r. simpl. repeat split; [exact E | lia | intros j Hj; lia].
  - destruct (startsWith pat (c :: s)) eqn:E.
    + intros H; inversion H; subst.
      apply startsWith_prefix in E as [r E].
      exists [], r. simpl. repeat split; [exact E | lia | intros j Hj; lia].
    + intros H. apply IH in H as (pre & post & -> & -> & Hno).
      exists (c :: pre), post. simpl. repeat split; [lia|].
      intros [|j] Hj; simpl; [exact E|]. apply Hno; lia.
Qed.

Lemma indexOf_0_None (s pat : jsstring) :
  indexOf s pat 0 = -1 <-> ~ contains s pat.
Proof.
  unfold indexOf, clamp. replace (Z.to_nat _) with 0%nat by (unfold len; lia).
  simpl. rewrite <- (find_from_None pat s 0).
  destruct (find_from pat s 0); split; try congruence; lia.
Qed.

Lemma endsWith_suffix (s suf : jsstring) :
  endsWith s suf = true <-> has_suffix s suf.
Proof.
  unfold endsWith, has_suffix.
  rewrite andb_true_iff, Nat.leb_le, string_eqb_eq. split.
  - intros [Hle H]. exists (firstn (length s - length suf) s).
    rewrite <- H at 2. symmetry; apply firstn_skipn.
  - intros [pre ->]. rewrite length_app. split; [lia|].
    replace (length pre + length suf - length suf)%nat
      with (length pre + 0)%nat by lia.
    rewrite skipn_app, Nat.add_0_r, skipn_all. simpl.
    replace (length pre - length pre)%nat with 0%nat by lia. reflexivity.
Qed.

End StringFacts.

(** ** Reasoning about the two loops *)

(** Unfold a loop defined by well-founded recursion one pass. *)
Ltac unfold_pass cond body :=
  repeat match goal with
         | E : cond _ _ = _ |- _ => rewrite E
         | E : body _ _ = _ |- _ => rewrite E
         end; reflexivity.

Section OccurrenceFacts.

Lemma occurrences_suffix (pat pre s : jsstring) :
  (occurrences pat s <= occurrences pat (pre ++ s))%nat.
Proof.
  induction pre as [|c pre IH]; simpl; [lia|].
  destruct (startsWith pat (c :: pre ++ s)); lia.
Qed.

Lemma occurrences_match (pat pre post : jsstring) :
  pat <> [] ->
  (S (occurrences pat post) <= occurrences pat (pre ++ pat ++ post))%nat.
Proof.
  intros Hne.
  pose proof (occurrences_suffix pat pre (pat ++ post)) as H1.
  destruct pat as [|p pat]; [congruence|].
  assert (H2 : (S (occurrences (p :: pat) post)
                <= occurrences (p :: pat) ((p :: pat) ++ post))%nat).
  { change ((p :: pat) ++ post) with (p :: (pat ++ post)).
    cbn [occurrences].
    change (p :: pat ++ post) with ((p :: pat) ++ post).
    rewrite startsWith_app.
    pose proof (occurrences_suffix (p :: pat) pat post). lia. }
  lia.
Qed.

Lemma occurrences_pos (pat s : jsstring) :
  (0 < occurrences pat s)%nat -> contains s pat.
Proof.
  induction s as [|c s IH]; simpl.
  - destruct (startsWith pat []) eqn:E; [|lia]. intros _.
    apply startsWith_prefix in E as [r E]. exists [], r; exact E.
  - destruct (startsWith pat (c :: s)) eqn:E.
    + intros _. apply startsWith_prefix in E as [r E]. exists [], r; exact E.
    + intros H. destruct IH as (pre & post & ->); [lia|].
      exists (c :: pre), post; reflexivity.
Qed.

Lemma occurrences_0 (pat s : jsstring) :
  occurrences pat s = 0%nat -> ~ contains s pat.
Proof.
  intros H (pre & post & ->).
  pose proof (occurrences_suffix pat pre (pat ++ post)) as H1.
  destruct pat as [|p pat]; simpl in *.
  - destruct post; simpl in H1; lia.
  - rewrite N.eqb_refl in H1. change (startsWith pat (pat ++ post)) with
      (startsWith pat (pat ++ post)) in H1.
    rewrite startsWith_app in H1. simpl in H1. lia.
Qed.

End OccurrenceFacts.

(** What a successful [indexOf] from a position inside the string says
    about the string. *)
Lemma indexOf_found (text pat : jsstring) (from : Z) :
  0 <= from <= len text ->
  indexOf text pat from <> -1 ->
  exists pre post,
    skipn (Z.to_nat from) text = pre ++ pat ++ post /\
    indexOf text pat from = from + len pre.
Proof.
  unfold indexOf; intros Hfrom.
  replace (clamp text from) with (Z.to_nat from) by (unfold clamp; lia).
  destruct (find_from _ _ _) as [i|] eqn:E; [|congruence].
  intros _. apply find_from_Some in E as (pre & post & Hs & -> & _).
  exists pre, post. split; [exact Hs|]. unfold len; lia.
Qed.

Lemma indexOf_missing (text pat : jsstring) (from : Z) :
  0 <= from <= len text ->
  indexOf text pat from = -1 ->
  ~ contains (skipn (Z.to_nat from) text) pat.
Proof.
  unfold indexOf; intros Hfrom.
  replace (clamp text from) with (Z.to_nat from) by (unfold clamp; lia).
  destruct (find_from _ _ _) as [i|] eqn:E; [lia|].
  intros _. apply (find_from_None _ _ _) in E. exact E.
Qed.

Lemma firstn_prefix {A : Type} (a b : list A) (n : nat) :
  n = length a -> firstn n (a ++ b) = a.
Proof.
  intros ->. rewrite firstn_app, firstn_all, Nat.sub_diag. simpl.
  apply app_nil_r.
Qed.

Lemma skipn_prefix {A : Type} (a b : list A) (n : nat) :
  n = length a -> skipn n (a ++ b) = b.
Proof.
  intros ->. rewrite skipn_app, skipn_all, Nat.sub_diag. reflexivity.
Qed.

Lemma substring_mid (text pre mid post : jsstring) (a b : Z) :
  text = pre ++ mid ++ post ->
  a = len pre -> b = len pre + len mid ->
  substring text a b = mid.
Proof.
  intros -> -> ->. unfold substring, clamp, len.
  rewrite !length_app.
  replace (Z.to_nat (Z.min (Z.max (Z.of_nat (length pre)) 0) _))
    with (length pre) by lia.
  replace (Z.to_nat (Z.min (Z.max (Z.of_nat (length pre)
                                   + Z.of_nat (length mid)) 0) _))
    with (length pre + length mid)%nat by lia.
  rewrite Nat.min_l, Nat.max_r by lia.
  replace (length pre + length mid - length pre)%nat with (length mid) by lia.
  rewrite skipn_app, skipn_all, Nat.sub_diag. simpl.
  rewrite firstn_app, firstn_all, Nat.sub_diag. simpl.
  apply app_nil_r.
Qed.

(** ** The loop of [splitCourts] in [src/main.ts] *)

Module MainFacts.
Import Main.

Lemma main_loop_unfold (text : jsstring) (st : loop_state) :
  loop text st =
  if loop_cond text st then
    match loop_body text st with
    | Continue st' => loop text st'
    | Break st' => st'
    end
  else st.
Proof. funelim (loop text st); unfold_pass loop_cond loop_body. Qed.

(** The rule of the [while] loop with [break]: an invariant [I] kept by
    every pass that goes round again gives [Q] wherever the loop is left. *)
Lemma main_loop_rule (text : jsstring) (I Q : loop_state -> Prop) :
  (forall st st', I st -> loop_cond text st = true ->
                  loop_body text st = Continue st' -> I st') ->
  (forall st st', I st -> loop_cond text st = true ->
                  loop_body text st = Break st' -> Q st') ->
  (forall st, I st -> loop_cond text st = false -> Q st) ->
  forall st, I st -> Q (loop text st).
Proof.
  intros Hcont Hbreak Hexit st.
  remember (remaining text st) as m eqn:Hm.
  revert st Hm. induction m as [m IH] using lt_wf_ind. intros st Hm HI.
  rewrite main_loop_unfold.
  destruct (loop_cond text st) eqn:Hc; [|auto].
  destruct (loop_body text st) as [st'|st'] eqn:Hb.
  - apply (IH (remaining text st')); [|reflexivity|eauto].
    subst m. apply (currentIndex_advances _ _ _ Hc Hb).
  - eauto.
Qed.

(** The loop invariant of [splitCourts]: the tokens pushed so far are
    the text before the cursor, cut after each "裁判所" found. *)
Record inv (text : jsstring) (st : loop_state) : Prop := mkInv {
  inv_range : 0 <= currentIndex st <= len text;
  inv_concat : concat (results st) = firstn (Z.to_nat (currentIndex st)) text;
  inv_count :
    (length (results st)
     + occurrences saibansho (skipn (Z.to_nat (currentIndex st)) text)
     <= occurrences saibansho text)%nat;
  inv_tokens : Forall (fun t => has_suffix t saibansho) (results st)
}.

Lemma main_inv_init (text : jsstring) : inv text (mkState [] 0).
Proof. constructor; simpl; try lia; auto. unfold len; lia. Qed.

Lemma main_inv_pass (text : jsstring) (st st' : loop_state) :
  inv text st -> loop_cond text st = true ->
  loop_body text st = Continue st' -> inv text st'.
Proof.
  intros [Hr Hcat Hcnt Htok] Hc Hb. unfold loop_body in Hb.
  destruct (indexOf text saibansho (currentIndex st) =? -1) eqn:E;
    [discriminate|].
  apply Z.eqb_neq in E.
  destruct (indexOf_found _ _ _ Hr E) as (pre & post & Hs & Hi).
  inversion Hb; subst st'; clear Hb; simpl.
  set (c := Z.to_nat (currentIndex st)) in *.
  assert (Hc1 : length (firstn c text) = c).
  { apply firstn_length_le. unfold c, len in *; lia. }
  remember (firstn c text) as head eqn:Hhead.
  assert (Htext : text = head ++ (pre ++ saibansho) ++ post).
  { rewrite <- (firstn_skipn c text), <- Hhead, Hs, <- app_assoc.
    reflexivity. }
  assert (Hnew : Z.to_nat (indexOf text saibansho (currentIndex st) + 3)
                 = length (head ++ pre ++ saibansho)).
  { rewrite Hi, !length_app, Hc1. simpl. unfold c, len. lia. }
  assert (Htoken : substring text (currentIndex st)
                     (indexOf text saibansho (currentIndex st) + 3)
                   = pre ++ saibansho).
  { apply (substring_mid text head (pre ++ saibansho) post); [exact Htext| |].
    - unfold len; rewrite Hc1; unfold c; lia.
    - rewrite Hi; unfold len; rewrite Hc1, length_app; simpl; unfold c; lia. }
  rewrite Htoken.
  constructor; simpl; rewrite ?Hnew.
  - rewrite Hi, Htext. unfold len. rewrite !length_app, Hc1. simpl.
    unfold c; lia.
  - rewrite concat_app, Hcat. simpl. rewrite app_nil_r.
    rewrite Htext at 1. rewrite (app_assoc head (pre ++ saibansho) post).
    symmetry; apply firstn_prefix; reflexivity.
  - rewrite length_app. change (length [pre ++ saibansho]) with 1%nat.
    replace (skipn (length (head ++ pre ++ saibansho)) text) with post.
    + rewrite Hs in Hcnt.
      assert (Hm := occurrences_match saibansho pre post ltac:(discriminate)).
      lia.
    + rewrite Htext at 1. rewrite (app_assoc head (pre ++ saibansho) post).
      symmetry; apply skipn_prefix; reflexivity.
  - apply Forall_app; split; [exact Htok|]. constructor; [|constructor].
    exists pre; reflexivity.
Qed.

(** Where the loop is left: the invariant holds and nothing that is left
    to scan contains "裁判所". *)
Definition at_exit (text : jsstring) (st : loop_state) : Prop :=
  inv text st /\
  ~ contains (skipn (Z.to_nat (currentIndex st)) text) saibansho.

Lemma main_loop_exit (text : jsstring) : at_exit text (loop text (mkState [] 0)).
Proof.
  apply (main_loop_rule text (inv text)); [| | |apply main_inv_init].
  - intros; eapply main_inv_pass; eauto.
  - intros st st' HI _ Hb. unfold loop_body in Hb.
    destruct (_ =? -1) eqn:E; [|discriminate]. inversion Hb; subst st'.
    split; [exact HI|]. apply Z.eqb_eq in E.
    apply indexOf_missing; [apply HI | exact E].
  - intros st HI Hc. split; [exact HI|].
    destruct HI as [Hr _ _ _]. unfold loop_cond in Hc.
    apply andb_false_iff in Hc as [Hc|Hc];
      [apply Z.leb_gt in Hc; lia | apply Z.ltb_ge in Hc].
    rewrite skipn_all2 by (unfold len in *; lia).
    intros (pre & post & H). destruct pre; discriminate.
Qed.

(** Enough fuel: one pass for every three code units, and one to leave. *)
Lemma main_while_fuel_loop (text : jsstring) (fuel : nat) (st : loop_state) :
  inv text st -> (remaining text st / 3 < fuel)%nat ->
  while_fuel (loop_cond text) (loop_body text) fuel st = Some (loop text st).
Proof.
  revert st; induction fuel as [|fuel IH]; intros st HI Hfuel; [lia|].
  simpl. rewrite main_loop_unfold.
  destruct (loop_cond text st) eqn:Hc; [|reflexivity].
  destruct (loop_body text st) as [st'|st'] eqn:Hb; [|reflexivity].
  pose proof (main_inv_pass _ _ _ HI Hc Hb) as HI'.
  apply IH; [exact HI'|].
  destruct (currentIndex_advances _ _ _ Hc Hb) as [Hstep _].
  destruct HI as [Hr _ _ _], HI' as [Hr' _ _ _].
  unfold remaining in *.
  assert (Z.to_nat (len text - currentIndex st') + 3
          <= Z.to_nat (len text - currentIndex st))%nat by lia.
  pose proof (Nat.Div0.div_le_mono _ _ 3 H) as Hd.
  replace (Z.to_nat (len text - currentIndex st') + 3)%nat
    with (Z.to_nat (len text - currentIndex st') + 1 * 3)%nat in Hd by lia.
  rewrite Nat.div_add in Hd by lia. lia.
Qed.

End MainFacts.

(** ** The loop of [splitCourts] in [src/unnamed/part_000] *)

Module Part000Facts.
Import Part000.

Lemma part000_loop_unfold (text : jsstring) (st : loop_state) :
  loop text st =
  if loop_cond text st then
    match loop_body text st with
    | Continue st' => loop text st'
    | Break st' => st'
    end
  else st.
Proof. funelim (loop text st); unfold_pass loop_cond loop_body. Qed.

Lemma part000_loop_rule (text : jsstring) (I Q : loop_state -> Prop) :
  (forall st st', I st -> loop_cond text st = true ->
                  loop_body text st = Continue st' -> I st') ->
  (forall st st', I st -> loop_cond text st = true ->
                  loop_body text st = Break st' -> Q st') ->
  (forall st, I st -> loop_cond text st = false -> Q st) ->
  forall st, I st -> Q (loop text st).
Proof.
  intros Hcont Hbreak Hexit st.
  remember (remaining text st) as m eqn:Hm.
  revert st Hm. induction m as [m IH] using lt_wf_ind. intros st Hm HI.
  rewrite part000_loop_unfold.
  destruct (loop_cond text st) eqn:Hc; [|auto].
  destruct (loop_body text st) as [st'|st'] eqn:Hb.
  - apply (IH (remaining text st')); [|reflexivity|eauto].
    subst m. apply (startPos_advances _ _ _ Hc Hb).
  - eauto.
Qed.

(** The invariant: the tokens pushed are the text before [startPos], and
    once something has been pushed a "裁判所" is still ahead. *)
Record inv (text : jsstring) (st : loop_state) : Prop := mkInv {
  inv_range : 0 <= startPos st <= len text;
  inv_concat : concat (found st) = firstn (Z.to_nat (startPos st)) text;
  inv_ahead :
    (found st = [] /\ startPos st = 0) \/
    contains (skipn (Z.to_nat (startPos st)) text) saibansho
}.

(** What the loop leaves: nothing when the text has no "裁判所", and
    otherwise tokens that make up the whole text. *)
Definition at_exit (text : jsstring) (st : loop_state) : Prop :=
  (found st = [] /\ ~ contains text saibansho) \/
  (concat (found st) = text /\ contains text saibansho).

Lemma part000_inv_init (text : jsstring) : inv text (mkState [] 0).
Proof. constructor; simpl; auto. unfold len; lia. Qed.

Lemma substring_from_skipn (text : jsstring) (a : Z) :
  0 <= a <= len text -> substring_from text a = skipn (Z.to_nat a) text.
Proof.
  intros Ha. unfold substring_from.
  apply (substring_mid text (firstn (Z.to_nat a) text) _ []).
  - rewrite app_nil_r. symmetry; apply firstn_skipn.
  - unfold len in *. rewrite firstn_length_le; lia.
  - unfold len in *. rewrite length_skipn, firstn_length_le; lia.
Qed.

(** The facts of one pass in which "裁判所" was found. *)
Lemma found_court (text : jsstring) (st : loop_state) :
  inv text st -> indexOf text saibansho (startPos st) <> -1 ->
  exists head pre post,
    text = head ++ (pre ++ saibansho) ++ post /\
    len head = startPos st /\
    head = concat (found st) /\
    indexOf text saibansho (startPos st) + 3 = len (head ++ pre ++ saibansho) /\
    substring text (startPos st) (indexOf text saibansho (startPos st) + 3)
    = pre ++ saibansho.
Proof.
  intros [Hr Hcat _] E.
  destruct (indexOf_found _ _ _ Hr E) as (pre & post & Hs & Hi).
  set (c := Z.to_nat (startPos st)) in *.
  assert (Hc1 : length (firstn c text) = c).
  { apply firstn_length_le. unfold c, len in *; lia. }
  exists (firstn c text), pre, post.
  assert (Htext : text = firstn c text ++ (pre ++ saibansho) ++ post).
  { rewrite <- (firstn_skipn c text) at 1. rewrite Hs, <- app_assoc.
    reflexivity. }
  assert (Hend : indexOf text saibansho (startPos st) + 3
                 = len (firstn c text ++ pre ++ saibansho)).
  { rewrite Hi. unfold len. rewrite !length_app, Hc1. simpl. unfold c. lia. }
  repeat split; auto.
  - unfold len; rewrite Hc1; unfold c; lia.
  - apply (substring_mid text (firstn c text) (pre ++ saibansho) post);
      [exact Htext | unfold len; rewrite Hc1; unfold c; lia |].
    rewrite Hend. unfold len. rewrite !length_app. lia.
Qed.

Lemma part000_inv_pass (text : jsstring) (st st' : loop_state) :
  inv text st -> loop_cond text st = true ->
  loop_body text st = Continue st' -> inv text st'.
Proof.
  intros HI Hc Hb. unfold loop_body in Hb.
  destruct (indexOf text saibansho (startPos st) =? -1) eqn:E;
    [discriminate|].
  apply Z.eqb_neq in E.
  destruct (found_court _ _ HI E)
    as (head & pre & post & Ht & Hh & Hf & He & Hs).
  destruct (indexOf text saibansho (indexOf text saibansho (startPos st) + 3)
            =? -1) eqn:E2; simpl in Hb; [discriminate|].
  apply Z.eqb_neq in E2. inversion Hb; subst st'; clear Hb.
  assert (Hr' : 0 <= indexOf text saibansho (startPos st) + 3 <= len text).
  { rewrite He, Ht. unfold len. rewrite !length_app. lia. }
  constructor; simpl.
  - exact Hr'.
  - rewrite concat_app, <- Hf, Hs, He. simpl. rewrite app_nil_r.
    rewrite Ht at 1. rewrite (app_assoc head (pre ++ saibansho) post).
    symmetry; apply firstn_prefix. unfold len. lia.
  - right. destruct (indexOf_found _ _ _ Hr' E2) as (pre' & post' & H & _).
    exists pre', post'. exact H.
Qed.

Lemma part000_loop_exit (text : jsstring) : at_exit text (loop text (mkState [] 0)).
Proof.
  apply (part000_loop_rule text (inv text)); [| | |apply part000_inv_init].
  - intros; eapply part000_inv_pass; eauto.
  - intros st st' HI _ Hb. unfold loop_body in Hb.
    destruct (indexOf text saibansho (startPos st) =? -1) eqn:E.
    + inversion Hb; subst st'. left. apply Z.eqb_eq in E.
      pose proof (indexOf_missing _ _ _ (inv_range _ _ HI) E) as Hno.
      destruct (inv_ahead _ _ HI) as [[Hf Hp]|Hc]; [|contradiction].
      rewrite Hp in Hno. simpl in Hno. auto.
    + apply Z.eqb_neq in E.
      destruct (found_court _ _ HI E)
        as (head & pre & post & Ht & Hh & Hf & He & Hs).
      destruct (negb _); [discriminate|]. inversion Hb; subst st'.
      right. simpl. split.
      * rewrite concat_app, (inv_concat _ _ HI). simpl. rewrite app_nil_r.
        rewrite substring_from_skipn by apply HI. apply firstn_skipn.
      * exists (head ++ pre), post. rewrite Ht at 1.
        rewrite <- !app_assoc. reflexivity.
  - intros st HI Hc. unfold loop_cond in Hc. apply Z.ltb_ge in Hc.
    destruct HI as [Hr Hcat Hah].
    assert (Hall : skipn (Z.to_nat (startPos st)) text = []).
    { apply skipn_all2. unfold len in *; lia. }
    destruct Hah as [[Hf Hp]|(pre & post & H)].
    + left. split; [exact Hf|]. intros (pre & post & H).
      assert (len text = 0) by lia. destruct text; [|discriminate].
      destruct pre; discriminate.
    + rewrite Hall in H. destruct pre; discriminate.
Qed.

Lemma part000_while_fuel_loop (text : jsstring) (fuel : nat) (st : loop_state) :
  inv text st -> (remaining text st / 3 < fuel)%nat ->
  while_fuel (loop_cond text) (loop_body text) fuel st = Some (loop text st).
Proof.
  revert st; induction fuel as [|fuel IH]; intros st HI Hfuel; [lia|].
  simpl. rewrite part000_loop_unfold.
  destruct (loop_cond text st) eqn:Hc; [|reflexivity].
  destruct (loop_body text st) as [st'|st'] eqn:Hb; [|reflexivity].
  pose proof (part000_inv_pass _ _ _ HI Hc Hb) as HI'.
  apply IH; [exact HI'|].
  destruct (startPos_advances _ _ _ Hc Hb) as [Hstep _].
  destruct HI as [Hr _ _], HI' as [Hr' _ _].
  unfold remaining in *.
  assert (Z.to_nat (len text - startPos st') + 3
          <= Z.to_nat (len text - startPos st))%nat by lia.
  pose proof (Nat.Div0.div_le_mono _ _ 3 H) as Hd.
  replace (Z.to_nat (len text - startPos st') + 3)%nat
    with (Z.to_nat (len text - startPos st') + 1 * 3)%nat in Hd by lia.
  rewrite Nat.div_add in Hd by lia. lia.
Qed.

End Part000Facts.

(** ** The tokenizer *)

(** What [splitCourts] of [src/main.ts] returns is the text up to some
    point, and what lies beyond that point has no "裁判所" in it. *)
Lemma Main_splitCourts_prefix (text : jsstring) :
  exists tail,
    text = concat (Main.splitCourts text) ++ tail /\
    ~ contains tail saibansho.
Proof.
  unfold Main.splitCourts.
  destruct (MainFacts.main_loop_exit text) as [[Hr Hcat _ _] Hno].
  destruct (len_list _ <? 2).
  - exists []. split.
    + simpl. rewrite !app_nil_r. reflexivity.
    + intros (pre & post & H). destruct pre; discriminate.
  - exists (skipn (Z.to_nat (Main.currentIndex
                               (Main.loop text (Main.mkState [] 0)))) text).
    split; [|exact Hno]. rewrite Hcat. symmetry; apply firstn_skipn.
Qed.

(** [splitCourts] of [src/unnamed/part_000] returns nothing for a text
    without "裁判所" and tokens that make up the text otherwise. *)
Lemma Part000_splitCourts_cases (text : jsstring) :
  (Part000.splitCourts text = [] /\ ~ contains text saibansho) \/
  (concat (Part000.splitCourts text) = text /\ contains text saibansho).
Proof. exact (Part000Facts.part000_loop_exit text). Qed.

(** "裁判所" does not overlap itself: after a text that ends with it, a
    tail without it that makes the whole end with it again is empty. *)
Lemma saibansho_tail (a b t : jsstring) :
  (b ++ saibansho) ++ t = a ++ saibansho ->
  ~ contains t saibansho -> t = [].
Proof.
  intros H Hno. apply app_eq_app in H as [l [[H1 H2]|[H1 H2]]].
  - destruct l as [|x [|y [|z [|w l]]]]; simpl in H2; inversion H2; subst.
    + exfalso. apply Hno. exists [], []. reflexivity.
    + exfalso.
      change (b ++ saibansho) with (b ++ [0x88C1; 0x5224]%N ++ [0x6240]%N) in H1.
      rewrite app_assoc in H1. apply app_inj_tail in H1 as [_ H1].
      discriminate.
    + exfalso.
      change (b ++ saibansho) with (b ++ [0x88C1; 0x5224]%N ++ [0x6240]%N) in H1.
      change (a ++ [0x88C1; 0x5224]%N) with (a ++ [0x88C1]%N ++ [0x5224]%N) in H1.
      rewrite !app_assoc in H1. apply app_inj_tail in H1 as [_ H1].
      discriminate.
    + reflexivity.
  - exfalso. apply Hno. exists l, []. rewrite app_nil_r. exact H2.
Qed.

Lemma concat_has_suffix (suf : jsstring) (l : list jsstring) :
  Forall (fun t => has_suffix t suf) l -> l <> [] ->
  has_suffix (concat l) suf.
Proof.
  induction 1 as [|t l [pre Ht] Hl IH]; intros Hne; [congruence|].
  simpl. destruct l as [|t' l'].
  - simpl. rewrite app_nil_r. exists pre; exact Ht.
  - destruct IH as [pre' IH]; [discriminate|].
    exists (t ++ pre'). rewrite IH, app_assoc. reflexivity.
Qed.

(** [splitCourts] of [src/main.ts] gives the whole text back when the
    text ends with "裁判所". *)
Lemma Main_splitCourts_well_formed (text : jsstring) :
  has_suffix text saibansho -> concat (Main.splitCourts text) = text.
Proof.
  intros [a Ha]. unfold Main.splitCourts.
  destruct (MainFacts.main_loop_exit text) as [[Hr Hcat _ Htok] Hno].
  set (st := Main.loop text (Main.mkState [] 0)) in *.
  destruct (len_list (Main.results st) <? 2) eqn:E.
  - simpl. apply app_nil_r.
  - apply Z.ltb_ge in E.
    destruct (concat_has_suffix saibansho (Main.results st) Htok) as [b Hb].
    { intros H0. rewrite H0 in E. unfold len_list in E. simpl in E. lia. }
    assert (Ht : (b ++ saibansho)
                 ++ skipn (Z.to_nat (Main.currentIndex st)) text
                 = a ++ saibansho).
    { rewrite <- Hb, Hcat, firstn_skipn. exact Ha. }
    pose proof (saibansho_tail _ _ _ Ht Hno) as Hnil.
    etransitivity;
      [|apply (firstn_skipn (Z.to_nat (Main.currentIndex st)) text)].
    rewrite Hnil, app_nil_r. exact Hcat.
Qed.

(** C1 as stated fails. In [src/main.ts] the text after the last
    "裁判所" of a string with two or more of them is in no token:
    "東京地方裁判所東京家庭裁判所立川支部" loses "立川支部". In
    [src/unnamed/part_000] a string without "裁判所" gives no token at
    all: "立川支部" gives the empty list. *)
Lemma splitCourts_loses_text :
  Main.splitCourts (tokyo_chisai ++ tokyo_kasai ++ tachikawa_shibu)
    = [tokyo_chisai; tokyo_kasai] /\
  concat (Main.splitCourts (tokyo_chisai ++ tokyo_kasai ++ tachikawa_shibu))
    <> tokyo_chisai ++ tokyo_kasai ++ tachikawa_shibu /\
  Part000.splitCourts tachikawa_shibu = [] /\
  concat (Part000.splitCourts tachikawa_shibu) <> tachikawa_shibu.
Proof.
  assert (H1 : Main.splitCourts (tokyo_chisai ++ tokyo_kasai ++ tachikawa_shibu)
               = [tokyo_chisai; tokyo_kasai]) by (vm_compute; reflexivity).
  assert (H2 : Part000.splitCourts tachikawa_shibu = [])
    by (vm_compute; reflexivity).
  rewrite H1, H2. repeat split; vm_compute; discriminate.
Qed.

(** C1, amended: the tokens of [splitCourts], concatenated in order, are
    the input up to some point, and what lies beyond has no "裁判所" in
    it. In [src/main.ts] they are the whole input when "裁判所" occurs at
    most once or the input ends with it; in [src/unnamed/part_000] they
    are the whole input when it contains "裁判所", and there is no token
    when it does not. *)
Theorem splitCourts_round_trip (text : jsstring) :
  (exists tail, text = concat (Main.splitCourts text) ++ tail /\
                ~ contains tail saibansho) /\
  ((occurrences saibansho text <= 1)%nat ->
   concat (Main.splitCourts text) = text) /\
  (has_suffix text saibansho -> concat (Main.splitCourts text) = text) /\
  (contains text saibansho -> concat (Part000.splitCourts text) = text) /\
  (~ contains text saibansho -> Part000.splitCourts text = []).
Proof.
  split; [apply Main_splitCourts_prefix|].
  split; [|split; [apply Main_splitCourts_well_formed|]].
  - intros Hocc. unfold Main.splitCourts.
    destruct (MainFacts.main_loop_exit text) as [[_ _ Hcnt _] _].
    replace (len_list _ <? 2) with true; [simpl; apply app_nil_r|].
    symmetry; apply Z.ltb_lt. unfold len_list. lia.
  - destruct (Part000_splitCourts_cases text) as [[H1 H2]|[H1 H2]];
      split; intros H; tauto.
Qed.

Lemma splitCourts_round_trip_witness :
  (occurrences saibansho (tokyo_chisai ++ tachikawa_shibu) <= 1)%nat /\
  concat (Main.splitCourts (tokyo_chisai ++ tachikawa_shibu))
    = tokyo_chisai ++ tachikawa_shibu /\
  has_suffix (tokyo_chisai ++ tokyo_kasai) saibansho /\
  concat (Main.splitCourts (tokyo_chisai ++ tokyo_kasai))
    = tokyo_chisai ++ tokyo_kasai /\
  contains (tokyo_chisai ++ tokyo_kasai ++ tachikawa_shibu) saibansho /\
  concat (Part000.splitCourts (tokyo_chisai ++ tokyo_kasai ++ tachikawa_shibu))
    = tokyo_chisai ++ tokyo_kasai ++ tachikawa_shibu /\
  ~ contains tachikawa_shibu saibansho /\
  Part000.splitCourts tachikawa_shibu = [].
Proof.
  assert (H1 : (occurrences saibansho (tokyo_chisai ++ tachikawa_shibu) <= 1)%nat)
    by (vm_compute; lia).
  assert (H2 : has_suffix (tokyo_chisai ++ tokyo_kasai) saibansho)
    by (apply endsWith_suffix; vm_compute; reflexivity).
  assert (H3 : contains (tokyo_chisai ++ tokyo_kasai ++ tachikawa_shibu)
                 saibansho)
    by (apply occurrences_pos; vm_compute; lia).
  assert (H4 : ~ contains tachikawa_shibu saibansho)
    by (apply occurrences_0; vm_compute; reflexivity).
  split; [exact H1|].
  split; [exact (proj1 (proj2 (splitCourts_round_trip _)) H1)|].
  split; [exact H2|].
  split; [exact (proj1 (proj2 (proj2 (splitCourts_round_trip _))) H2)|].
  split; [exact H3|].
  split; [exact (proj1 (proj2 (proj2 (proj2 (splitCourts_round_trip _)))) H3)|].
  split; [exact H4|].
  exact (proj2 (proj2 (proj2 (proj2 (splitCourts_round_trip _)))) H4).
Defined.

(** [splitCourts] of [src/unnamed/part_000] has no rule for fewer than
    two tokens: with one "裁判所" it returns the string whole, with none
    it returns nothing. *)
Lemma Part000_splitCourts_one (text : jsstring) :
  occurrences saibansho text = 1%nat -> Part000.splitCourts text = [text].
Proof.
  intros Hocc. unfold Part000.splitCourts.
  pose proof (Part000Facts.part000_inv_init text) as HI.
  assert (Hc : contains text saibansho).
  { apply occurrences_pos. lia. }
  assert (E : indexOf text saibansho 0 <> -1).
  { intros E. apply indexOf_0_None in E. contradiction. }
  destruct (Part000Facts.found_court _ _ HI E)
    as (head & pre & post & Ht & Hh & Hf & He & Hs).
  simpl in Hf, Hh, He. subst head. simpl in Ht, He.
  rewrite Part000Facts.part000_loop_unfold.
  unfold Part000.loop_cond, Part000.loop_body. simpl.
  replace (0 <? len text) with true.
  2:{ symmetry; apply Z.ltb_lt. rewrite Ht. unfold len.
      rewrite !length_app. simpl. lia. }
  apply Z.eqb_neq in E. rewrite E.
  destruct (indexOf text saibansho (indexOf text saibansho 0 + 3) =? -1)
    eqn:E2; simpl.
  - rewrite Part000Facts.substring_from_skipn by (unfold len; lia).
    reflexivity.
  - exfalso. apply Z.eqb_neq in E2.
    assert (Hr : 0 <= indexOf text saibansho 0 + 3 <= len text).
    { rewrite He, Ht. unfold len. rewrite !length_app. lia. }
    destruct (indexOf_found _ _ _ Hr E2) as (pre' & post' & H & _).
    rewrite He in H. rewrite Ht in H at 1.
    rewrite skipn_prefix in H by (unfold len; lia). subst post.
    assert (H1 := occurrences_match saibansho pre (pre' ++ saibansho ++ post')
                    ltac:(discriminate)).
    assert (H2 := occurrences_match saibansho pre' post' ltac:(discriminate)).
    rewrite <- app_assoc in Ht. rewrite <- Ht in H1. lia.
Qed.

Lemma Part000_splitCourts_none (text : jsstring) :
  occurrences saibansho text = 0%nat -> Part000.splitCourts text = [].
Proof.
  intros H. destruct (Part000_splitCourts_cases text) as [[H1 _]|[_ H2]];
    [exact H1|]. exfalso. exact (occurrences_0 _ _ H H2).
Qed.

(** C2 as stated fails for [src/unnamed/part_000]: "立川支部" has no
    "裁判所" in it, and [splitCourts] returns no token rather than the
    string unsplit. *)
Lemma splitCourts_none_not_unsplit :
  (occurrences saibansho tachikawa_shibu <= 1)%nat /\
  Part000.splitCourts tachikawa_shibu = [] /\
  Part000.splitCourts tachikawa_shibu <> [tachikawa_shibu].
Proof.
  assert (E : Part000.splitCourts tachikawa_shibu = [])
    by (vm_compute; reflexivity).
  rewrite E. split; [vm_compute; lia|]. split; [reflexivity|discriminate].
Qed.

(** C2, amended: [splitCourts] of [src/main.ts] returns a string in which
    "裁判所" occurs at most once unsplit, as the one element of the
    result. [splitCourts] of [src/unnamed/part_000] does so when "裁判所"
    occurs exactly once, and returns the empty list when it does not
    occur. *)
Theorem splitCourts_minimum_split (text : jsstring) :
  ((occurrences saibansho text <= 1)%nat -> Main.splitCourts text = [text]) /\
  (occurrences saibansho text = 1%nat -> Part000.splitCourts text = [text]) /\
  (occurrences saibansho text = 0%nat -> Part000.splitCourts text = []).
Proof.
  split; [|split; [apply Part000_splitCourts_one
                  | apply Part000_splitCourts_none]].
  intros Hocc. unfold Main.splitCourts.
  destruct (MainFacts.main_loop_exit text) as [[_ _ Hcnt _] _].
  replace (len_list _ <? 2) with true; [reflexivity|].
  symmetry; apply Z.ltb_lt. unfold len_list. lia.
Qed.

Lemma splitCourts_minimum_split_witness :
  (occurrences saibansho tokyo_chisai <= 1)%nat /\
  Main.splitCourts tokyo_chisai = [tokyo_chisai] /\
  occurrences saibansho (tokyo_chisai ++ tachikawa_shibu) = 1%nat /\
  Part000.splitCourts (tokyo_chisai ++ tachikawa_shibu)
    = [tokyo_chisai ++ tachikawa_shibu] /\
  occurrences saibansho tachikawa_shibu = 0%nat /\
  Part000.splitCourts tachikawa_shibu = [].
Proof.
  assert (H1 : (occurrences saibansho tokyo_chisai <= 1)%nat)
    by (vm_compute; lia).
  assert (H2 : occurrences saibansho (tokyo_chisai ++ tachikawa_shibu) = 1%nat)
    by (vm_compute; reflexivity).
  assert (H3 : occurrences saibansho tachikawa_shibu = 0%nat)
    by (vm_compute; reflexivity).
  split; [exact H1|].
  split; [exact (proj1 (splitCourts_minimum_split _) H1)|].
  split; [exact H2|].
  split; [exact (proj1 (proj2 (splitCourts_minimum_split _)) H2)|].
  split; [exact H3|].
  exact (proj2 (proj2 (splitCourts_minimum_split _)) H3).
Defined.

(** C10: both [splitCourts] loops end on every input. A pass that goes
    round again moves the cursor forward by at least the three code units
    of "裁判所" and so leaves fewer to scan; run with one pass of fuel for
    every three code units of the text and one more, the loop is left,
    in the state from which [splitCourts] returns. *)
Theorem splitCourts_terminates (text : jsstring) :
  (forall st st',
      Main.loop_cond text st = true ->
      Main.loop_body text st = Continue st' ->
      Main.currentIndex st + 3 <= Main.currentIndex st' /\
      (Main.remaining text st' < Main.remaining text st)%nat) /\
  (forall st st',
      Part000.loop_cond text st = true ->
      Part000.loop_body text st = Continue st' ->
      Part000.startPos st + 3 <= Part000.startPos st' /\
      (Part000.remaining text st' < Part000.remaining text st)%nat) /\
  (exists st,
      while_fuel (Main.loop_cond text) (Main.loop_body text)
        (S (length text / 3)) (Main.mkState [] 0) = Some st /\
      Main.splitCourts text
      = if len_list (Main.results st) <? 2 then [text] else Main.results st) /\
  (exists st,
      while_fuel (Part000.loop_cond text) (Part000.loop_body text)
        (S (length text / 3)) (Part000.mkState [] 0) = Some st /\
      Part000.splitCourts text = Part000.found st).
Proof.
  split; [intros; apply Main.currentIndex_advances; assumption|].
  split; [intros; apply Part000.startPos_advances; assumption|].
  split.
  - exists (Main.loop text (Main.mkState [] 0)). split; [|reflexivity].
    apply MainFacts.main_while_fuel_loop; [apply MainFacts.main_inv_init|].
    unfold Main.remaining, len; simpl.
    rewrite Z.sub_0_r, Nat2Z.id. lia.
  - exists (Part000.loop text (Part000.mkState [] 0)). split; [|reflexivity].
    apply Part000Facts.part000_while_fuel_loop; [apply Part000Facts.part000_inv_init|].
    unfold Part000.remaining, len; simpl.
    rewrite Z.sub_0_r, Nat2Z.id. lia.
Qed.

Lemma splitCourts_terminates_witness :
  (Main.currentIndex (Main.mkState [] 0) + 3
   <= Main.currentIndex (Main.mkState [tokyo_chisai] 7)) /\
  (Part000.startPos (Part000.mkState [] 0) + 3
   <= Part000.startPos (Part000.mkState [tokyo_chisai] 7)) /\
  (exists st,
      while_fuel (Main.loop_cond (tokyo_chisai ++ tokyo_kasai))
        (Main.loop_body (tokyo_chisai ++ tokyo_kasai)) 5 (Main.mkState [] 0)
      = Some st).
Proof.
  destruct (splitCourts_terminates (tokyo_chisai ++ tokyo_kasai))
    as (HM & HP & (st & Hst & _) & _).
  split; [|split].
  - apply (HM (Main.mkState [] 0) (Main.mkState [tokyo_chisai] 7));
      vm_compute; reflexivity.
  - apply (HP (Part000.mkState [] 0) (Part000.mkState [tokyo_chisai] 7));
      vm_compute; reflexivity.
  - exists st. exact Hst.
Defined.

(** ** The candidate filter *)

Lemma filter_filter {A : Type} (f g : A -> bool) (l : list A) :
  filter g (filter f l) = filter (fun x => f x && g x) l.
Proof.
  induction l as [|x l IH]; simpl; [reflexivity|].
  destruct (f x); simpl; [destruct (g x)|]; rewrite IH; reflexivity.
Qed.

Lemma not_excluded_spec (s : jsstring) :
  not_excluded s = true <-> ~ contains s naino /\ ~ contains s slash.
Proof.
  unfold not_excluded.
  rewrite andb_true_iff, !Z.eqb_eq, !indexOf_0_None. reflexivity.
Qed.

(** C6: a candidate passes the two filters of [scrapePage] exactly when it
    ends with "裁判所" or "支部" (in [src/unnamed/part_000] also "出張所"),
    does not contain "内の" and does not contain "/". The two filters keep
    the accepted candidates, in order, and nothing else reaches the later
    stages; a rejected candidate raises nothing, [extract] being a total
    function of the document. *)
Theorem candidate_filter_accepts (s : jsstring) :
  (Main.accepted s = true <->
     (has_suffix s saibansho \/ has_suffix s shibu) /\
     ~ contains s naino /\ ~ contains s slash) /\
  (Part001.accepted s = true <->
     (has_suffix s saibansho \/ has_suffix s shibu) /\
     ~ contains s naino /\ ~ contains s slash) /\
  (Part000.accepted s = true <->
     (has_suffix s saibansho \/ has_suffix s shibu \/ has_suffix s shutchojo) /\
     ~ contains s naino /\ ~ contains s slash) /\
  (forall document,
     Main.extract document
     = aggregate (map cleanup (flat_map Main.splitCourts
         (flat_map Main.normalize
            (filter Main.accepted (map Main.candidate document)))))) /\
  (forall document,
     Part001.extract document
     = aggregate (flat_map Main.normalize
                    (filter Part001.accepted (map trim document)))) /\
  (forall u document,
     Part000.extract u document
     = aggregate (filter (fun t => 0 <? len t)
         (map cleanup (flat_map Part000.splitCourts
            (flat_map Part000.normalize
               (filter Part000.accepted (Part000.candidates u document))))))).
Proof.
  unfold Main.accepted, Part001.accepted, Part000.accepted.
  rewrite !andb_true_iff, !orb_true_iff, !endsWith_suffix, !not_excluded_spec.
  repeat split; try tauto.
  - intros document. unfold Main.extract. rewrite filter_filter. reflexivity.
  - intros document. unfold Part001.extract. rewrite filter_filter.
    reflexivity.
  - intros u document. unfold Part000.extract. rewrite filter_filter.
    reflexivity.
Qed.

(** ** The final cleanup *)

Lemma trimStart_id (s : jsstring) :
  Forall (fun c => is_space c = false) s -> trimStart s = s.
Proof. intros [|c s' Hc _]; simpl; [|rewrite Hc]; reflexivity. Qed.

Lemma trim_id (s : jsstring) :
  Forall (fun c => is_space c = false) s -> trim s = s.
Proof.
  intros H. unfold trim, trimEnd. rewrite (trimStart_id s H).
  rewrite trimStart_id; [apply rev_involutive|].
  apply Forall_rev; exact H.
Qed.

Lemma remove_class_clean (cls : code_unit -> bool) (s : jsstring) :
  Forall (fun c => cls c = false) (remove_class cls s).
Proof.
  unfold remove_class. apply Forall_forall. intros c Hc.
  apply filter_In in Hc as [_ Hc]. apply negb_true_iff; exact Hc.
Qed.

Lemma remove_class_id (cls : code_unit -> bool) (s : jsstring) :
  Forall (fun c => cls c = false) s -> remove_class cls s = s.
Proof.
  unfold remove_class. induction 1 as [|c s Hc _ IH]; simpl;
    [|rewrite Hc; simpl; rewrite IH]; reflexivity.
Qed.

Lemma clean_no_space (s : jsstring) :
  clean s -> Forall (fun c => is_space c = false) s.
Proof.
  apply Forall_impl. intros c. unfold is_decoration.
  intros H; apply orb_false_iff in H; tauto.
Qed.

Lemma cleanup_clean (s : jsstring) : clean (cleanup s).
Proof. apply remove_class_clean. Qed.

(** C9: the final cleanup leaves a clean string as it is, and so cleaning
    twice is cleaning once. *)
Theorem cleanup_idempotent (s : jsstring) :
  (clean s -> cleanup s = s) /\ cleanup (cleanup s) = cleanup s.
Proof.
  assert (H : forall t, clean t -> cleanup t = t).
  { intros t Ht. unfold cleanup.
    rewrite (trim_id t (clean_no_space t Ht)). apply remove_class_id, Ht. }
  split; [apply H | apply H, cleanup_clean].
Qed.

Lemma cleanup_idempotent_witness :
  clean tokyo_chisai /\ cleanup tokyo_chisai = tokyo_chisai.
Proof.
  assert (H : clean tokyo_chisai) by (repeat constructor).
  split; [exact H | exact (proj1 (cleanup_idempotent tokyo_chisai) H)].
Defined.

(** ** [Set] and [sort] *)

Section SetFacts.

Lemma set_has_In (s : list jsstring) (x : jsstring) :
  set_has s x = true <-> In x s.
Proof.
  unfold set_has. rewrite existsb_exists. split.
  - intros (y & Hy & E). apply string_eqb_eq in E. subst; exact Hy.
  - intros H. exists x. split; [exact H | apply string_eqb_eq; reflexivity].
Qed.

Lemma set_add_spec (s : list jsstring) (x : jsstring) :
  NoDup s ->
  NoDup (set_add s x) /\ forall y, In y (set_add s x) <-> In y s \/ y = x.
Proof.
  intros Hs. unfold set_add. destruct (set_has s x) eqn:E.
  - apply set_has_In in E. split; [exact Hs|].
    intros y; split; [auto | intros [H| ->]; assumption].
  - assert (Hx : ~ In x s).
    { intros H; apply set_has_In in H; congruence. }
    split.
    + apply NoDup_app; [exact Hs | repeat constructor; auto |].
      intros a Ha [<-|[]]. exact (Hx Ha).
    + intros y. rewrite in_app_iff. simpl. intuition.
Qed.

Lemma fold_set_add_spec (l acc : list jsstring) :
  NoDup acc ->
  NoDup (fold_left set_add l acc) /\
  forall y, In y (fold_left set_add l acc) <-> In y acc \/ In y l.
Proof.
  revert acc; induction l as [|x l IH]; intros acc Hacc; simpl.
  - split; [exact Hacc | intros y; tauto].
  - destruct (set_add_spec acc x Hacc) as [Hnd Hin].
    destruct (IH _ Hnd) as [Hnd' Hin']. split; [exact Hnd'|].
    intros y. rewrite Hin', Hin. intuition.
Qed.

Lemma new_Set_NoDup (l : list jsstring) : NoDup (new_Set l).
Proof. apply fold_set_add_spec; constructor. Qed.

Lemma new_Set_In (l : list jsstring) (x : jsstring) :
  In x (new_Set l) <-> In x l.
Proof.
  unfold new_Set.
  destruct (fold_set_add_spec l [] (NoDup_nil _)) as [_ H].
  rewrite H. simpl. tauto.
Qed.

(** A list without repeats goes through a [Set] unchanged. *)
Lemma fold_set_add_fresh (l acc : list jsstring) :
  NoDup (acc ++ l) -> fold_left set_add l acc = acc ++ l.
Proof.
  revert acc; induction l as [|x l IH]; intros acc Hnd; simpl.
  - symmetry; apply app_nil_r.
  - assert (Hx : set_has acc x = false).
    { destruct (set_has acc x) eqn:E; [|reflexivity].
      apply set_has_In in E. apply NoDup_remove_2 in Hnd.
      exfalso; apply Hnd. apply in_or_app; auto. }
    unfold set_add at 2. rewrite Hx.
    rewrite IH; rewrite <- app_assoc; [reflexivity | exact Hnd].
Qed.

Lemma new_Set_fresh (l : list jsstring) : NoDup l -> new_Set l = l.
Proof. intros H. exact (fold_set_add_fresh l [] H). Qed.

End SetFacts.

Section SortFacts.

Context {A : Type} (cmp : A -> A -> Z).

Lemma insert_sorted_perm (x : A) (l : list A) :
  Permutation (insert_sorted cmp x l) (x :: l).
Proof.
  induction l as [|y l IH]; simpl; [reflexivity|].
  destruct (0 <? cmp x y); [|reflexivity].
  rewrite IH. apply perm_swap.
Qed.

Lemma sort_by_perm (l : list A) : Permutation (sort_by cmp l) l.
Proof.
  induction l as [|x l IH]; simpl; [reflexivity|].
  rewrite insert_sorted_perm. constructor; exact IH.
Qed.

End SortFacts.

Section StringOrder.

Lemma string_ltb_irrefl (a : jsstring) : string_ltb a a = false.
Proof.
  induction a as [|x a IH]; simpl; [reflexivity|].
  rewrite N.ltb_irrefl. exact IH.
Qed.

Lemma string_ltb_trans (a b c : jsstring) :
  string_ltb a b = true -> string_ltb b c = true -> string_ltb a c = true.
Proof.
  revert b c; induction a as [|x a IH]; intros [|y b] [|z c]; simpl;
    try congruence.
  destruct (x <? y)%N eqn:Exy, (y <? x)%N eqn:Eyx,
           (y <? z)%N eqn:Eyz, (z <? y)%N eqn:Ezy;
    try discriminate; intros H1 H2;
    repeat match goal with
           | E : (_ <? _)%N = true |- _ => apply N.ltb_lt in E
           | E : (_ <? _)%N = false |- _ => apply N.ltb_ge in E
           end; try lia.
  all: try (replace (x <? z)%N with true by (symmetry; apply N.ltb_lt; lia);
            reflexivity).
  assert (x = y) by lia. assert (y = z) by lia. subst y z.
  rewrite N.ltb_irrefl. eauto.
Qed.

Lemma string_ltb_total (a b : jsstring) :
  string_ltb a b = false -> string_ltb b a = false -> a = b.
Proof.
  revert b; induction a as [|x a IH]; intros [|y b]; simpl;
    try congruence.
  destruct (x <? y)%N eqn:Exy, (y <? x)%N eqn:Eyx; try discriminate.
  intros H1 H2. apply N.ltb_ge in Exy, Eyx.
  assert (x = y) by lia. subst y. f_equal. auto.
Qed.

Lemma string_ltb_asym (a b : jsstring) :
  string_ltb a b = true -> string_ltb b a = false.
Proof.
  intros H. destruct (string_ltb b a) eqn:E; [|reflexivity].
  pose proof (string_ltb_trans _ _ _ H E) as H1.
  rewrite string_ltb_irrefl in H1. discriminate.
Qed.

Lemma le_units_trans (a b c : jsstring) :
  le_units a b -> le_units b c -> le_units a c.
Proof.
  unfold le_units. intros Hab Hbc.
  destruct (string_ltb c a) eqn:Hca; [exfalso|reflexivity].
  destruct (string_ltb a b) eqn:E.
  - pose proof (string_ltb_trans _ _ _ Hca E). congruence.
  - pose proof (string_ltb_total _ _ E Hab). subst b. congruence.
Qed.

End StringOrder.

(** ** The aggregator *)

Section AggregateFacts.

Lemma codepoints_no_surrogate (s : jsstring) :
  no_surrogate s -> codepoints s = s.
Proof.
  induction 1 as [|h t [Hh _] _ IH]; [reflexivity|].
  cbn [codepoints]. destruct t as [|l s']; [reflexivity|].
  rewrite Hh. cbn [andb]. rewrite IH. reflexivity.
Qed.

Lemma insert_default_sorted (x : jsstring) (l : list jsstring) :
  StronglySorted le_units l ->
  StronglySorted le_units (insert_sorted default_compare x l).
Proof.
  induction 1 as [|y l Hl IH Hy]; simpl.
  - repeat constructor.
  - unfold default_compare at 1.
    destruct (string_ltb x y) eqn:Exy; simpl.
    + constructor; [constructor; assumption|].
      pose proof (string_ltb_asym _ _ Exy) as Hxy.
      constructor; [exact Hxy|].
      eapply Forall_impl; [|exact Hy]. intros z Hz.
      eapply le_units_trans; eassumption.
    + destruct (string_ltb y x) eqn:Eyx; simpl.
      * constructor; [exact IH|].
        eapply Permutation_Forall;
          [symmetry; apply insert_sorted_perm|].
        constructor; [exact Exy | exact Hy].
      * constructor; [constructor; assumption|].
        constructor; [exact Eyx|].
        eapply Forall_impl; [|exact Hy]. intros z Hz.
        eapply le_units_trans; [|exact Hz]. exact Eyx.
Qed.

Lemma sort_sorted (l : list jsstring) : StronglySorted le_units (sort l).
Proof.
  induction l as [|x l IH]; simpl; [constructor|].
  apply insert_default_sorted; exact IH.
Qed.

Lemma by_length_sorted_len (le : jsstring -> jsstring -> Prop)
    (y : jsstring) (l : list jsstring) :
  Forall (by_length_then le y) l -> Forall (fun z => len y <= len z) l.
Proof. apply Forall_impl. intros z [H|[H _]]; lia. Qed.

Lemma insert_length_sorted (x : jsstring) (l : list jsstring) :
  Forall (le_units x) l ->
  StronglySorted (by_length_then le_units) l ->
  StronglySorted (by_length_then le_units)
    (insert_sorted (fun a b => len a - len b) x l).
Proof.
  intros Hx Hl. induction Hl as [|y l Hl IH Hy]; simpl.
  - repeat constructor.
  - inversion Hx as [|? ? Hxy Hxl]; subst.
    destruct (0 <? len x - len y) eqn:E.
    + apply Z.ltb_lt in E. constructor; [apply IH; exact Hxl|].
      eapply Permutation_Forall; [symmetry; apply insert_sorted_perm|].
      constructor; [left; lia | exact Hy].
    + apply Z.ltb_ge in E. constructor; [constructor; assumption|].
      pose proof (by_length_sorted_len _ _ _ Hy) as Hlen.
      assert (Hall : Forall (fun z => len x <= len z /\ le_units x z) (y :: l)).
      { constructor; [split; [lia | exact Hxy]|].
        rewrite Forall_forall in *. intros z Hz. split; [|auto].
        specialize (Hlen z Hz). lia. }
      eapply Forall_impl; [|exact Hall]. intros z [H1 H2].
      unfold by_length_then.
      destruct (Z.eq_dec (len x) (len z)); [right; auto | left; lia].
Qed.

Lemma sort_by_length_sorted (l : list jsstring) :
  StronglySorted le_units l ->
  StronglySorted (by_length_then le_units)
    (sort_by (fun a b => len a - len b) l).
Proof.
  induction 1 as [|x l Hl IH Hx]; simpl; [constructor|].
  apply insert_length_sorted; [|exact IH].
  eapply Permutation_Forall; [symmetry; apply sort_by_perm | exact Hx].
Qed.

Lemma aggregate_perm (l : list jsstring) :
  Permutation (aggregate l) (new_Set l).
Proof.
  unfold aggregate, sort. rewrite !sort_by_perm. reflexivity.
Qed.

Lemma aggregate_In (l : list jsstring) (x : jsstring) :
  In x (aggregate l) <-> In x l.
Proof.
  rewrite <- (new_Set_In l x). split; apply Permutation_in;
    [|symmetry]; apply aggregate_perm.
Qed.

Lemma aggregate_NoDup (l : list jsstring) : NoDup (aggregate l).
Proof.
  eapply Permutation_NoDup; [symmetry; apply aggregate_perm|].
  apply new_Set_NoDup.
Qed.

Lemma aggregate_sorted (l : list jsstring) :
  StronglySorted (by_length_then le_units) (aggregate l).
Proof. apply sort_by_length_sorted, sort_sorted. Qed.

End AggregateFacts.

Lemma StronglySorted_impl_In {A : Type} (R R' : A -> A -> Prop) (l : list A) :
  (forall x y, In x l -> In y l -> R x y -> R' x y) ->
  StronglySorted R l -> StronglySorted R' l.
Proof.
  intros HR H. induction H as [|x l Hl IH Hx]; constructor.
  - apply IH. intros a b Ha Hb. apply HR; right; assumption.
  - rewrite Forall_forall in *. intros y Hy.
    apply HR; [left; reflexivity | right; exact Hy | auto].
Qed.

(** C5 as stated fails: [sort()] compares UTF-16 code units, so "𠮷"
    (first unit D842) is put before "﨑﨑" (first unit FA11) although its
    code point U+20BB7 is the larger one; the output is not in code-point
    order among names of equal length. *)
Lemma aggregate_not_codepoint_order :
  ~ (NoDup (aggregate [saki_saki; yoshi]) /\
     (forall x, In x (aggregate [saki_saki; yoshi])
                <-> In x [saki_saki; yoshi]) /\
     StronglySorted (by_length_then le_codepoints)
       (aggregate [saki_saki; yoshi])).
Proof.
  intros (_ & _ & H).
  assert (E : aggregate [saki_saki; yoshi] = [yoshi; saki_saki])
    by (vm_compute; reflexivity).
  rewrite E in H. inversion H as [|? ? _ Hall]; subst.
  inversion Hall as [|? ? Hxy _]; subst.
  destruct Hxy as [Hlt|[_ Hle]].
  - vm_compute in Hlt. discriminate.
  - vm_compute in Hle. discriminate.
Qed.

(** C5, amended: the aggregation step yields each distinct name exactly
    once, ordered by ascending length, names of equal length in
    lexicographic order of their UTF-16 code units; this is code-point
    order when no name contains a surrogate. *)
Theorem aggregate_dedup_ordered (l : list jsstring) :
  NoDup (aggregate l) /\
  (forall x, In x (aggregate l) <-> In x l) /\
  StronglySorted (by_length_then le_units) (aggregate l) /\
  (Forall no_surrogate l ->
   StronglySorted (by_length_then le_codepoints) (aggregate l)).
Proof.
  split; [apply aggregate_NoDup|].
  split; [apply aggregate_In|].
  split; [apply aggregate_sorted|].
  intros Hbmp.
  apply (StronglySorted_impl_In (by_length_then le_units));
    [|apply aggregate_sorted].
  intros x y Hx Hy [H|[H1 H2]]; [left; exact H|right].
  split; [exact H1|].
  rewrite Forall_forall in Hbmp.
  apply (proj1 (aggregate_In _ _)) in Hx.
  apply (proj1 (aggregate_In _ _)) in Hy.
  unfold le_codepoints.
  rewrite (codepoints_no_surrogate x), (codepoints_no_surrogate y) by auto.
  exact H2.
Qed.

Lemma aggregate_dedup_ordered_witness :
  Forall no_surrogate [otsu; ko; ko; hei_shibu] /\
  StronglySorted (by_length_then le_codepoints)
    (aggregate [otsu; ko; ko; hei_shibu]).
Proof.
  assert (H : Forall no_surrogate [otsu; ko; ko; hei_shibu])
    by (repeat constructor).
  split; [exact H|].
  exact (proj2 (proj2 (proj2 (aggregate_dedup_ordered _))) H).
Defined.

Example aggregate_sample :
  aggregate [otsu; ko; ko; hei_shibu] = [otsu; ko; hei_shibu].
Proof. vm_compute; reflexivity. Qed.

(** ** The per-URL result *)

Lemma trim_nil : trim [] = [].
Proof. reflexivity. Qed.

Lemma trimmed_lines_nonempty (s x : jsstring) :
  In x (trimmed_lines s) -> x <> [].
Proof.
  unfold trimmed_lines. intros H. apply filter_In in H as [_ H].
  intros ->. rewrite trim_nil in H. discriminate.
Qed.

(** With its last filter, [scrapePage] of [src/unnamed/part_000] never
    returns the empty string. *)
Lemma Part000_extract_nonempty (u : jsstring) (document : Part000.page)
    (x : jsstring) :
  In x (Part000.extract u document) -> x <> [].
Proof.
  unfold Part000.extract. intros H.
  apply (proj1 (aggregate_In _ _)) in H. apply filter_In in H as [_ H].
  intros ->. discriminate.
Qed.

(** [src/unnamed/part_001] has no cleanup; its lines are not empty. *)
Lemma Part001_extract_nonempty (document : list jsstring) (x : jsstring) :
  In x (Part001.extract document) -> x <> [].
Proof.
  unfold Part001.extract. intros H.
  apply (proj1 (aggregate_In _ _)) in H.
  apply in_flat_map in H as (c & _ & H). unfold Main.normalize in H.
  eapply trimmed_lines_nonempty; exact H.
Qed.

(** C4, at the input where [src/main.ts] departs from it: the text
    "，・東京地方裁判所" ends with "裁判所" and passes the filters, "・"
    cuts it into the lines "，" and "東京地方裁判所", and the cleanup
    turns "，" into the empty string, which [scrapePage] returns, having
    no filter after the cleanup. *)
Theorem Main_scrapePage_returns_empty_string (u : jsstring) :
  Main.scrapePage u (Parsed [decorated_anchor]) = inr [[]; tokyo_chisai] /\
  In [] (Main.extract [decorated_anchor]).
Proof.
  assert (E : Main.extract [decorated_anchor] = [[]; tokyo_chisai])
    by (vm_compute; reflexivity).
  simpl. rewrite E. split; [reflexivity | left; reflexivity].
Qed.

(** ** The order of a [Set] *)

Section FirstAppearance.

Lemma first_position_in (x : jsstring) (pre rest : list jsstring) :
  In x pre -> (first_position x (pre ++ rest) < length pre)%nat.
Proof.
  induction pre as [|y pre IH]; simpl; [tauto|].
  intros H. destruct (string_eqb y x) eqn:E; [lia|].
  destruct H as [->|H].
  - assert (Hx : string_eqb x x = true) by (apply string_eqb_eq; reflexivity).
    congruence.
  - specialize (IH H). lia.
Qed.

Lemma first_position_fresh (x : jsstring) (pre rest : list jsstring) :
  ~ In x pre -> first_position x (pre ++ x :: rest) = length pre.
Proof.
  induction pre as [|y pre IH]; simpl; intros H.
  - assert (Hx : string_eqb x x = true) by (apply string_eqb_eq; reflexivity).
    rewrite Hx. reflexivity.
  - destruct (string_eqb y x) eqn:E.
    + apply string_eqb_eq in E. exfalso. apply H. left; exact E.
    + f_equal. apply IH. intros Hin. apply H. right; exact Hin.
Qed.

Lemma StronglySorted_snoc {A : Type} (R : A -> A -> Prop) (l : list A)
    (y : A) :
  StronglySorted R l -> Forall (fun a => R a y) l ->
  StronglySorted R (l ++ [y]).
Proof.
  induction 1 as [|a l Hl IH Ha]; intros Hy; simpl.
  - repeat constructor.
  - inversion Hy as [|? ? Hay Hly]; subst. constructor.
    + apply IH; exact Hly.
    + apply Forall_app. split; [exact Ha | repeat constructor; exact Hay].
Qed.

(** The loop of [new Set(l)]: the set built from the part [pre] of the
    list already read holds the elements of [pre] in the order of their
    first appearance, and stays so while the rest is added. *)
Lemma fold_set_add_order (whole l pre acc : list jsstring) :
  whole = pre ++ l ->
  (forall a, In a acc <-> In a pre) ->
  by_first_appearance whole acc ->
  by_first_appearance whole (fold_left set_add l acc).
Proof.
  revert pre acc; induction l as [|y l IH]; intros pre acc Hw Hin Hs; simpl.
  - exact Hs.
  - apply (IH (pre ++ [y])).
    + rewrite <- app_assoc. exact Hw.
    + intros a. unfold set_add. destruct (set_has acc y) eqn:E.
      * apply set_has_In in E. rewrite in_app_iff, Hin. simpl.
        split; [auto | intros [H|[<-|[]]]; [exact H | apply Hin; exact E]].
      * rewrite !in_app_iff, Hin. reflexivity.
    + unfold set_add. destruct (set_has acc y) eqn:E; [exact Hs|].
      assert (Hy : ~ In y pre).
      { intros H. apply Hin in H. apply set_has_In in H. congruence. }
      apply StronglySorted_snoc; [exact Hs|].
      rewrite Forall_forall. intros a Ha. apply Hin in Ha. subst whole.
      rewrite (first_position_fresh y pre l Hy).
      apply first_position_in; exact Ha.
Qed.

Lemma new_Set_order (l : list jsstring) : by_first_appearance l (new_Set l).
Proof.
  apply (fold_set_add_order l l [] []); [reflexivity | tauto | constructor].
Qed.

(** The elements and their order leave one list only. *)
Lemma by_first_appearance_unique (l r r' : list jsstring) :
  (forall x, In x r <-> In x r') ->
  by_first_appearance l r -> by_first_appearance l r' -> r = r'.
Proof.
  unfold by_first_appearance. intros Hin Hr; revert r' Hin.
  induction Hr as [|a r Hr IH Ha]; intros r' Hin Hr'.
  - destruct r' as [|b r']; [reflexivity|].
    destruct (proj2 (Hin b) (or_introl eq_refl)).
  - destruct Hr' as [|b r' Hr' Hb].
    { destruct (proj1 (Hin a) (or_introl eq_refl)). }
    rewrite Forall_forall in Ha, Hb.
    assert (E : a = b).
    { destruct (proj1 (Hin a) (or_introl eq_refl)) as [E|Ha']; [auto|].
      destruct (proj2 (Hin b) (or_introl eq_refl)) as [E|Hb']; [auto|].
      specialize (Ha _ Hb'). specialize (Hb _ Ha'). lia. }
    subst b. f_equal. apply IH; [|exact Hr'].
    intros x. split; intros Hx.
    + destruct (proj1 (Hin x) (or_intror Hx)) as [<-|H]; [|exact H].
      specialize (Ha _ Hx). lia.
    + destruct (proj2 (Hin x) (or_intror Hx)) as [<-|H]; [|exact H].
      specialize (Hb _ Hx). lia.
Qed.

End FirstAppearance.

(** ** The combined result *)

(** C3 as stated fails: the combined list of [src/unnamed/part_000] is
    the per-URL lists one after the other, less the repeats; it is not
    put under the sort rule, and here the longer name of the first URL
    stays before the shorter name of the second. *)
Lemma combined_not_sorted :
  let rs := pushed (Part000.scrapePages two_sites
                      [url_tokyo; url_saikosai] 1500) in
  Part000.allData rs = [tokyo_chisai; saikosai] /\
  aggregate (flat_map data rs) = [saikosai; tokyo_chisai] /\
  Part000.allData rs <> aggregate (flat_map data rs).
Proof.
  assert (E1 : Part000.allData
                 (pushed (Part000.scrapePages two_sites
                            [url_tokyo; url_saikosai] 1500))
               = [tokyo_chisai; saikosai]) by (vm_compute; reflexivity).
  assert (E2 : aggregate (flat_map data
                 (pushed (Part000.scrapePages two_sites
                            [url_tokyo; url_saikosai] 1500)))
               = [saikosai; tokyo_chisai]) by (vm_compute; reflexivity).
  cbv zeta. rewrite E1, E2. repeat split.
  intros H. vm_compute in H. discriminate.
Qed.

(** C3, amended: the combined output holds the names of all per-URL
    lists and no other. In [src/unnamed/part_000] it holds each of them
    exactly once; it has the elements of the aggregated union but keeps
    them in the order of their first appearance, URL after URL, whether
    or not a name is shared or repeated: a name stands before another
    exactly as its first appearance in the concatenation of the per-URL
    lists comes before the first appearance of the other. So it equals
    that concatenation when no name is shared or repeated. *)
Theorem combined_dedup_union (rs : list (ScrapeResult jsstring)) :
  (forall x, In x (Main.allData rs) <-> exists r, In r rs /\ In x (data r)) /\
  (forall x, In x (Part000.allData rs) <-> exists r, In r rs /\ In x (data r)) /\
  NoDup (Part000.allData rs) /\
  Permutation (Part000.allData rs) (aggregate (flat_map data rs)) /\
  (NoDup (flat_map data rs) -> Part000.allData rs = flat_map data rs) /\
  by_first_appearance (flat_map data rs) (Part000.allData rs).
Proof.
  unfold Main.allData, Part000.allData.
  split; [intros x; apply in_flat_map|].
  split; [|split; [apply new_Set_NoDup|split; [|split]]].
  - intros x. rewrite new_Set_In, in_flat_map. reflexivity.
  - symmetry. apply aggregate_perm.
  - apply new_Set_fresh.
  - apply new_Set_order.
Qed.

Lemma combined_dedup_union_witness :
  NoDup (flat_map data [mkResult url_tokyo [tokyo_chisai];
                        mkResult url_saikosai [saikosai]]) /\
  Part000.allData [mkResult url_tokyo [tokyo_chisai];
                   mkResult url_saikosai [saikosai]]
  = [tokyo_chisai; saikosai].
Proof.
  assert (H : NoDup (flat_map data [mkResult url_tokyo [tokyo_chisai];
                                    mkResult url_saikosai [saikosai]])).
  { simpl. repeat constructor; simpl; intuition discriminate. }
  split; [exact H|].
  exact (proj1 (proj2 (proj2 (proj2 (proj2 (combined_dedup_union _))))) H).
Defined.

(** A name that two URLs share stays where it first appeared: the
    per-URL lists "東京地方裁判所", "最高裁判所" and "最高裁判所",
    "東京家庭裁判所" combine to the three names in that order, and no
    other list of these names is in the order of first appearance. *)
Lemma combined_shared_name_order :
  let rs := [mkResult url_tokyo [tokyo_chisai; saikosai];
             mkResult url_saikosai [saikosai; tokyo_kasai]] in
  Part000.allData rs = [tokyo_chisai; saikosai; tokyo_kasai] /\
  forall r, (forall x, In x r <-> In x (flat_map data rs)) ->
            by_first_appearance (flat_map data rs) r ->
            r = [tokyo_chisai; saikosai; tokyo_kasai].
Proof.
  cbv zeta. split; [reflexivity|]. intros r Hin Hr.
  apply (by_first_appearance_unique _ _ _ (fun x => iff_trans (Hin x)
           (iff_sym (new_Set_In _ x))) Hr (new_Set_order _)).
Qed.

(** [main] of [src/main.ts] has no [Set]: a name that two URLs share
    is twice in its combined list. *)
Lemma Main_allData_keeps_repeats :
  Main.allData [mkResult url_tokyo [tokyo_chisai];
                mkResult url_saikosai [tokyo_chisai; saikosai]]
  = [tokyo_chisai; tokyo_chisai; saikosai].
Proof. reflexivity. Qed.

(** ** The crawl loop *)

(** Take the passes of a crawl loop apart. *)
Ltac crawl_pass pass :=
  unfold pass, emit, push, fetched, errors_logged;
  repeat match goal with
         | |- context [match ?x with inl _ => _ | inr _ => _ end] => destruct x
         | |- context [if ?b then _ else _] => destruct b
         end;
  simpl; rewrite ?flat_map_app, ?filter_app; simpl;
  rewrite <- ?app_assoc, ?app_nil_r; reflexivity.

Module MainCrawl.
Import Main.

Section Facts.

Variable web : nat -> jsstring -> response (list anchor).


Lemma main_for_loop_fetched (n d : Z) (rest : list jsstring) (i : nat)
    (r : run jsstring) :
  fetched (trace (for_loop web n d i rest r)) = fetched (trace r) ++ rest.
Proof.
  revert i r; induction rest as [|u rest IH]; intros i r; simpl.
  - symmetry; apply app_nil_r.
  - rewrite IH.
    replace (fetched (trace (pass web n d i u r)))
      with (fetched (trace r) ++ [u]) by crawl_pass pass.
    rewrite <- app_assoc; reflexivity.
Qed.


Lemma main_for_loop_quiet (n d : Z) (rest : list jsstring) (i : nat)
    (r : run jsstring) :
  filter on_combined (trace (for_loop web n d i rest r))
  = filter on_combined (trace r).
Proof.
  revert i r; induction rest as [|u rest IH]; intros i r; simpl.
  - reflexivity.
  - rewrite IH. crawl_pass pass.
Qed.

End Facts.

End MainCrawl.

Module Part000Crawl.
Import Part000.

Section Facts.

Variable web : nat -> jsstring -> response page.




Lemma part000_for_loop_quiet (n d : Z) (rest : list jsstring) (i : nat)
    (r : run jsstring) :
  filter on_combined (trace (for_loop web n d i rest r))
  = filter on_combined (trace r).
Proof.
  revert i r; induction rest as [|u rest IH]; intros i r; simpl.
  - reflexivity.
  - rewrite IH. crawl_pass pass.
Qed.

End Facts.

End Part000Crawl.


Example second_of_three_fails :
  let r := Main.scrapePages second_fails
             [url_tokyo; url_osaka; url_saikosai] 3000 in
  pushed r = [mkResult url_tokyo [tokyo_chisai];
              mkResult url_saikosai [saikosai]] /\
  errors_logged (trace r) = [ErrorIn url_osaka (HttpError 503)] /\
  fetched (trace r) = [url_tokyo; url_osaka; url_saikosai].
Proof. vm_compute. repeat split. Qed.

(** ** The combined file *)

Section WriteFacts.

Variable disk : nat -> bool.

Lemma save_each_quiet (rs : list (ScrapeResult jsstring)) (k : nat) :
  filter on_combined (fst (fst (save_each disk k rs))) = [].
Proof.
  revert k; induction rs as [|r rs IH]; intros k; simpl; [reflexivity|].
  unfold saveAsFile. destruct (disk k); [|reflexivity].
  specialize (IH (S k)). destruct (save_each disk (S k) rs) as [[es k'] ok].
  simpl in *. exact IH.
Qed.

Lemma quiet_not_written (tr : list event) :
  filter on_combined tr = [] -> ~ combined_written tr.
Proof.
  intros H [c Hc].
  assert (Hin : In (WriteTextFile CombinedFile c) (filter on_combined tr))
    by (apply filter_In; split; [exact Hc | reflexivity]).
  rewrite H in Hin. exact Hin.
Qed.

Lemma combined_written_app (tr es : list event) :
  filter on_combined tr = [] ->
  (combined_written (tr ++ es) <-> combined_written es).
Proof.
  intros H. split.
  - intros [c Hc]. apply in_app_or in Hc as [Hc|Hc]; [|exists c; exact Hc].
    exfalso. apply (quiet_not_written tr H). exists c; exact Hc.
  - intros [c Hc]. exists c. apply in_or_app; right; exact Hc.
Qed.

Lemma write_out_combined (rs : list (ScrapeResult jsstring))
    (all : list jsstring) :
  (combined_written (fst (write_out disk rs all))
   <-> all <> [] /\ snd (write_out disk rs all) = true) /\
  (all = [] -> filter on_combined (fst (write_out disk rs all)) = []).
Proof.
  unfold write_out. pose proof (save_each_quiet rs 0) as Hq.
  destruct (save_each disk 0 rs) as [[es k] ok]. simpl in Hq.
  destruct ok; simpl.
  2:{ split; [|intros _; exact Hq]. split; [|intros [_ H]; discriminate].
      intros H. exfalso. exact (quiet_not_written es Hq H). }
  destruct all as [|x all]; simpl.
  - split; [|intros _; exact Hq]. split; [|intros [H _]; congruence].
    intros H. exfalso. exact (quiet_not_written es Hq H).
  - unfold saveAsFile. split; [|discriminate].
    destruct (disk k); simpl.
    + split; [intros _; split; [discriminate|reflexivity]|].
      intros _. eexists. apply in_or_app; right; left; reflexivity.
    + split; [|intros [_ H]; discriminate].
      intros H. apply combined_written_app in H; [|exact Hq].
      destruct H as [c [H|[H|[]]]]; discriminate.
Qed.

End WriteFacts.

Lemma all_empty_flat_map (rs : list (ScrapeResult jsstring)) :
  (forall r, In r rs -> data r = []) -> flat_map data rs = [].
Proof.
  induction rs as [|r rs IH]; intros H; simpl; [reflexivity|].
  rewrite (H r) by (left; reflexivity). apply IH.
  intros r' Hr'. apply H. right; exact Hr'.
Qed.

(** C8 as stated fails: when the write of a per-URL file fails,
    [saveAsFile] throws the error again and [main] stops there; the
    combined result is not empty and yet no combined file is written. *)
Lemma combined_not_written_after_failed_write :
  let r := Main.scrapePages one_site [url_tokyo] 3000 in
  Main.allData (pushed r) = [tokyo_chisai] /\
  ~ (combined_written (fst (Main.main one_site disk_full [url_tokyo]))
     <-> Main.allData (pushed r) <> []).
Proof.
  assert (E : Main.allData (pushed (Main.scrapePages one_site [url_tokyo] 3000))
              = [tokyo_chisai]) by (vm_compute; reflexivity).
  cbv zeta. rewrite E. split; [reflexivity|].
  intros [_ H]. destruct H as [c Hc]; [discriminate|].
  vm_compute in Hc.
  repeat (destruct Hc as [Hc|Hc]; [discriminate|]). exact Hc.
Qed.

(** C8, amended: the combined file is written exactly when the combined
    result is not empty and [main] returns, that is, no write of the run
    has failed; when every per-URL result is empty or absent the combined
    file is neither written nor attempted. *)
Theorem combined_file_iff_nonempty
    (web : nat -> jsstring -> response (list Main.anchor))
    (web' : nat -> jsstring -> response Part000.page)
    (disk : nat -> bool) (urls : list jsstring) :
  let r := Main.scrapePages web urls 3000 in
  let r' := Part000.scrapePages web' urls 1500 in
  ((combined_written (fst (Main.main web disk urls))
    <-> Main.allData (pushed r) <> []
        /\ snd (Main.main web disk urls) = true) /\
   ((forall x, In x (pushed r) -> data x = []) ->
    filter on_combined (fst (Main.main web disk urls)) = [])) /\
  ((combined_written (fst (Part000.main web' disk urls))
    <-> Part000.allData (pushed r') <> []
        /\ snd (Part000.main web' disk urls) = true) /\
   ((forall x, In x (pushed r') -> data x = []) ->
    filter on_combined (fst (Part000.main web' disk urls)) = [])).
Proof.
  cbv zeta. unfold Main.main, Part000.main. split.
  - set (r := Main.scrapePages web urls 3000).
    assert (Hq : filter on_combined (trace r) = [])
      by (unfold r, Main.scrapePages; rewrite MainCrawl.main_for_loop_quiet;
          reflexivity).
    destruct (write_out_combined disk (pushed r) (Main.allData (pushed r)))
      as [Hiff Hnone].
    destruct (write_out disk (pushed r) (Main.allData (pushed r)))
      as [es ok]. simpl in *. split.
    + rewrite (combined_written_app _ _ Hq). exact Hiff.
    + intros Hall. rewrite filter_app, Hq. simpl. apply Hnone.
      apply all_empty_flat_map; exact Hall.
  - set (r := Part000.scrapePages web' urls 1500).
    assert (Hq : filter on_combined (trace r) = [])
      by (unfold r, Part000.scrapePages;
          rewrite Part000Crawl.part000_for_loop_quiet; reflexivity).
    destruct (write_out_combined disk (pushed r) (Part000.allData (pushed r)))
      as [Hiff Hnone].
    destruct (write_out disk (pushed r) (Part000.allData (pushed r)))
      as [es ok]. simpl in *. split.
    + rewrite (combined_written_app _ _ Hq). exact Hiff.
    + intros Hall. rewrite filter_app, Hq. simpl. apply Hnone.
      unfold Part000.allData. rewrite all_empty_flat_map by exact Hall.
      reflexivity.
Qed.

Lemma combined_file_iff_nonempty_witness :
  (forall x, In x (pushed (Main.scrapePages site_down [url_tokyo] 3000)) ->
             data x = []) /\
  filter on_combined (fst (Main.main site_down disk_ok [url_tokyo])) = [] /\
  (forall x, In x (pushed (Part000.scrapePages site_down' [url_tokyo] 1500)) ->
             data x = []) /\
  filter on_combined (fst (Part000.main site_down' disk_ok [url_tokyo])) = [].
Proof.
  assert (H : forall x,
             In x (pushed (Main.scrapePages site_down [url_tokyo] 3000)) ->
             data x = []) by (intros x Hx; vm_compute in Hx; destruct Hx).
  assert (H' : forall x,
             In x (pushed (Part000.scrapePages site_down' [url_tokyo] 1500)) ->
             data x = []) by (intros x Hx; vm_compute in Hx; destruct Hx).
  destruct (combined_file_iff_nonempty site_down site_down' disk_ok [url_tokyo])
    as [[_ HM] [_ HP]].
  split; [exact H|]. split; [exact (HM H)|]. split; [exact H'|exact (HP H')].
Defined.

Example combined_written_sample :
  combined_written (fst (Main.main one_site disk_ok [url_tokyo])) /\
  snd (Main.main one_site disk_ok [url_tokyo]) = true.
Proof.
  split; [|vm_compute; reflexivity].
  exists tokyo_chisai. vm_compute. right. right. right. right. left.
  reflexivity.
Qed.

(** * Further properties *)

(** ** The pace of the crawl *)

(** Take a pass apart when the test on [i] is decided by what is left of
    the list. *)
Ltac pace_pass pass scrape :=
  unfold pass, emit, push;
  match goal with
  | |- context [Z.of_nat ?i <? ?n - 1] =>
      let E := fresh "E" in
      destruct (Z.of_nat i <? n - 1) eqn:E;
      [apply Z.ltb_lt in E | apply Z.ltb_ge in E]
  end;
  try (exfalso; simpl length in *; lia);
  match goal with
  | |- context [scrape ?w ?i ?u] => destruct (scrape w i u)
  end;
  simpl; rewrite ?filter_app; simpl;
  rewrite <- ?app_assoc, ?app_nil_r; reflexivity.

Lemma main_for_loop_paced
    (web : nat -> jsstring -> response (list Main.anchor))
    (n d : Z) (rest : list jsstring) (i : nat) (r : run jsstring) :
  n = Z.of_nat (i + length rest) ->
  filter request_or_sleep (trace (Main.for_loop web n d i rest r))
  = filter request_or_sleep (trace r) ++ paced d rest.
Proof.
  revert i r; induction rest as [|u rest IH]; intros i r Hn.
  - simpl. symmetry; apply app_nil_r.
  - cbn [Main.for_loop]. rewrite IH by (simpl length in Hn; lia).
    cbn [paced]. destruct rest as [|u' rest'].
    + replace (filter request_or_sleep (trace (Main.pass web n d i u r)))
        with (filter request_or_sleep (trace r) ++ [Fetch u])
        by pace_pass Main.pass Main.scrape.
      rewrite app_nil_r. reflexivity.
    + replace (filter request_or_sleep (trace (Main.pass web n d i u r)))
        with (filter request_or_sleep (trace r) ++ [Fetch u; Sleep d])
        by pace_pass Main.pass Main.scrape.
      rewrite <- app_assoc. reflexivity.
Qed.

Lemma part000_for_loop_paced
    (web : nat -> jsstring -> response Part000.page)
    (n d : Z) (rest : list jsstring) (i : nat) (r : run jsstring) :
  n = Z.of_nat (i + length rest) ->
  filter request_or_sleep (trace (Part000.for_loop web n d i rest r))
  = filter request_or_sleep (trace r) ++ paced d rest.
Proof.
  revert i r; induction rest as [|u rest IH]; intros i r Hn.
  - simpl. symmetry; apply app_nil_r.
  - cbn [Part000.for_loop]. rewrite IH by (simpl length in Hn; lia).
    cbn [paced]. destruct rest as [|u' rest'].
    + replace (filter request_or_sleep (trace (Part000.pass web n d i u r)))
        with (filter request_or_sleep (trace r) ++ [Fetch u])
        by pace_pass Part000.pass Part000.scrape.
      rewrite app_nil_r. reflexivity.
    + replace (filter request_or_sleep (trace (Part000.pass web n d i u r)))
        with (filter request_or_sleep (trace r) ++ [Fetch u; Sleep d])
        by pace_pass Part000.pass Part000.scrape.
      rewrite <- app_assoc. reflexivity.
Qed.

Lemma part001_for_loop_paced
    (web : nat -> jsstring -> response (list jsstring))
    (n d : Z) (rest : list jsstring) (i : nat) (r : run jsstring) :
  n = Z.of_nat (i + length rest) ->
  filter request_or_sleep (trace (Part001Crawl.for_loop web n d i rest r))
  = filter request_or_sleep (trace r) ++ paced d rest.
Proof.
  revert i r; induction rest as [|u rest IH]; intros i r Hn.
  - simpl. symmetry; apply app_nil_r.
  - cbn [Part001Crawl.for_loop]. rewrite IH by (simpl length in Hn; lia).
    cbn [paced]. destruct rest as [|u' rest'].
    + replace (filter request_or_sleep
                 (trace (Part001Crawl.pass web n d i u r)))
        with (filter request_or_sleep (trace r) ++ [Fetch u])
        by pace_pass Part001Crawl.pass Part001Crawl.scrape.
      rewrite app_nil_r. reflexivity.
    + replace (filter request_or_sleep
                 (trace (Part001Crawl.pass web n d i u r)))
        with (filter request_or_sleep (trace r) ++ [Fetch u; Sleep d])
        by pace_pass Part001Crawl.pass Part001Crawl.scrape.
      rewrite <- app_assoc. reflexivity.
Qed.

(** X1: [scrapePages] makes one request per URL, in the order of the
    list, and sleeps [delayMs] between two requests and nowhere else: not
    before the first, not after the last, not at all for fewer than two
    URLs. *)
Theorem scrapePages_paces_requests
    (web : nat -> jsstring -> response (list Main.anchor))
    (web' : nat -> jsstring -> response Part000.page)
    (web'' : nat -> jsstring -> response (list jsstring))
    (urls : list jsstring) (delayMs : Z) :
  filter request_or_sleep (trace (Main.scrapePages web urls delayMs))
    = paced delayMs urls /\
  filter request_or_sleep (trace (Part000.scrapePages web' urls delayMs))
    = paced delayMs urls /\
  filter request_or_sleep (trace (Part001Crawl.scrapePages web'' urls delayMs))
    = paced delayMs urls.
Proof.
  unfold Main.scrapePages, Part000.scrapePages, Part001Crawl.scrapePages,
    len_list.
  rewrite main_for_loop_paced, part000_for_loop_paced,
    part001_for_loop_paced by reflexivity.
  simpl. auto.
Qed.

(** ** [scrapePages] of [src/unnamed/part_001] *)

Section Part001CrawlFacts.

Variable web : nat -> jsstring -> response (list jsstring).

Lemma part001_for_loop_pushed (n d : Z) (rest : list jsstring) (i : nat)
    (r : run jsstring) :
  pushed (Part001Crawl.for_loop web n d i rest r)
  = pushed r ++ successes (Part001Crawl.scrape web) i rest.
Proof.
  revert i r; induction rest as [|u rest IH]; intros i r; simpl.
  - symmetry; apply app_nil_r.
  - rewrite IH.
    replace (pushed (Part001Crawl.pass web n d i u r))
      with (pushed r ++ match Part001Crawl.scrape web i u with
                        | inr result => [mkResult u result]
                        | inl _ => []
                        end) by crawl_pass Part001Crawl.pass.
    destruct (Part001Crawl.scrape web i u); rewrite <- app_assoc; reflexivity.
Qed.

Lemma part001_for_loop_fetched (n d : Z) (rest : list jsstring) (i : nat)
    (r : run jsstring) :
  fetched (trace (Part001Crawl.for_loop web n d i rest r))
  = fetched (trace r) ++ rest.
Proof.
  revert i r; induction rest as [|u rest IH]; intros i r; simpl.
  - symmetry; apply app_nil_r.
  - rewrite IH.
    replace (fetched (trace (Part001Crawl.pass web n d i u r)))
      with (fetched (trace r) ++ [u]) by crawl_pass Part001Crawl.pass.
    rewrite <- app_assoc; reflexivity.
Qed.

Lemma part001_for_loop_errors (n d : Z) (rest : list jsstring) (i : nat)
    (r : run jsstring) :
  errors_logged (trace (Part001Crawl.for_loop web n d i rest r))
  = errors_logged (trace r) ++ failures (Part001Crawl.scrape web) i rest.
Proof.
  revert i r; induction rest as [|u rest IH]; intros i r; simpl.
  - symmetry; apply app_nil_r.
  - rewrite IH.
    replace (errors_logged (trace (Part001Crawl.pass web n d i u r)))
      with (errors_logged (trace r)
            ++ match Part001Crawl.scrape web i u with
               | inr _ => []
               | inl e => [e]
               end) by crawl_pass Part001Crawl.pass.
    destruct (Part001Crawl.scrape web i u); rewrite <- app_assoc; reflexivity.
Qed.

End Part001CrawlFacts.

(** X2: [scrapePages] of [src/unnamed/part_001] requests every URL of the
    list in order, returns the results of exactly the URLs that
    succeeded, in order, and writes the error of every URL that failed to
    the console. *)
Theorem part001_scrapePages_isolates_failures
    (web : nat -> jsstring -> response (list jsstring))
    (urls : list jsstring) (delayMs : Z) :
  pushed (Part001Crawl.scrapePages web urls delayMs)
    = successes (Part001Crawl.scrape web) 0 urls /\
  fetched (trace (Part001Crawl.scrapePages web urls delayMs)) = urls /\
  errors_logged (trace (Part001Crawl.scrapePages web urls delayMs))
    = failures (Part001Crawl.scrape web) 0 urls.
Proof.
  unfold Part001Crawl.scrapePages. repeat split.
  - apply part001_for_loop_pushed.
  - apply part001_for_loop_fetched.
  - apply part001_for_loop_errors.
Qed.

(** ** [trim], [split], [join] *)

Section TrimFacts.

Lemma trimStart_split (s : jsstring) :
  exists l, s = l ++ trimStart s /\ forallb is_space l = true /\
            (forall c t, trimStart s = c :: t -> is_space c = false).
Proof.
  induction s as [|c s (l & Hs & Hl & Hc)]; simpl.
  - exists []. repeat split; intros; discriminate.
  - destruct (is_space c) eqn:E.
    + exists (c :: l). simpl. rewrite E, Hl. repeat split; [|exact Hc].
      f_equal. exact Hs.
    + exists []. repeat split. intros c' t H. inversion H; subst. exact E.
Qed.

Lemma trimEnd_split (s : jsstring) :
  exists r, s = trimEnd s ++ r /\ forallb is_space r = true /\
            (forall c t, trimEnd s = t ++ [c] -> is_space c = false).
Proof.
  unfold trimEnd. destruct (trimStart_split (rev s)) as (l & Hs & Hl & Hc).
  exists (rev l). repeat split.
  - rewrite <- rev_app_distr, <- Hs. symmetry; apply rev_involutive.
  - rewrite forallb_forall in *. intros x Hx. apply Hl, in_rev. exact Hx.
  - intros c t H. apply (Hc c (rev t)).
    rewrite <- (rev_involutive (trimStart (rev s))), H, rev_app_distr.
    reflexivity.
Qed.

Lemma trimStart_trimEnd_head (s : jsstring) (c : code_unit) (t : jsstring) :
  (forall c' t', s = c' :: t' -> is_space c' = false) ->
  trimEnd s = c :: t -> is_space c = false.
Proof.
  intros Hs H. destruct (trimEnd_split s) as (r & Hr & _ & _).
  rewrite H in Hr. simpl in Hr. eapply Hs; exact Hr.
Qed.

End TrimFacts.

Lemma trim_spec_aux (s : jsstring) :
  ((forall c t, trim s = c :: t -> is_space c = false) /\
   (forall c t, trim s = t ++ [c] -> is_space c = false)) /\
  trim (trim s) = trim s.
Proof.
  unfold trim.
  destruct (trimStart_split s) as (l & Hl & Hlw & Hlc).
  destruct (trimEnd_split (trimStart s)) as (r & Hr & Hrw & Hrc).
  assert (Hhead : forall c t, trimEnd (trimStart s) = c :: t ->
                              is_space c = false).
  { intros c t. apply trimStart_trimEnd_head. exact Hlc. }
  split; [split; [exact Hhead | exact Hrc]|].
  set (m := trimEnd (trimStart s)) in *.
  assert (E1 : trimStart m = m).
  { destruct m as [|c t] eqn:Em; [reflexivity|].
    simpl. rewrite (Hhead c t eq_refl). reflexivity. }
  rewrite E1. unfold trimEnd.
  assert (E2 : trimStart (rev m) = rev m).
  { destruct (rev m) as [|c t] eqn:Em; [reflexivity|].
    simpl. rewrite (Hrc c (rev t)); [reflexivity|].
    rewrite <- (rev_involutive m), Em. reflexivity. }
  rewrite E2. apply rev_involutive.
Qed.

(** [trim] cuts white space off both ends and nothing else: the
    string is white space, then the trimmed string, then white space; the
    trimmed string neither starts nor ends with white space, and trimming
    it again changes nothing. *)
Theorem trim_spec (s : jsstring) :
  (exists l r, s = l ++ trim s ++ r /\
               forallb is_space l = true /\ forallb is_space r = true) /\
  (forall c t, trim s = c :: t -> is_space c = false) /\
  (forall c t, trim s = t ++ [c] -> is_space c = false) /\
  trim (trim s) = trim s.
Proof.
  unfold trim.
  destruct (trimStart_split s) as (l & Hl & Hlw & Hlc).
  destruct (trimEnd_split (trimStart s)) as (r & Hr & Hrw & Hrc).
  assert (Hhead : forall c t, trimEnd (trimStart s) = c :: t ->
                              is_space c = false).
  { intros c t. apply trimStart_trimEnd_head. exact Hlc. }
  split; [|split; [exact Hhead|split; [exact Hrc|]]].
  - exists l, r. rewrite <- Hr. auto.
  - set (m := trimEnd (trimStart s)) in *.
    assert (E1 : trimStart m = m).
    { destruct m as [|c t] eqn:Em; [reflexivity|].
      simpl. rewrite (Hhead c t eq_refl). reflexivity. }
    rewrite E1. unfold trimEnd.
    assert (E2 : trimStart (rev m) = rev m).
    { destruct (rev m) as [|c t] eqn:Em; [reflexivity|].
      simpl. rewrite (Hrc c (rev t)); [reflexivity|].
      rewrite <- (rev_involutive m), Em. reflexivity. }
    rewrite E2. apply rev_involutive.
Qed.

Lemma trim_spec_witness :
  trim (lit " a "%string) = lit "a"%string ++ [] /\
  is_space 97%N = false.
Proof.
  assert (H : trim (lit " a "%string) = [] ++ [97%N]) by reflexivity.
  split; [reflexivity|].
  exact (proj1 (proj2 (proj2 (trim_spec (lit " a "%string)))) 97%N [] H).
Defined.

Section SplitJoinFacts.

Variable sep : code_unit.

Lemma split_not_nil (s : jsstring) : split sep s <> [].
Proof.
  destruct s as [|c s]; simpl; [discriminate|].
  destruct (c =? sep)%N; [discriminate|].
  destruct (split sep s); discriminate.
Qed.

Lemma join_cons_unit (c : code_unit) (l : jsstring) (ls : list jsstring) :
  join [sep] ((c :: l) :: ls) = c :: join [sep] (l :: ls).
Proof. destruct ls; reflexivity. Qed.

Lemma join_split (s : jsstring) : join [sep] (split sep s) = s.
Proof.
  induction s as [|c s IH]; [reflexivity|].
  simpl. destruct (c =? sep)%N eqn:E.
  - apply N.eqb_eq in E. subst c.
    destruct (split sep s) as [|l ls] eqn:Es; [exfalso; eapply split_not_nil; eauto|].
    simpl. simpl in IH. rewrite IH. reflexivity.
  - destruct (split sep s) as [|l ls] eqn:Es; [exfalso; eapply split_not_nil; eauto|].
    rewrite join_cons_unit, IH. reflexivity.
Qed.

Lemma split_no_sep (x : jsstring) : ~ In sep x -> split sep x = [x].
Proof.
  induction x as [|c x IH]; intros H; [reflexivity|].
  simpl. destruct (c =? sep)%N eqn:E.
  - apply N.eqb_eq in E. exfalso; apply H. left; exact E.
  - rewrite IH; [reflexivity|]. intros Hin; apply H; right; exact Hin.
Qed.

Lemma split_app_sep (x rest : jsstring) :
  ~ In sep x -> split sep (x ++ sep :: rest) = x :: split sep rest.
Proof.
  induction x as [|c x IH]; intros H; simpl.
  - rewrite N.eqb_refl. reflexivity.
  - destruct (c =? sep)%N eqn:E.
    + apply N.eqb_eq in E. exfalso; apply H. left; exact E.
    + rewrite IH; [reflexivity|]. intros Hin; apply H; right; exact Hin.
Qed.

Lemma split_join (l : list jsstring) :
  l <> [] -> Forall (fun x => ~ In sep x) l ->
  split sep (join [sep] l) = l.
Proof.
  intros Hne H. revert Hne.
  induction H as [|x l Hx Hl IH]; intros Hne;
    [exfalso; apply Hne; reflexivity|].
  destruct l as [|y l'].
  - simpl. apply split_no_sep; exact Hx.
  - change (join [sep] (x :: y :: l')) with (x ++ sep :: join [sep] (y :: l')).
    rewrite split_app_sep by exact Hx. rewrite IH by discriminate.
    reflexivity.
Qed.

Lemma split_pieces (s : jsstring) :
  Forall (fun x => ~ In sep x) (split sep s).
Proof.
  induction s as [|c s IH]; simpl; [repeat constructor; auto|].
  destruct (c =? sep)%N eqn:E; [constructor; auto|].
  destruct (split sep s) as [|l ls]; [repeat constructor|].
  - intros [H|[]]. subst c. rewrite N.eqb_refl in E. discriminate.
  - inversion IH; subst. constructor; [|assumption].
    intros [H|H]; [|contradiction]. subst c.
    rewrite N.eqb_refl in E. discriminate.
Qed.

End SplitJoinFacts.

(** [split] and [join] on a one-unit separator undo each other:
    joining the pieces of a string gives the string back, and splitting
    the join of a non-empty list of strings that do not contain the
    separator gives the list back. *)
Theorem split_join_round_trip (sep : code_unit) :
  (forall s, join [sep] (split sep s) = s) /\
  (forall l, l <> [] -> Forall (fun x => ~ In sep x) l ->
             split sep (join [sep] l) = l).
Proof. split; [apply join_split | apply split_join]. Qed.

Lemma split_join_round_trip_witness :
  [tokyo_chisai; saikosai] <> [] /\
  Forall (fun x => ~ In LF x) [tokyo_chisai; saikosai] /\
  split LF (join [LF] [tokyo_chisai; saikosai]) = [tokyo_chisai; saikosai].
Proof.
  assert (H1 : [tokyo_chisai; saikosai] <> []) by discriminate.
  assert (H2 : Forall (fun x => ~ In LF x) [tokyo_chisai; saikosai]).
  { repeat constructor; simpl; intuition discriminate. }
  split; [exact H1|]. split; [exact H2|].
  exact (proj2 (split_join_round_trip LF) _ H1 H2).
Defined.

(** ** The cleanup and the names of a result *)

Section CleanupFacts.

Lemma trim_split (s : jsstring) :
  exists l r, s = l ++ trim s ++ r /\
              forallb is_space l = true /\ forallb is_space r = true.
Proof.
  unfold trim.
  destruct (trimStart_split s) as (l & Hl & Hlw & _).
  destruct (trimEnd_split (trimStart s)) as (r & Hr & Hrw & _).
  exists l, r. rewrite <- Hr. auto.
Qed.

Lemma trim_incl (s : jsstring) (c : code_unit) : In c (trim s) -> In c s.
Proof.
  destruct (trim_split s) as (l & r & Hs & _). intros H.
  rewrite Hs. apply in_or_app; right. apply in_or_app; left. exact H.
Qed.

Lemma remove_class_spaces (l : jsstring) :
  forallb is_space l = true -> remove_class is_decoration l = [].
Proof.
  unfold remove_class. induction l as [|c l IH]; simpl; [reflexivity|].
  intros H. apply andb_true_iff in H as [Hc Hl].
  unfold is_decoration at 1. rewrite Hc, orb_true_r. simpl. auto.
Qed.

Lemma cleanup_remove_class (s : jsstring) :
  cleanup s = remove_class is_decoration s.
Proof.
  unfold cleanup. destruct (trim_split s) as (l & r & Hs & Hl & Hr).
  rewrite Hs at 2. unfold remove_class. rewrite !filter_app.
  fold (remove_class is_decoration l). fold (remove_class is_decoration r).
  rewrite (remove_class_spaces l Hl), (remove_class_spaces r Hr).
  rewrite app_nil_r. reflexivity.
Qed.

Lemma clean_no_LF (x : jsstring) : clean x -> ~ In LF x.
Proof.
  unfold clean. rewrite Forall_forall. intros H Hin.
  specialize (H LF Hin). discriminate.
Qed.

Lemma Main_extract_clean (document : list Main.anchor) (x : jsstring) :
  In x (Main.extract document) -> clean x.
Proof.
  unfold Main.extract. intros H. apply (proj1 (aggregate_In _ _)) in H.
  apply in_map_iff in H as (y & <- & _). apply cleanup_clean.
Qed.

Lemma Part000_extract_clean (u : jsstring) (document : Part000.page)
    (x : jsstring) :
  In x (Part000.extract u document) -> clean x.
Proof.
  unfold Part000.extract. intros H. apply (proj1 (aggregate_In _ _)) in H.
  apply filter_In in H as [H _].
  apply in_map_iff in H as (y & <- & _). apply cleanup_clean.
Qed.

End CleanupFacts.

(** X3: the final cleanup is one pass over the string: it deletes every
    white space and every one of "，．･・" and keeps the other code units
    in their order; the [trim] before the [replace] removes nothing that
    the [replace] would not remove. *)
Theorem cleanup_is_one_pass (s : jsstring) :
  cleanup s = filter (fun c => negb (is_decoration c)) s.
Proof. exact (cleanup_remove_class s). Qed.

(** X4: every name that [scrapePage] of [src/main.ts] or of
    [src/unnamed/part_000] returns is clean: it holds no white space and
    none of "，．･・". *)
Theorem scrapePage_names_clean (u : jsstring) (x : jsstring) :
  (forall r names, Main.scrapePage u r = inr names -> In x names -> clean x) /\
  (forall r names, Part000.scrapePage u r = inr names -> In x names ->
                   clean x).
Proof.
  split; intros r names Hr Hx; destruct r; simpl in Hr; inversion Hr; subst.
  - eapply Main_extract_clean; exact Hx.
  - eapply Part000_extract_clean; exact Hx.
Qed.

Lemma scrapePage_names_clean_witness :
  Main.scrapePage url_tokyo (Parsed [decorated_anchor])
    = inr [[]; tokyo_chisai] /\
  In tokyo_chisai [[]; tokyo_chisai] /\
  clean tokyo_chisai.
Proof.
  assert (H1 : Main.scrapePage url_tokyo (Parsed [decorated_anchor])
               = inr [[]; tokyo_chisai]) by (vm_compute; reflexivity).
  assert (H2 : In tokyo_chisai [[]; tokyo_chisai])
    by (right; left; reflexivity).
  split; [exact H1|]. split; [exact H2|].
  exact (proj1 (scrapePage_names_clean url_tokyo tokyo_chisai) _ _ H1 H2).
Defined.

(** ** The lines of the normalizer and of the output file *)

Section LineFacts.

Lemma In_join (sep : jsstring) (l : list jsstring) (x : jsstring)
    (c : code_unit) :
  In x l -> In c x -> In c (join sep l).
Proof.
  induction l as [|y l IH]; intros Hx Hc; [destruct Hx|].
  destruct l as [|z l'].
  - destruct Hx as [->|[]]. exact Hc.
  - change (join sep (y :: z :: l')) with (y ++ sep ++ join sep (z :: l')).
    destruct Hx as [->|Hx].
    + apply in_or_app; left; exact Hc.
    + apply in_or_app; right. apply in_or_app; right. apply IH; assumption.
Qed.

Lemma split_incl (sep : code_unit) (s x : jsstring) (c : code_unit) :
  In x (split sep s) -> In c x -> In c s.
Proof.
  intros Hx Hc. rewrite <- (join_split sep s).
  eapply In_join; eassumption.
Qed.

Lemma trimmed_lines_spec (s line : jsstring) :
  In line (trimmed_lines s) ->
  line <> [] /\ trim line = line /\ ~ In LF line /\
  (forall c, In c line -> In c s).
Proof.
  intros H. pose proof (trimmed_lines_nonempty _ _ H) as Hne.
  unfold trimmed_lines in H. apply filter_In in H as [H _].
  apply in_map_iff in H as (piece & <- & Hp).
  split; [exact Hne|]. split; [|split].
  - destruct (trim_spec_aux piece) as [_ E]. exact E.
  - intros Hin. apply trim_incl in Hin.
    pose proof (split_pieces LF s) as Hall. rewrite Forall_forall in Hall.
    exact (Hall piece Hp Hin).
  - intros c Hc. apply trim_incl in Hc. eapply split_incl; eassumption.
Qed.

Lemma replace_unit (a : code_unit) (f : jsstring -> jsstring) (s : jsstring) :
  replace_g [[a]] f s
  = flat_map (fun c => if (a =? c)%N then f [a] else [c]) s.
Proof.
  unfold replace_g. induction s as [|c s IH]; [reflexivity|].
  cbn [replace_scan find startsWith flat_map].
  destruct (a =? c)%N; simpl; rewrite IH; reflexivity.
Qed.

Lemma Main_normalize_no_nakaguro (s line : jsstring) :
  In line (Main.normalize s) -> ~ In 0x30FB%N line.
Proof.
  unfold Main.normalize. intros H Hin.
  destruct (trimmed_lines_spec _ _ H) as (_ & _ & _ & Hsub).
  apply Hsub in Hin. unfold nakaguro in Hin. rewrite replace_unit in Hin.
  apply in_flat_map in Hin as (c & _ & Hc).
  destruct (0x30FB =? c)%N eqn:E.
  - destruct Hc as [Hc|[]]. discriminate.
  - destruct Hc as [Hc|[]]. subst c. discriminate.
Qed.

End LineFacts.

(** X5: every line that the normalizer hands to the tokenizer is not
    empty, is trimmed and holds no line feed; in [src/main.ts] (and
    [src/unnamed/part_001]) it holds no "・" either, which is replaced by
    a line break there. *)
Theorem normalize_lines (s line : jsstring) :
  (In line (Main.normalize s) ->
   line <> [] /\ trim line = line /\ ~ In LF line /\ ~ In 0x30FB%N line) /\
  (In line (Part000.normalize s) ->
   line <> [] /\ trim line = line /\ ~ In LF line).
Proof.
  split; intros H.
  - pose proof (Main_normalize_no_nakaguro _ _ H) as Hn.
    unfold Main.normalize in H.
    destruct (trimmed_lines_spec _ _ H) as (H1 & H2 & H3 & _). auto.
  - unfold Part000.normalize in H.
    destruct (trimmed_lines_spec _ _ H) as (H1 & H2 & H3 & _). auto.
Qed.

Lemma normalize_lines_witness :
  In tokyo_chisai (Main.normalize (tokyo_chisai ++ nakaguro ++ tokyo_kasai)) /\
  trim tokyo_chisai = tokyo_chisai /\
  In tachikawa_shibu (Part000.normalize (tachikawa_shibu ++ tokyo_kasai)) /\
  trim tachikawa_shibu = tachikawa_shibu.
Proof.
  assert (H1 : In tokyo_chisai
                 (Main.normalize (tokyo_chisai ++ nakaguro ++ tokyo_kasai)))
    by (vm_compute; left; reflexivity).
  assert (H2 : In tachikawa_shibu
                 (Part000.normalize (tachikawa_shibu ++ tokyo_kasai)))
    by (vm_compute; left; reflexivity).
  split; [exact H1|].
  split; [exact (proj1 (proj2 (proj1 (normalize_lines _ _) H1)))|].
  split; [exact H2|].
  exact (proj1 (proj2 (proj2 (normalize_lines _ _) H2))).
Defined.

Lemma saveAsFile_lines (disk : nat -> bool) (k : nat) (f : file)
    (data : list jsstring) :
  disk k = true -> data <> [] -> Forall (fun x => ~ In LF x) data ->
  exists content,
    saveAsFile disk k data f = ([WriteTextFile f content], true) /\
    split LF content = data.
Proof.
  intros Hd Hne Hall. unfold saveAsFile. rewrite Hd.
  eexists. split; [reflexivity|]. apply split_join; assumption.
Qed.

(** X6: the file that [saveAsFile] writes for a result of [scrapePage]
    that is not empty has exactly the names of the result as its lines,
    in order: no name holds a line feed, so splitting the file at the line
    feeds gives the result back. *)
Theorem result_file_lines (disk : nat -> bool) (k : nat) (f : file) :
  disk k = true ->
  (forall document,
      Main.extract document <> [] ->
      exists content,
        saveAsFile disk k (Main.extract document) f
          = ([WriteTextFile f content], true) /\
        split LF content = Main.extract document) /\
  (forall u document,
      Part000.extract u document <> [] ->
      exists content,
        saveAsFile disk k (Part000.extract u document) f
          = ([WriteTextFile f content], true) /\
        split LF content = Part000.extract u document) /\
  (forall document,
      Part001.extract document <> [] ->
      exists content,
        saveAsFile disk k (Part001.extract document) f
          = ([WriteTextFile f content], true) /\
        split LF content = Part001.extract document).
Proof.
  intros Hd. repeat split.
  - intros document Hne. apply saveAsFile_lines; [assumption..|].
    apply Forall_forall. intros x Hx.
    apply clean_no_LF. eapply Main_extract_clean; exact Hx.
  - intros u document Hne. apply saveAsFile_lines; [assumption..|].
    apply Forall_forall. intros x Hx.
    apply clean_no_LF. eapply Part000_extract_clean; exact Hx.
  - intros document Hne. apply saveAsFile_lines; [assumption..|].
    apply Forall_forall. intros x Hx. unfold Part001.extract in Hx.
    apply (proj1 (aggregate_In _ _)) in Hx.
    apply in_flat_map in Hx as (c & _ & Hx). unfold Main.normalize in Hx.
    destruct (trimmed_lines_spec _ _ Hx) as (_ & _ & H & _). exact H.
Qed.

Lemma result_file_lines_witness :
  disk_ok 0%nat = true /\
  Main.extract [Main.mkAnchor None tokyo_chisai] <> [] /\
  exists content,
    saveAsFile disk_ok 0 (Main.extract [Main.mkAnchor None tokyo_chisai])
      (SourceFile url_tokyo)
    = ([WriteTextFile (SourceFile url_tokyo) content], true) /\
    split LF content = Main.extract [Main.mkAnchor None tokyo_chisai].
Proof.
  assert (H1 : disk_ok 0%nat = true) by reflexivity.
  assert (H2 : Main.extract [Main.mkAnchor None tokyo_chisai] <> [])
    by (vm_compute; discriminate).
  split; [exact H1|]. split; [exact H2|].
  exact (proj1 (result_file_lines disk_ok 0 (SourceFile url_tokyo) H1) _ H2).
Defined.

(** ** The tokens of [splitCourts] *)

Section TokenFacts.

Lemma occurrences_skip (pat pre rest : jsstring) :
  (forall j, (j < length pre)%nat ->
             startsWith pat (skipn j (pre ++ rest)) = false) ->
  occurrences pat (pre ++ rest) = occurrences pat rest.
Proof.
  induction pre as [|c pre IH]; intros H; [reflexivity|].
  assert (H0 : startsWith pat (c :: pre ++ rest) = false)
    by (apply (H 0%nat); simpl; lia).
  change ((c :: pre) ++ rest) with (c :: (pre ++ rest)).
  cbn [occurrences]. rewrite H0. rewrite IH; [reflexivity|].
  intros j Hj. apply (H (S j)). simpl; lia.
Qed.

Lemma occurrences_saibansho_head (post : jsstring) :
  occurrences saibansho (saibansho ++ post)
  = S (occurrences saibansho post).
Proof.
  unfold saibansho. cbn [app occurrences startsWith N.eqb Pos.eqb andb].
  destruct (startsWith [0x88C1; 0x5224; 0x6240]%N post); reflexivity.
Qed.

Lemma occurrences_none (pat s : jsstring) :
  ~ contains s pat -> occurrences pat s = 0%nat.
Proof.
  intros H. destruct (occurrences pat s) eqn:E; [reflexivity|].
  exfalso. apply H. apply occurrences_pos. lia.
Qed.

(** What one successful search of the loops finds. *)
Lemma court_found (text : jsstring) (cur : Z) :
  0 <= cur <= len text ->
  indexOf text saibansho cur <> -1 ->
  exists pre post,
    skipn (Z.to_nat cur) text = pre ++ saibansho ++ post /\
    0 <= indexOf text saibansho cur + 3 <= len text /\
    skipn (Z.to_nat (indexOf text saibansho cur + 3)) text = post /\
    occurrences saibansho (skipn (Z.to_nat cur) text)
    = S (occurrences saibansho post) /\
    substring text cur (indexOf text saibansho cur + 3) = pre ++ saibansho.
Proof.
  intros Hr E. unfold indexOf in *.
  replace (clamp text cur) with (Z.to_nat cur) in * by (unfold clamp; lia).
  destruct (find_from _ _ _) as [i|] eqn:F; [|congruence].
  apply find_from_Some in F as (pre & post & Hs & -> & Hfirst).
  exists pre, post.
  set (c := Z.to_nat cur) in *.
  assert (Hc1 : length (firstn c text) = c).
  { apply firstn_length_le. unfold c, len in *; lia. }
  assert (Hocc : occurrences saibansho (skipn c text)
                 = S (occurrences saibansho post)).
  { rewrite Hs at 1. rewrite occurrences_skip.
    - apply occurrences_saibansho_head.
    - intros j Hj. rewrite <- Hs. apply Hfirst; exact Hj. }
  remember (firstn c text) as head eqn:Hhead.
  assert (Htext : text = head ++ (pre ++ saibansho) ++ post).
  { rewrite <- (firstn_skipn c text), <- Hhead, Hs, <- app_assoc.
    reflexivity. }
  assert (Hcur : cur = len head) by (unfold len; rewrite Hc1; unfold c; lia).
  assert (Hnew : Z.to_nat (Z.of_nat (c + length pre) + 3)
                 = length (head ++ pre ++ saibansho)).
  { rewrite !length_app, Hc1. simpl. lia. }
  split; [exact Hs|]. split; [|split; [|split; [exact Hocc|]]].
  - rewrite Htext. unfold len. rewrite !length_app, Hc1. simpl. lia.
  - rewrite Hnew. rewrite Htext at 1.
    rewrite (app_assoc head (pre ++ saibansho) post).
    apply skipn_prefix; reflexivity.
  - apply (substring_mid text head (pre ++ saibansho) post).
    + exact Htext.
    + exact Hcur.
    + unfold len. rewrite Hc1, length_app. simpl. lia.
Qed.

Lemma occurrences_past_end (text : jsstring) (cur : Z) :
  len text <= cur ->
  occurrences saibansho (skipn (Z.to_nat cur) text) = 0%nat.
Proof.
  intros H. rewrite skipn_all2 by (unfold len in *; lia). reflexivity.
Qed.

(** The loop of [src/main.ts] pushes one token for every "裁判所". *)
Lemma Main_loop_count (text : jsstring) :
  length (Main.results (Main.loop text (Main.mkState [] 0)))
  = occurrences saibansho text.
Proof.
  set (I := fun st : Main.loop_state =>
              0 <= Main.currentIndex st <= len text /\
              (length (Main.results st)
               + occurrences saibansho
                   (skipn (Z.to_nat (Main.currentIndex st)) text)
               = occurrences saibansho text)%nat).
  set (Q := fun st : Main.loop_state =>
              length (Main.results st) = occurrences saibansho text).
  apply (MainFacts.main_loop_rule text I Q).
  - intros st st' [Hr Hc] _ Hb. unfold Main.loop_body in Hb.
    destruct (indexOf text saibansho (Main.currentIndex st) =? -1) eqn:E;
      [discriminate|].
    apply Z.eqb_neq in E.
    destruct (court_found _ _ Hr E) as (pre & post & _ & Hr' & Hp & Ho & _).
    inversion Hb; subst st'. unfold I. simpl.
    split; [exact Hr'|]. rewrite Hp, length_app. simpl. lia.
  - intros st st' [Hr Hc] _ Hb. unfold Main.loop_body in Hb.
    destruct (indexOf text saibansho (Main.currentIndex st) =? -1) eqn:E;
      [|discriminate].
    inversion Hb; subst st'. apply Z.eqb_eq in E. unfold Q.
    rewrite (occurrences_none _ _ (indexOf_missing _ _ _ Hr E)) in Hc. lia.
  - intros st [Hr Hc] Hcond. unfold Q. unfold Main.loop_cond in Hcond.
    apply andb_false_iff in Hcond as [H|H];
      [apply Z.leb_gt in H; lia | apply Z.ltb_ge in H].
    rewrite (occurrences_past_end _ _ H) in Hc. lia.
  - unfold I. simpl. split; [unfold len; lia | reflexivity].
Qed.

(** So does the loop of [src/unnamed/part_000], the last token taking the
    rest of the text. *)
Lemma Part000_loop_count (text : jsstring) :
  length (Part000.found (Part000.loop text (Part000.mkState [] 0)))
  = occurrences saibansho text.
Proof.
  set (I := fun st : Part000.loop_state =>
              0 <= Part000.startPos st <= len text /\
              (length (Part000.found st)
               + occurrences saibansho
                   (skipn (Z.to_nat (Part000.startPos st)) text)
               = occurrences saibansho text)%nat).
  set (Q := fun st : Part000.loop_state =>
              length (Part000.found st) = occurrences saibansho text).
  apply (Part000Facts.part000_loop_rule text I Q).
  - intros st st' [Hr Hc] _ Hb. unfold Part000.loop_body in Hb.
    destruct (indexOf text saibansho (Part000.startPos st) =? -1) eqn:E;
      [discriminate|].
    apply Z.eqb_neq in E.
    destruct (court_found _ _ Hr E) as (pre & post & _ & Hr' & Hp & Ho & _).
    destruct (negb _); [|discriminate].
    inversion Hb; subst st'. unfold I. simpl.
    split; [exact Hr'|]. rewrite Hp, length_app. simpl. lia.
  - intros st st' [Hr Hc] _ Hb. unfold Part000.loop_body in Hb. unfold Q.
    destruct (indexOf text saibansho (Part000.startPos st) =? -1) eqn:E.
    + inversion Hb; subst st'. apply Z.eqb_eq in E.
      rewrite (occurrences_none _ _ (indexOf_missing _ _ _ Hr E)) in Hc. lia.
    + apply Z.eqb_neq in E.
      destruct (court_found _ _ Hr E) as (pre & post & _ & Hr' & Hp & Ho & _).
      destruct (indexOf text saibansho
                  (indexOf text saibansho (Part000.startPos st) + 3) =? -1)
        eqn:E2; simpl in Hb; [|discriminate].
      inversion Hb; subst st'. simpl. apply Z.eqb_eq in E2.
      pose proof (indexOf_missing _ _ _ Hr' E2) as Hno. rewrite Hp in Hno.
      rewrite (occurrences_none _ _ Hno) in Ho.
      rewrite length_app. simpl. lia.
  - intros st [Hr Hc] Hcond. unfold Q. unfold Part000.loop_cond in Hcond.
    apply Z.ltb_ge in Hcond.
    rewrite (occurrences_past_end _ _ Hcond) in Hc. lia.
  - unfold I. simpl. split; [unfold len; lia | reflexivity].
Qed.

End TokenFacts.

(** X7: [splitCourts] returns one token for every "裁判所" of the text:
    in [src/unnamed/part_000] the number of tokens is the number of
    occurrences, in [src/main.ts] it is that number too, and one when
    there are fewer than two. *)
Theorem splitCourts_token_count (text : jsstring) :
  length (Part000.splitCourts text) = occurrences saibansho text /\
  length (Main.splitCourts text) = Nat.max 1 (occurrences saibansho text).
Proof.
  split; [apply Part000_loop_count|].
  unfold Main.splitCourts, len_list. rewrite Main_loop_count.
  destruct (Z.of_nat (occurrences saibansho text) <? 2) eqn:E.
  - apply Z.ltb_lt in E. cbn [length]. lia.
  - apply Z.ltb_ge in E. rewrite Main_loop_count. lia.
Qed.

Section TokenShape.

Lemma has_suffix_contains (t suf : jsstring) :
  has_suffix t suf -> contains t suf.
Proof. intros [pre ->]. exists pre, []. rewrite app_nil_r. reflexivity. Qed.

Lemma Forall_removelast {A : Type} (P : A -> Prop) (l : list A) :
  Forall P l -> Forall P (removelast l).
Proof.
  induction 1 as [|x l Hx Hl IH]; [constructor|].
  simpl. destruct l; [constructor|]. constructor; assumption.
Qed.

Lemma Part000_loop_shape (text : jsstring) :
  let tokens := Part000.found (Part000.loop text (Part000.mkState [] 0)) in
  Forall (fun t => contains t saibansho) tokens /\
  Forall (fun t => has_suffix t saibansho) (removelast tokens).
Proof.
  cbv zeta.
  set (I := fun st : Part000.loop_state =>
              Part000Facts.inv text st /\
              Forall (fun t => has_suffix t saibansho) (Part000.found st)).
  set (Q := fun st : Part000.loop_state =>
              Forall (fun t => contains t saibansho) (Part000.found st) /\
              Forall (fun t => has_suffix t saibansho)
                (removelast (Part000.found st))).
  assert (Hdone : forall st, I st -> Q st).
  { intros st [_ H]. split; [|apply Forall_removelast; exact H].
    eapply Forall_impl; [|exact H]. intros t. apply has_suffix_contains. }
  apply (Part000Facts.part000_loop_rule text I Q).
  - intros st st' [HI Hf] Hc Hb. split.
    + eapply Part000Facts.part000_inv_pass; eassumption.
    + unfold Part000.loop_body in Hb.
      destruct (indexOf text saibansho (Part000.startPos st) =? -1) eqn:E;
        [discriminate|].
      apply Z.eqb_neq in E.
      destruct (Part000Facts.found_court _ _ HI E)
        as (head & pre & post & _ & _ & _ & _ & Hs).
      destruct (negb _); [|discriminate].
      inversion Hb; subst st'. simpl. rewrite Hs.
      apply Forall_app; split; [exact Hf|].
      constructor; [exists pre; reflexivity | constructor].
  - intros st st' [HI Hf] _ Hb. unfold Part000.loop_body in Hb.
    destruct (indexOf text saibansho (Part000.startPos st) =? -1) eqn:E.
    + inversion Hb; subst st'. apply Hdone. split; assumption.
    + apply Z.eqb_neq in E.
      destruct (negb _); [discriminate|].
      inversion Hb; subst st'. unfold Q. simpl.
      rewrite removelast_last. split; [|exact Hf].
      apply Forall_app; split.
      * eapply Forall_impl; [|exact Hf]. intros t. apply has_suffix_contains.
      * constructor; [|constructor].
        rewrite Part000Facts.substring_from_skipn
          by apply (Part000Facts.inv_range _ _ HI).
        destruct (indexOf_found _ _ _ (Part000Facts.inv_range _ _ HI) E)
          as (pre & post & H & _).
        exists pre, post. exact H.
  - intros st HI _. apply Hdone; exact HI.
  - split; [apply Part000Facts.part000_inv_init | constructor].
Qed.

Lemma filter_contains (p : code_unit -> bool) (s pat : jsstring) :
  forallb p pat = true -> contains s pat -> contains (filter p s) pat.
Proof.
  intros Hp (pre & post & ->). exists (filter p pre), (filter p post).
  rewrite !filter_app. f_equal. f_equal.
  clear - Hp. induction pat as [|c pat IH]; [reflexivity|].
  simpl in *. apply andb_true_iff in Hp as [Hc Hp].
  rewrite Hc, IH by exact Hp. reflexivity.
Qed.

End TokenShape.

(** X8: the tokens of [splitCourts] end with "裁判所": all of them in
    [src/main.ts] when the text has two or more "裁判所", and all but the
    last in [src/unnamed/part_000], whose last token holds a "裁判所"
    and then the rest of the text. *)
Theorem splitCourts_token_shape (text : jsstring) :
  ((2 <= occurrences saibansho text)%nat ->
   Forall (fun t => has_suffix t saibansho) (Main.splitCourts text)) /\
  Forall (fun t => contains t saibansho) (Part000.splitCourts text) /\
  Forall (fun t => has_suffix t saibansho)
    (removelast (Part000.splitCourts text)).
Proof.
  split; [|apply Part000_loop_shape].
  intros Hocc. unfold Main.splitCourts, len_list.
  rewrite Main_loop_count.
  replace (Z.of_nat (occurrences saibansho text) <? 2) with false
    by (symmetry; apply Z.ltb_ge; lia).
  destruct (MainFacts.main_loop_exit text) as [[_ _ _ Htok] _]. exact Htok.
Qed.

Lemma splitCourts_token_shape_witness :
  (2 <= occurrences saibansho (tokyo_chisai ++ tokyo_kasai))%nat /\
  Forall (fun t => has_suffix t saibansho)
    (Main.splitCourts (tokyo_chisai ++ tokyo_kasai)).
Proof.
  assert (H : (2 <= occurrences saibansho (tokyo_chisai ++ tokyo_kasai))%nat)
    by (vm_compute; lia).
  split; [exact H | exact (proj1 (splitCourts_token_shape _) H)].
Defined.

(** X9: every name that [scrapePage] of [src/unnamed/part_000] returns
    holds "裁判所": a line without it, such as the name of a branch alone,
    leaves no name in the result. *)
Theorem part000_names_hold_saibansho (u : jsstring) (document : Part000.page)
    (x : jsstring) :
  In x (Part000.extract u document) -> contains x saibansho.
Proof.
  unfold Part000.extract. intros H. apply (proj1 (aggregate_In _ _)) in H.
  apply filter_In in H as [H _].
  apply in_map_iff in H as (t & <- & Ht).
  apply in_flat_map in Ht as (line & _ & Ht).
  rewrite cleanup_remove_class. unfold remove_class.
  apply filter_contains; [reflexivity|].
  destruct (Part000_loop_shape line) as [Hall _].
  rewrite Forall_forall in Hall. exact (Hall t Ht).
Qed.

Lemma part000_names_hold_saibansho_witness :
  In tokyo_chisai
    (Part000.extract url_tokyo
       (Part000.mkPage [tokyo_chisai; tachikawa_shibu] [])) /\
  contains tokyo_chisai saibansho.
Proof.
  assert (H : In tokyo_chisai
                (Part000.extract url_tokyo
                   (Part000.mkPage [tokyo_chisai; tachikawa_shibu] [])))
    by (vm_compute; left; reflexivity).
  split; [exact H | exact (part000_names_hold_saibansho _ _ _ H)].
Defined.

(** ** The URLs of a run and the names of its files *)

Section UrlFacts.

Lemma indexOf_0_Some (s pat : jsstring) :
  indexOf s pat 0 <> -1 <-> contains s pat.
Proof.
  split.
  - unfold indexOf, clamp.
    replace (Z.to_nat _) with 0%nat by (unfold len; lia). simpl.
    destruct (find_from pat s 0) as [i|] eqn:E; [|congruence].
    intros _. apply find_from_Some in E as (pre & post & H & _).
    exists pre, post. exact H.
  - intros H E. apply indexOf_0_None in E. contradiction.
Qed.

Lemma found_spec (s pat : jsstring) :
  negb (indexOf s pat 0 =? -1) = true <-> contains s pat.
Proof.
  rewrite negb_true_iff, Z.eqb_neq. apply indexOf_0_Some.
Qed.

Lemma replace_first_prefix (pat rep rest : jsstring) :
  replace_first pat rep (pat ++ rest) = rep ++ rest.
Proof.
  destruct (pat ++ rest) as [|c t] eqn:E; simpl.
  - destruct pat; [|discriminate]. simpl in E. subst. reflexivity.
  - rewrite <- E, startsWith_app. f_equal. apply skipn_prefix; reflexivity.
Qed.

Lemma replace_first_absent (pat rep s : jsstring) :
  ~ contains s pat -> replace_first pat rep s = s.
Proof.
  induction s as [|c s IH]; intros H; simpl.
  - destruct (startsWith pat []) eqn:E; [|reflexivity].
    exfalso. apply H. apply startsWith_prefix in E as [r E].
    exists [], r. exact E.
  - destruct (startsWith pat (c :: s)) eqn:E.
    + exfalso. apply H. apply startsWith_prefix in E as [r E].
      exists [], r. exact E.
    + rewrite IH; [reflexivity|]. intros (pre & post & ->).
      apply H. exists (c :: pre), post. reflexivity.
Qed.

Lemma wanted_main_part000 (href : jsstring) :
  wanted_main href = true -> wanted_part000 href = true.
Proof.
  unfold wanted_main, wanted_part000.
  rewrite !orb_true_iff, !found_spec. intros [H|H]; [left|right; exact H].
  destruct H as (pre & post & ->).
  exists pre, (lit "/index.html"%string ++ post).
  change (lit "syozai/index.html"%string)
    with (lit "syozai"%string ++ lit "/index.html"%string).
  rewrite <- !app_assoc. reflexivity.
Qed.

Lemma collect_urls_In (wanted : jsstring -> bool)
    (hrefs : list (option jsstring)) (u : jsstring) :
  In u (collect_urls wanted hrefs) <->
  exists href, In (Some href) hrefs /\ wanted href = true /\
               u = replace_first (lit "./../../"%string) courts_root href.
Proof.
  unfold collect_urls. rewrite new_Set_In, in_map_iff. split.
  - intros (h & <- & Hh). apply filter_In in Hh as [Hh Hw].
    apply in_flat_map in Hh as ([x|] & Hx & Hin); [|destruct Hin].
    destruct Hin as [->|[]]. exists h. auto.
  - intros (h & Hh & Hw & ->). exists h. split; [reflexivity|].
    apply filter_In. split; [|exact Hw].
    apply in_flat_map. exists (Some h). split; [exact Hh|left; reflexivity].
Qed.

End UrlFacts.

(** X10: the URLs that [getBaseUrls] returns are the [href]s of the index
    page that pass the path test, with the first "./../../" replaced by
    the site root, each URL once; run on them, [scrapePages] requests no
    page twice. An [href] that starts with "./../../" becomes the root
    followed by the rest, and one without "./../../" is left as it is. *)
Theorem getBaseUrls_urls (wanted : jsstring -> bool)
    (hrefs : list (option jsstring))
    (web : nat -> jsstring -> response (list Main.anchor)) (delayMs : Z) :
  NoDup (collect_urls wanted hrefs) /\
  (forall u,
      In u (collect_urls wanted hrefs) <->
      exists href, In (Some href) hrefs /\ wanted href = true /\
                   u = replace_first (lit "./../../"%string) courts_root href) /\
  NoDup (fetched (trace (Main.scrapePages web (collect_urls wanted hrefs)
                           delayMs))) /\
  (forall path,
      replace_first (lit "./../../"%string) courts_root
        (lit "./../../"%string ++ path) = courts_root ++ path) /\
  (forall href,
      ~ contains href (lit "./../../"%string) ->
      replace_first (lit "./../../"%string) courts_root href = href).
Proof.
  split; [apply new_Set_NoDup|].
  split; [intros u; apply collect_urls_In|].
  split; [|split].
  - unfold Main.scrapePages. rewrite MainCrawl.main_for_loop_fetched.
    simpl. apply new_Set_NoDup.
  - intros path. apply replace_first_prefix.
  - intros href. apply replace_first_absent.
Qed.

Lemma getBaseUrls_urls_witness :
  ~ contains url_tokyo (lit "./../../"%string) /\
  replace_first (lit "./../../"%string) courts_root url_tokyo = url_tokyo.
Proof.
  assert (H : ~ contains url_tokyo (lit "./../../"%string))
    by (apply indexOf_0_None; vm_compute; reflexivity).
  split; [exact H|].
  exact (proj2 (proj2 (proj2 (proj2
           (getBaseUrls_urls wanted_main [] one_site 3000)))) url_tokyo H).
Defined.

(** X11: every link that the path test of [src/main.ts] follows is
    followed by the test of [src/unnamed/part_000] too, so on the same
    index page [getBaseUrls] of [part_000] returns every URL that
    [getBaseUrls] of [src/main.ts] returns. *)
Theorem part000_follows_more_links (hrefs : list (option jsstring))
    (u : jsstring) :
  In u (collect_urls wanted_main hrefs) ->
  In u (collect_urls wanted_part000 hrefs).
Proof.
  rewrite !collect_urls_In. intros (h & Hh & Hw & ->).
  exists h. split; [exact Hh|]. split; [|reflexivity].
  apply wanted_main_part000; exact Hw.
Qed.

Lemma part000_follows_more_links_witness :
  In url_tokyo
    (collect_urls wanted_main
       [Some (lit "./../../tokyo/about/syozai/index.html"%string)]) /\
  In url_tokyo
    (collect_urls wanted_part000
       [Some (lit "./../../tokyo/about/syozai/index.html"%string)]).
Proof.
  assert (H : In url_tokyo
                (collect_urls wanted_main
                   [Some (lit "./../../tokyo/about/syozai/index.html"%string)]))
    by (vm_compute; left; reflexivity).
  split; [exact H | exact (part000_follows_more_links _ _ H)].
Defined.

Section FileNameFacts.

Lemma getTimestamp_In (iso : jsstring) (c : code_unit) :
  In c (getTimestamp iso) ->
  (c = 0x2D%N \/ In c iso) /\ c <> 0x3A%N /\ c <> 0x2E%N.
Proof.
  unfold getTimestamp, replace_class. intros H.
  apply in_flat_map in H as (x & Hx & H).
  destruct ((x =? 0x3A)%N || (x =? 0x2E)%N) eqn:E.
  - destruct H as [<-|[]]. repeat split; [left; reflexivity | | ];
      discriminate.
  - destruct H as [<-|[]]. apply orb_false_iff in E as [E1 E2].
    apply N.eqb_neq in E1, E2. auto.
Qed.

Lemma getTimestamp_length (iso : jsstring) :
  length (getTimestamp iso) = length iso.
Proof.
  unfold getTimestamp, replace_class.
  induction iso as [|c iso IH]; [reflexivity|].
  cbn [flat_map]. rewrite length_app, IH.
  destruct ((c =? 0x3A)%N || (c =? 0x2E)%N); reflexivity.
Qed.

Lemma hd_split_no_sep (sep : code_unit) (s : jsstring) :
  ~ In sep (hd [] (split sep s)).
Proof.
  pose proof (split_pieces sep s) as H.
  destruct (split sep s) as [|x l]; simpl; [auto|].
  inversion H; assumption.
Qed.

Lemma hd_split_app (sep : code_unit) (x rest : jsstring) :
  ~ In sep x -> hd [] (split sep (x ++ sep :: rest)) = x.
Proof. intros H. rewrite split_app_sep by exact H. reflexivity. Qed.

End FileNameFacts.

(** X12: the file of a URL is named after the first directory under the
    site root: for "https://www.courts.go.jp/" followed by a directory
    name, a slash and anything, [filenameFromURL] gives the time stamp,
    "_", the directory name and ".txt". Whatever the URL, the name holds
    no "/" as long as the time stamp holds none; the time stamp has the
    length of the ISO string and holds neither ":" nor ".". *)
Theorem filenameFromURL_spec (iso : jsstring) :
  (forall dir rest,
      ~ In 0x2F%N dir ->
      filenameFromURL iso (courts_root ++ dir ++ [0x2F%N] ++ rest)
      = getTimestamp iso ++ lit "_"%string ++ dir ++ lit ".txt"%string) /\
  (forall u, ~ In 0x2F%N iso -> ~ In 0x2F%N (filenameFromURL iso u)) /\
  length (getTimestamp iso) = length iso /\
  ~ In 0x3A%N (getTimestamp iso) /\ ~ In 0x2E%N (getTimestamp iso).
Proof.
  split; [|split; [|split; [apply getTimestamp_length|split]]].
  - intros dir rest Hd. unfold filenameFromURL, basename_of.
    rewrite replace_first_prefix. simpl app at 1.
    rewrite hd_split_app by exact Hd. reflexivity.
  - intros u Hiso Hin. unfold filenameFromURL in Hin.
    apply in_app_or in Hin as [Hin|Hin].
    { apply getTimestamp_In in Hin as [[H|H] _]; [discriminate|auto]. }
    apply in_app_or in Hin as [Hin|Hin].
    { destruct Hin as [H|[]]. discriminate. }
    apply in_app_or in Hin as [Hin|Hin].
    { exact (hd_split_no_sep _ _ Hin). }
    simpl in Hin. intuition discriminate.
  - intros H. apply getTimestamp_In in H. tauto.
  - intros H. apply getTimestamp_In in H. tauto.
Qed.

Lemma filenameFromURL_spec_witness :
  ~ In 0x2F%N (lit "tokyo"%string) /\
  filenameFromURL (lit "2023-10-15T12:34:56.789Z"%string) url_tokyo
  = lit "2023-10-15T12-34-56-789Z_tokyo.txt"%string /\
  ~ In 0x2F%N (lit "2023-10-15T12:34:56.789Z"%string) /\
  ~ In 0x2F%N
      (filenameFromURL (lit "2023-10-15T12:34:56.789Z"%string) url_saikosai).
Proof.
  assert (H : ~ In 0x2F%N (lit "tokyo"%string))
    by (simpl; intuition discriminate).
  assert (H' : ~ In 0x2F%N (lit "2023-10-15T12:34:56.789Z"%string))
    by (simpl; intuition discriminate).
  split; [exact H|]. split; [|split; [exact H'|]].
  - exact (proj1 (filenameFromURL_spec
                    (lit "2023-10-15T12:34:56.789Z"%string))
             (lit "tokyo"%string) (lit "about/syozai/index.html"%string) H).
  - exact (proj1 (proj2 (filenameFromURL_spec
                           (lit "2023-10-15T12:34:56.789Z"%string)))
             url_saikosai H').
Defined.

(** ** The writes of [main] *)

Section MainWrites.

Lemma main_for_loop_no_write
    (web : nat -> jsstring -> response (list Main.anchor))
    (n d : Z) (rest : list jsstring) (i : nat) (r : run jsstring) :
  filter is_write (trace (Main.for_loop web n d i rest r))
  = filter is_write (trace r).
Proof.
  revert i r; induction rest as [|u rest IH]; intros i r; simpl.
  - reflexivity.
  - rewrite IH. crawl_pass Main.pass.
Qed.

Lemma part000_for_loop_no_write
    (web : nat -> jsstring -> response Part000.page)
    (n d : Z) (rest : list jsstring) (i : nat) (r : run jsstring) :
  filter is_write (trace (Part000.for_loop web n d i rest r))
  = filter is_write (trace r).
Proof.
  revert i r; induction rest as [|u rest IH]; intros i r; simpl.
  - reflexivity.
  - rewrite IH. crawl_pass Part000.pass.
Qed.

Lemma part001_for_loop_no_write
    (web : nat -> jsstring -> response (list jsstring))
    (n d : Z) (rest : list jsstring) (i : nat) (r : run jsstring) :
  filter is_write (trace (Part001Crawl.for_loop web n d i rest r))
  = filter is_write (trace r).
Proof.
  revert i r; induction rest as [|u rest IH]; intros i r; simpl.
  - reflexivity.
  - rewrite IH. crawl_pass Part001Crawl.pass.
Qed.

Lemma no_write_writes (tr : list event) :
  filter is_write tr = [] -> writes tr = [] /\ filter is_rejected tr = [].
Proof.
  induction tr as [|e tr IH]; simpl; [auto|].
  destruct e; simpl; try discriminate; exact IH.
Qed.

Lemma writes_app (a b : list event) : writes (a ++ b) = writes a ++ writes b.
Proof. apply flat_map_app. Qed.

Variable disk : nat -> bool.

Lemma save_each_ok (rs : list (ScrapeResult jsstring)) (k : nat) :
  snd (save_each disk k rs) = true ->
  writes (fst (fst (save_each disk k rs))) = map source_file rs.
Proof.
  revert k; induction rs as [|r rs IH]; intros k; simpl; [reflexivity|].
  unfold saveAsFile. destruct (disk k); [|discriminate].
  specialize (IH (S k)). destruct (save_each disk (S k) rs) as [[es k'] ok].
  simpl in *. intros H. rewrite IH by exact H. reflexivity.
Qed.

Lemma save_each_failed (rs : list (ScrapeResult jsstring)) (k : nat) :
  snd (save_each disk k rs) = false ->
  exists es0 f,
    fst (fst (save_each disk k rs))
    = es0 ++ [WriteRejected f; ConsoleError WriteError] /\
    filter is_rejected es0 = [].
Proof.
  revert k; induction rs as [|r rs IH]; intros k; simpl; [discriminate|].
  unfold saveAsFile. destruct (disk k).
  - specialize (IH (S k)). destruct (save_each disk (S k) rs) as [[es k'] ok].
    simpl in *. intros H. destruct (IH H) as (es0 & f & -> & Hq).
    exists (WriteTextFile (SourceFile (url r)) (join [LF] (data r)) :: es0), f.
    split; [reflexivity | exact Hq].
  - intros _. exists [], (SourceFile (url r)). split; reflexivity.
Qed.

Lemma save_each_rejections (rs : list (ScrapeResult jsstring)) (k : nat) :
  snd (save_each disk k rs) = true ->
  filter is_rejected (fst (fst (save_each disk k rs))) = [].
Proof.
  revert k; induction rs as [|r rs IH]; intros k; simpl; [reflexivity|].
  unfold saveAsFile. destruct (disk k); [|discriminate].
  specialize (IH (S k)). destruct (save_each disk (S k) rs) as [[es k'] ok].
  simpl in *. exact IH.
Qed.

Lemma write_out_ok (rs : list (ScrapeResult jsstring)) (all : list jsstring) :
  snd (write_out disk rs all) = true ->
  writes (fst (write_out disk rs all))
  = map source_file rs
    ++ (if 0 <? len_list all then [(CombinedFile, join [LF] all)] else []).
Proof.
  unfold write_out. pose proof (save_each_ok rs 0) as Hs.
  destruct (save_each disk 0 rs) as [[es k] ok]. simpl in Hs.
  destruct ok; [|discriminate]. rewrite <- Hs by reflexivity.
  destruct (0 <? len_list all).
  - unfold saveAsFile. destruct (disk k); [|discriminate].
    intros _. simpl. rewrite writes_app. reflexivity.
  - intros _. simpl. symmetry; apply app_nil_r.
Qed.

Lemma write_out_failed (rs : list (ScrapeResult jsstring))
    (all : list jsstring) :
  snd (write_out disk rs all) = false ->
  exists es0 f,
    fst (write_out disk rs all)
    = es0 ++ [WriteRejected f; ConsoleError WriteError] /\
    filter is_rejected es0 = [].
Proof.
  unfold write_out. pose proof (save_each_failed rs 0) as Hf.
  pose proof (save_each_rejections rs 0) as Hr.
  destruct (save_each disk 0 rs) as [[es k] ok]. simpl in Hf, Hr.
  destruct ok; [|intros _; apply Hf; reflexivity].
  destruct (0 <? len_list all); [|discriminate].
  unfold saveAsFile. destruct (disk k); [discriminate|].
  intros _. exists es, CombinedFile. split; [reflexivity|].
  apply Hr; reflexivity.
Qed.

End MainWrites.

Lemma run_writes_ok (tr : list event) (disk : nat -> bool)
    (rs : list (ScrapeResult jsstring)) (all : list jsstring) :
  filter is_write tr = [] ->
  snd (write_out disk rs all) = true ->
  writes (tr ++ fst (write_out disk rs all))
  = map source_file rs
    ++ (if 0 <? len_list all then [(CombinedFile, join [LF] all)] else []).
Proof.
  intros Hq Hok. rewrite writes_app, (proj1 (no_write_writes tr Hq)).
  simpl. apply write_out_ok; exact Hok.
Qed.

Lemma run_write_failed (tr : list event) (disk : nat -> bool)
    (rs : list (ScrapeResult jsstring)) (all : list jsstring) :
  filter is_write tr = [] ->
  snd (write_out disk rs all) = false ->
  exists tr0 f,
    tr ++ fst (write_out disk rs all)
    = tr0 ++ [WriteRejected f; ConsoleError WriteError] /\
    filter is_rejected tr0 = [].
Proof.
  intros Hq Hko. destruct (write_out_failed disk rs all Hko)
    as (es0 & f & -> & Hr).
  exists (tr ++ es0), f. split; [apply app_assoc|].
  rewrite filter_app, (proj2 (no_write_writes tr Hq)), Hr. reflexivity.
Qed.

(** X13: when [main] returns, it has written one file per result of
    [scrapePages], in the order of the results and each holding the
    names of its result joined by line feeds, and then, when the
    combined list is not empty, the combined file; it has written
    nothing else. This holds for the three scripts. *)
Theorem main_writes_in_order
    (web : nat -> jsstring -> response (list Main.anchor))
    (web' : nat -> jsstring -> response Part000.page)
    (web'' : nat -> jsstring -> response (list jsstring))
    (disk : nat -> bool) (urls : list jsstring) :
  let r := Main.scrapePages web urls 3000 in
  let r' := Part000.scrapePages web' urls 1500 in
  let r'' := Part001Crawl.scrapePages web'' urls 3000 in
  let combined (all : list jsstring) :=
    if 0 <? len_list all then [(CombinedFile, join [LF] all)] else [] in
  (snd (Main.main web disk urls) = true ->
   writes (fst (Main.main web disk urls))
   = map source_file (pushed r) ++ combined (Main.allData (pushed r))) /\
  (snd (Part000.main web' disk urls) = true ->
   writes (fst (Part000.main web' disk urls))
   = map source_file (pushed r') ++ combined (Part000.allData (pushed r'))) /\
  (snd (Part001Crawl.main web'' disk urls) = true ->
   writes (fst (Part001Crawl.main web'' disk urls))
   = map source_file (pushed r'')
     ++ combined (flat_map data (pushed r''))).
Proof.
  cbv zeta. unfold Main.main, Part000.main, Part001Crawl.main.
  split; [|split].
  - set (r := Main.scrapePages web urls 3000).
    assert (Hq : filter is_write (trace r) = [])
      by (unfold r, Main.scrapePages; rewrite main_for_loop_no_write;
          reflexivity).
    pose proof (run_writes_ok (trace r) disk (pushed r)
                  (Main.allData (pushed r)) Hq) as H.
    destruct (write_out disk (pushed r) (Main.allData (pushed r)))
      as [es ok]. exact H.
  - set (r := Part000.scrapePages web' urls 1500).
    assert (Hq : filter is_write (trace r) = [])
      by (unfold r, Part000.scrapePages; rewrite part000_for_loop_no_write;
          reflexivity).
    pose proof (run_writes_ok (trace r) disk (pushed r)
                  (Part000.allData (pushed r)) Hq) as H.
    destruct (write_out disk (pushed r) (Part000.allData (pushed r)))
      as [es ok]. exact H.
  - set (r := Part001Crawl.scrapePages web'' urls 3000).
    assert (Hq : filter is_write (trace r) = [])
      by (unfold r, Part001Crawl.scrapePages;
          rewrite part001_for_loop_no_write; reflexivity).
    pose proof (run_writes_ok (trace r) disk (pushed r)
                  (flat_map data (pushed r)) Hq) as H.
    destruct (write_out disk (pushed r) (flat_map data (pushed r)))
      as [es ok]. exact H.
Qed.

Lemma main_writes_in_order_witness :
  snd (Main.main one_site disk_ok [url_tokyo; url_saikosai]) = true /\
  writes (fst (Main.main one_site disk_ok [url_tokyo; url_saikosai]))
  = [(SourceFile url_tokyo, tokyo_chisai);
     (SourceFile url_saikosai, tokyo_chisai);
     (CombinedFile, tokyo_chisai ++ [LF] ++ tokyo_chisai)] /\
  snd (Part000.main two_sites disk_ok [url_tokyo; url_saikosai]) = true /\
  writes (fst (Part000.main two_sites disk_ok [url_tokyo; url_saikosai]))
  = [(SourceFile url_tokyo, tokyo_chisai);
     (SourceFile url_saikosai, saikosai);
     (CombinedFile, tokyo_chisai ++ [LF] ++ saikosai)] /\
  snd (Part001Crawl.main one_link disk_ok [url_tokyo]) = true /\
  writes (fst (Part001Crawl.main one_link disk_ok [url_tokyo]))
  = [(SourceFile url_tokyo, tokyo_chisai); (CombinedFile, tokyo_chisai)].
Proof.
  pose proof (main_writes_in_order one_site two_sites one_link disk_ok
                [url_tokyo; url_saikosai]) as H2.
  pose proof (main_writes_in_order one_site two_sites one_link disk_ok
                [url_tokyo]) as H1.
  cbv zeta in H1, H2.
  destruct H2 as (Ha & Hb & _). destruct H1 as (_ & _ & Hc).
  split; [vm_compute; reflexivity|].
  split; [rewrite Ha by (vm_compute; reflexivity); vm_compute; reflexivity|].
  split; [vm_compute; reflexivity|].
  split; [rewrite Hb by (vm_compute; reflexivity); vm_compute; reflexivity|].
  split; [vm_compute; reflexivity|].
  rewrite Hc by (vm_compute; reflexivity); vm_compute; reflexivity.
Defined.

(** X14: when a write fails, [main] stops there: the rejected write and
    the error that [saveAsFile] logs for it are the last two events of
    the run, and no write was rejected before it. This holds for the
    three scripts. *)
Theorem failed_write_ends_main
    (web : nat -> jsstring -> response (list Main.anchor))
    (web' : nat -> jsstring -> response Part000.page)
    (web'' : nat -> jsstring -> response (list jsstring))
    (disk : nat -> bool) (urls : list jsstring) :
  let stops_at_failure (tr : list event) :=
    exists tr0 f,
      tr = tr0 ++ [WriteRejected f; ConsoleError WriteError] /\
      filter is_rejected tr0 = [] in
  (snd (Main.main web disk urls) = false ->
   stops_at_failure (fst (Main.main web disk urls))) /\
  (snd (Part000.main web' disk urls) = false ->
   stops_at_failure (fst (Part000.main web' disk urls))) /\
  (snd (Part001Crawl.main web'' disk urls) = false ->
   stops_at_failure (fst (Part001Crawl.main web'' disk urls))).
Proof.
  cbv zeta. unfold Main.main, Part000.main, Part001Crawl.main.
  split; [|split].
  - set (r := Main.scrapePages web urls 3000).
    assert (Hq : filter is_write (trace r) = [])
      by (unfold r, Main.scrapePages; rewrite main_for_loop_no_write;
          reflexivity).
    pose proof (run_write_failed (trace r) disk (pushed r)
                  (Main.allData (pushed r)) Hq) as H.
    destruct (write_out disk (pushed r) (Main.allData (pushed r)))
      as [es ok]. exact H.
  - set (r := Part000.scrapePages web' urls 1500).
    assert (Hq : filter is_write (trace r) = [])
      by (unfold r, Part000.scrapePages; rewrite part000_for_loop_no_write;
          reflexivity).
    pose proof (run_write_failed (trace r) disk (pushed r)
                  (Part000.allData (pushed r)) Hq) as H.
    destruct (write_out disk (pushed r) (Part000.allData (pushed r)))
      as [es ok]. exact H.
  - set (r := Part001Crawl.scrapePages web'' urls 3000).
    assert (Hq : filter is_write (trace r) = [])
      by (unfold r, Part001Crawl.scrapePages;
          rewrite part001_for_loop_no_write; reflexivity).
    pose proof (run_write_failed (trace r) disk (pushed r)
                  (flat_map data (pushed r)) Hq) as H.
    destruct (write_out disk (pushed r) (flat_map data (pushed r)))
      as [es ok]. exact H.
Qed.

Lemma failed_write_ends_main_witness :
  snd (Main.main one_site disk_full [url_tokyo]) = false /\
  exists tr0 f,
    fst (Main.main one_site disk_full [url_tokyo])
    = tr0 ++ [WriteRejected f; ConsoleError WriteError] /\
    filter is_rejected tr0 = [].
Proof.
  split; [vm_compute; reflexivity|].
  apply (proj1 (failed_write_ends_main one_site two_sites one_link disk_full
                  [url_tokyo])).
  vm_compute; reflexivity.
Defined.

(** ** The names of the table scraper *)

Section CourtNameFacts.

Lemma collapse_spaces (b : bool) (s : jsstring) (c : code_unit) :
  In c (Csv.collapse b s) -> is_space c = true -> c = 0x20%N.
Proof.
  revert b; induction s as [|x s IH]; intros b; simpl; [tauto|].
  destruct (is_space x) eqn:Hx.
  - destruct b; simpl.
    + apply IH.
    + intros [<-|H]; [reflexivity | apply (IH true H)].
  - simpl. intros [<-|H] Hc; [congruence | apply (IH false H Hc)].
Qed.

Lemma collapse_single_spaced (b : bool) (s : jsstring) :
  single_spaced b (Csv.collapse b s) = true.
Proof.
  revert b; induction s as [|x s IH]; intros b; simpl; [reflexivity|].
  destruct (is_space x) eqn:Hx.
  - destruct b; simpl; apply IH.
  - simpl. rewrite Hx. apply IH.
Qed.

Lemma collapse_keeps_rest (b : bool) (s : jsstring) :
  remove_class is_space (Csv.collapse b s) = remove_class is_space s.
Proof.
  unfold remove_class.
  revert b; induction s as [|x s IH]; intros b; simpl; [reflexivity|].
  destruct (is_space x) eqn:Hx; simpl.
  - destruct b; simpl; apply IH.
  - rewrite Hx. simpl. f_equal. apply IH.
Qed.

Lemma single_spaced_weaken (b : bool) (s : jsstring) :
  single_spaced b s = true -> single_spaced false s = true.
Proof.
  destruct s as [|c s]; simpl; [auto|].
  destruct (is_space c); [|auto]. destruct b; simpl; [discriminate | auto].
Qed.

Lemma single_spaced_suffix (b : bool) (l m : jsstring) :
  single_spaced b (l ++ m) = true -> single_spaced false m = true.
Proof.
  revert b; induction l as [|c l IH]; intros b; simpl.
  - apply single_spaced_weaken.
  - destruct (is_space c).
    + intros H. apply andb_prop in H. apply (IH true (proj2 H)).
    + apply IH.
Qed.

Lemma single_spaced_prefix (b : bool) (m r : jsstring) :
  single_spaced b (m ++ r) = true -> single_spaced b m = true.
Proof.
  revert b; induction m as [|c m IH]; intros b; simpl; [reflexivity|].
  destruct (is_space c).
  - intros H. apply andb_prop in H. destruct H as [-> H]. simpl.
    apply (IH true H).
  - apply IH.
Qed.

Lemma single_spaced_no_double (b : bool) (pre post : jsstring) :
  single_spaced b (pre ++ [0x20; 0x20]%N ++ post) = false.
Proof.
  revert b; induction pre as [|c pre IH]; intros b; simpl.
  - apply andb_false_r.
  - destruct (is_space c); [rewrite IH; apply andb_false_r | apply IH].
Qed.

Lemma collapse_fixed (b : bool) (s : jsstring) :
  single_spaced b s = true ->
  (forall c, In c s -> is_space c = true -> c = 0x20%N) ->
  Csv.collapse b s = s.
Proof.
  revert b; induction s as [|x s IH]; intros b; simpl; [reflexivity|].
  intros Hs Hc. destruct (is_space x) eqn:Hx.
  - apply andb_prop in Hs. destruct Hs as [Hb Hs].
    destruct b; [discriminate|].
    assert (Ex : x = 0x20%N) by (apply Hc; [left; reflexivity | exact Hx]).
    rewrite Ex. f_equal.
    apply IH; [exact Hs | intros c Hin; apply Hc; right; exact Hin].
  - f_equal. apply IH; [exact Hs | intros c Hin; apply Hc; right; exact Hin].
Qed.

Lemma trim_keeps_rest (s : jsstring) :
  remove_class is_space (trim s) = remove_class is_space s.
Proof.
  destruct (trim_split s) as (l & r & Hs & Hl & Hr).
  assert (Hnone : forall x, forallb is_space x = true ->
                            remove_class is_space x = []).
  { unfold remove_class. induction x as [|c x IH]; simpl; [reflexivity|].
    intros H. apply andb_prop in H. destruct H as [-> H]. simpl.
    apply IH; exact H. }
  rewrite Hs at 2. unfold remove_class in *.
  rewrite !filter_app, (Hnone l Hl), (Hnone r Hr), app_nil_r. reflexivity.
Qed.

Lemma court_name_single_spaced (text : jsstring) :
  single_spaced false (Csv.court_name text) = true.
Proof.
  unfold Csv.court_name.
  destruct (trim_split (Csv.collapse false text)) as (l & r & Hs & _ & _).
  pose proof (collapse_single_spaced false text) as H. rewrite Hs in H.
  apply single_spaced_suffix in H. apply single_spaced_prefix in H. exact H.
Qed.

Lemma court_name_spaces (text : jsstring) (c : code_unit) :
  In c (Csv.court_name text) -> is_space c = true -> c = 0x20%N.
Proof.
  unfold Csv.court_name. intros H. apply trim_incl in H.
  apply (collapse_spaces false text c H).
Qed.

End CourtNameFacts.

(** X15: the name that the table scraper reads off a [th] is in normal
    form whatever the cell holds: its only white space is U+0020 (so it
    has no line feed or tab), never twice in a row and never at either
    end; the other code units are those of the cell, in their order; a
    name that went through once is left as it is. *)
Theorem court_name_normal_form (text : jsstring) :
  let name := Csv.court_name text in
  (forall c, In c name -> is_space c = true -> c = 0x20%N) /\
  ~ contains name [0x20; 0x20]%N /\
  (forall c t, name = c :: t -> is_space c = false) /\
  (forall c t, name = t ++ [c] -> is_space c = false) /\
  remove_class is_space name = remove_class is_space text /\
  Csv.court_name name = name.
Proof.
  cbv zeta.
  pose proof (court_name_single_spaced text) as Hss.
  pose proof (court_name_spaces text) as Hsp.
  split; [exact Hsp|]. split.
  { intros (pre & post & H). rewrite H in Hss.
    rewrite single_spaced_no_double in Hss. discriminate. }
  split; [|split; [|split]].
  - unfold Csv.court_name. apply trim_spec_aux.
  - unfold Csv.court_name. apply trim_spec_aux.
  - unfold Csv.court_name. rewrite trim_keeps_rest.
    apply collapse_keeps_rest.
  - unfold Csv.court_name at 1.
    rewrite (collapse_fixed false _ Hss Hsp).
    unfold Csv.court_name. apply trim_spec_aux.
Qed.

(** ** The rows of the table scraper *)

Section CsvRows.

Lemma courts_of_rows (rows : list Csv.row) (courts : list Csv.CourtInfo) :
  Csv.courts_of rows = Some courts ->
  Forall2 (fun r c => Csv.court_of r = Some c) rows courts.
Proof.
  revert courts; induction rows as [|r rows IH]; intros courts; simpl.
  - intros [= <-]. constructor.
  - destruct (Csv.court_of r) as [c|] eqn:Hc; [|discriminate].
    destruct (Csv.courts_of rows) as [cs|]; [|discriminate].
    intros [= <-]. constructor; [exact Hc | apply IH; reflexivity].
Qed.

Lemma courts_of_all (rows : list Csv.row) :
  (forall r, In r rows -> Csv.th r <> None) ->
  exists courts, Csv.courts_of rows = Some courts.
Proof.
  induction rows as [|r rows IH]; simpl; intros H; [eauto|].
  destruct IH as [cs Hcs]; [intros x Hx; apply H; right; exact Hx|].
  unfold Csv.court_of. destruct (Csv.th r) as [t|] eqn:Ht.
  - rewrite Hcs. eauto.
  - exfalso. apply (H r (or_introl eq_refl)). exact Ht.
Qed.

Lemma courts_of_one_bad (rows : list Csv.row) (r : Csv.row) :
  In r rows -> Csv.th r = None -> Csv.courts_of rows = None.
Proof.
  induction rows as [|x rows IH]; simpl; [tauto|].
  intros [->|Hin] Hr.
  - unfold Csv.court_of. rewrite Hr. reflexivity.
  - rewrite (IH Hin Hr). destruct (Csv.court_of x); reflexivity.
Qed.

Lemma court_of_fields (r : Csv.row) (c : Csv.CourtInfo) :
  Csv.court_of r = Some c ->
  exists text,
    Csv.th r = Some text /\
    Csv.name c = Csv.court_name text /\
    Csv.place c = option_map trim (nth_error (Csv.tds r) 0) /\
    Csv.tel c = option_map trim (nth_error (Csv.tds r) 1).
Proof.
  unfold Csv.court_of. destruct (Csv.th r) as [t|]; [|discriminate].
  cbv zeta. intros [= <-]. exists t. cbn [Csv.name Csv.place Csv.tel].
  split; [reflexivity|]. split; [reflexivity|].
  destruct (Csv.tds r) as [|a [|b l]]; split; reflexivity.
Qed.

End CsvRows.

(** X16: the table scraper takes a page row by row, all or nothing. When
    every row has a [th], the page gives one record per row, in the
    order of the rows: the name is the normalized text of the [th], the
    place and the telephone number are the trimmed first and second
    [td], and are undefined when the row has no such cell. When one row
    has no [th], the whole page fails with a type error that names the
    URL, and the records of the other rows are lost with it. *)
Theorem Csv_scrapePage_rows (u : jsstring) (rows : list Csv.row) :
  ((forall r, In r rows -> Csv.th r <> None) ->
   exists courts,
     Csv.scrapePage u (Parsed rows) = inr courts /\
     Forall2 (fun r c =>
                exists text,
                  Csv.th r = Some text /\
                  Csv.name c = Csv.court_name text /\
                  Csv.place c = option_map trim (nth_error (Csv.tds r) 0) /\
                  Csv.tel c = option_map trim (nth_error (Csv.tds r) 1))
             rows courts) /\
  (forall r, In r rows -> Csv.th r = None ->
             Csv.scrapePage u (Parsed rows) = inl (u, Csv.TypeError)).
Proof.
  split.
  - intros H. destruct (courts_of_all rows H) as [courts Hc].
    exists courts. unfold Csv.scrapePage. rewrite Hc. split; [reflexivity|].
    apply courts_of_rows in Hc.
    induction Hc as [|r c rows' courts' Hrc _ IH]; constructor.
    + apply court_of_fields; exact Hrc.
    + apply IH. intros x Hx. apply H. right. exact Hx.
  - intros r Hin Hr. unfold Csv.scrapePage.
    rewrite (courts_of_one_bad rows r Hin Hr). reflexivity.
Qed.

Lemma Csv_scrapePage_rows_witness :
  (forall r, In r table_ok -> Csv.th r <> None) /\
  (exists courts,
     Csv.scrapePage url_choutei (Parsed table_ok) = inr courts /\
     length courts = 2%nat) /\
  In row_without_th table_broken /\ Csv.th row_without_th = None /\
  Csv.scrapePage url_choutei (Parsed table_broken)
  = inl (url_choutei, Csv.TypeError).
Proof.
  assert (H : forall r, In r table_ok -> Csv.th r <> None).
  { intros r [<-|[<-|[]]]; discriminate. }
  assert (Hin : In row_without_th table_broken)
    by (right; right; left; reflexivity).
  split; [exact H|]. split; [|split; [exact Hin|split; [reflexivity|]]].
  - destruct (proj1 (Csv_scrapePage_rows url_choutei table_ok) H)
      as (courts & Hc & Hrows).
    exists courts. split; [exact Hc|].
    symmetry. exact (Forall2_length Hrows).
  - exact (proj2 (Csv_scrapePage_rows url_choutei table_broken)
             row_without_th Hin eq_refl).
Defined.

(** ** The files of the table scraper *)

Section CsvFileFacts.

Lemma split_app (sep : code_unit) (a rest : jsstring) :
  split sep (a ++ sep :: rest) = split sep a ++ split sep rest.
Proof.
  induction a as [|c a IH]; simpl.
  - rewrite N.eqb_refl. reflexivity.
  - rewrite IH. destruct (c =? sep)%N; [reflexivity|].
    pose proof (split_not_nil sep a) as Hne.
    destruct (split sep a) as [|l ls]; [congruence | reflexivity].
Qed.

Lemma last_app_right {A : Type} (l1 l2 : list A) (d : A) :
  l2 <> [] -> last (l1 ++ l2) d = last l2 d.
Proof.
  intros Hne. induction l1 as [|x l1 IH]; [reflexivity|].
  change ((x :: l1) ++ l2) with (x :: (l1 ++ l2)).
  destruct (l1 ++ l2) as [|y l] eqn:E.
  - apply app_eq_nil in E. tauto.
  - rewrite <- IH. reflexivity.
Qed.

Lemma last_split_app (sep : code_unit) (a rest : jsstring) :
  ~ In sep rest -> last (split sep (a ++ sep :: rest)) [] = rest.
Proof.
  intros H. rewrite split_app, last_app_right by apply split_not_nil.
  rewrite split_no_sep by exact H. reflexivity.
Qed.

Lemma last_In {A : Type} (l : list A) (d : A) : l <> [] -> In (last l d) l.
Proof.
  induction l as [|x l IH]; [congruence|]. intros _.
  destruct l as [|y l]; [left; reflexivity|].
  right. apply IH. discriminate.
Qed.

Lemma hd_split_incl (sep : code_unit) (s : jsstring) (c : code_unit) :
  In c (hd [] (split sep s)) -> In c s.
Proof.
  intros H. apply (split_incl sep s (hd [] (split sep s))); [|exact H].
  pose proof (split_not_nil sep s) as Hne.
  destruct (split sep s); [congruence | left; reflexivity].
Qed.

Lemma Csv_basename_no_slash (u : jsstring) : ~ In 0x2F%N (Csv.basename_of u).
Proof.
  unfold Csv.basename_of. intros H. apply hd_split_incl in H.
  pose proof (split_pieces 0x2F%N u) as Hp.
  rewrite Forall_forall in Hp.
  apply (Hp _ (last_In _ [] (split_not_nil _ u))). exact H.
Qed.

End CsvFileFacts.

(** X17: the CSV file of a URL is named after the last segment of its
    path, cut at the first dot: for a URL that ends in [/name.ext] the
    file is [court_data_name_] followed by the time stamp and [.csv].
    Whatever the URL, the part taken from it holds no slash and no dot,
    and the name of the file holds no slash, so the file is written to
    the working directory. *)
Theorem Csv_filenameFromURL_spec (iso : jsstring) :
  (forall dir name ext,
      ~ In 0x2F%N name -> ~ In 0x2E%N name -> ~ In 0x2F%N ext ->
      Csv.filenameFromURL iso (dir ++ [0x2F%N] ++ name ++ [0x2E%N] ++ ext)
      = lit "court_data_"%string ++ name ++ lit "_"%string
        ++ getTimestamp iso ++ lit ".csv"%string) /\
  (forall u, ~ In 0x2F%N (Csv.basename_of u) /\
             ~ In 0x2E%N (Csv.basename_of u)) /\
  (forall u, ~ In 0x2F%N iso -> ~ In 0x2F%N (Csv.filenameFromURL iso u)).
Proof.
  split; [|split].
  - intros dir name ext Hn Hd He. unfold Csv.filenameFromURL.
    do 2 f_equal. unfold Csv.basename_of.
    change (dir ++ [0x2F%N] ++ name ++ [0x2E%N] ++ ext)
      with (dir ++ 0x2F%N :: (name ++ 0x2E%N :: ext)).
    rewrite last_split_app.
    + apply hd_split_app; exact Hd.
    + intros H. apply in_app_or in H as [H|[H|H]];
        [auto | discriminate | auto].
  - intros u. split; [apply Csv_basename_no_slash|].
    apply hd_split_no_sep.
  - intros u Hiso Hin. unfold Csv.filenameFromURL in Hin.
    apply in_app_or in Hin as [Hin|Hin].
    { simpl in Hin. intuition discriminate. }
    apply in_app_or in Hin as [Hin|Hin].
    { exact (Csv_basename_no_slash u Hin). }
    apply in_app_or in Hin as [Hin|Hin].
    { destruct Hin as [H|[]]. discriminate. }
    apply in_app_or in Hin as [Hin|Hin].
    { apply getTimestamp_In in Hin as [[H|H] _]; [discriminate|auto]. }
    simpl in Hin. intuition discriminate.
Qed.

Lemma Csv_filenameFromURL_spec_witness :
  ~ In 0x2F%N (lit "tokyo"%string) /\ ~ In 0x2E%N (lit "tokyo"%string) /\
  ~ In 0x2F%N (lit "html"%string) /\
  Csv.filenameFromURL (lit "2023-10-15T12:34:56.789Z"%string) url_choutei
  = lit "court_data_tokyo_2023-10-15T12-34-56-789Z.csv"%string /\
  ~ In 0x2F%N (lit "2023-10-15T12:34:56.789Z"%string) /\
  ~ In 0x2F%N
      (Csv.filenameFromURL (lit "2023-10-15T12:34:56.789Z"%string)
         url_tokyo).
Proof.
  assert (H1 : ~ In 0x2F%N (lit "tokyo"%string))
    by (simpl; intuition discriminate).
  assert (H2 : ~ In 0x2E%N (lit "tokyo"%string))
    by (simpl; intuition discriminate).
  assert (H3 : ~ In 0x2F%N (lit "html"%string))
    by (simpl; intuition discriminate).
  assert (H4 : ~ In 0x2F%N (lit "2023-10-15T12:34:56.789Z"%string))
    by (simpl; intuition discriminate).
  split; [exact H1|]. split; [exact H2|]. split; [exact H3|].
  split; [|split; [exact H4|]].
  - exact (proj1 (Csv_filenameFromURL_spec
                    (lit "2023-10-15T12:34:56.789Z"%string))
             (lit "https://www.choutei.jp/courts/courts_family"%string)
             (lit "tokyo"%string) (lit "html"%string) H1 H2 H3).
  - exact (proj2 (proj2 (Csv_filenameFromURL_spec
                           (lit "2023-10-15T12:34:56.789Z"%string)))
             url_tokyo H4).
Defined.

(** ** The lines of a CSV file *)

Section CsvLines.

Lemma Forall2_In_right {A B : Type} (P : A -> B -> Prop)
    (l : list A) (l' : list B) (y : B) :
  Forall2 P l l' -> In y l' -> exists x, In x l /\ P x y.
Proof.
  induction 1 as [|x y' l l' Hxy _ IH]; simpl; [tauto|].
  intros [<-|Hin].
  - exists x. auto.
  - destruct (IH Hin) as (x' & Hx' & HP). exists x'. auto.
Qed.

Lemma shown_cell_no_LF (cells : list jsstring) (n : nat) :
  (forall td, In td cells -> ~ In LF (trim td)) ->
  ~ In LF (Csv.shown (option_map trim (nth_error cells n))).
Proof.
  intros H. destruct (nth_error cells n) as [td|] eqn:E; simpl.
  - apply H. eapply nth_error_In; eassumption.
  - intuition discriminate.
Qed.

Lemma csv_line_no_LF (r : Csv.row) (c : Csv.CourtInfo) :
  Csv.court_of r = Some c ->
  (forall td, In td (Csv.tds r) -> ~ In LF (trim td)) ->
  ~ In LF (Csv.csv_line c).
Proof.
  intros Hc Hcells. destruct (court_of_fields r c Hc)
    as (text & _ & Hname & Hplace & Htel).
  unfold Csv.csv_line. rewrite Hname, Hplace, Htel. intros Hin.
  apply in_app_or in Hin as [Hin|Hin].
  { destruct Hin as [H|[]]; discriminate. }
  apply in_app_or in Hin as [Hin|Hin].
  { apply court_name_spaces in Hin; [discriminate | reflexivity]. }
  apply in_app_or in Hin as [Hin|Hin].
  { simpl in Hin. intuition discriminate. }
  apply in_app_or in Hin as [Hin|Hin].
  { exact (shown_cell_no_LF _ 0 Hcells Hin). }
  apply in_app_or in Hin as [Hin|Hin].
  { simpl in Hin. intuition discriminate. }
  apply in_app_or in Hin as [Hin|Hin].
  { exact (shown_cell_no_LF _ 1 Hcells Hin). }
  destruct Hin as [H|[]]; discriminate.
Qed.

End CsvLines.

(** X18: the CSV file of a page has the header on its first line and
    then one line per row of the table, in the order of the rows, when
    the page has a row and no cell holds a line feed after trimming. The
    name never breaks a line, whatever the [th] holds, because its white
    space has been collapsed to single spaces. *)
Theorem Csv_file_lines (u : jsstring) (rows : list Csv.row)
    (courts : list Csv.CourtInfo) :
  Csv.scrapePage u (Parsed rows) = inr courts ->
  rows <> [] ->
  (forall r td, In r rows -> In td (Csv.tds r) -> ~ In LF (trim td)) ->
  split LF (Csv.csv_content courts)
  = removelast Csv.header :: map Csv.csv_line courts /\
  length (split LF (Csv.csv_content courts)) = S (length rows).
Proof.
  intros Hpage Hne Hcells. unfold Csv.scrapePage in Hpage.
  destruct (Csv.courts_of rows) as [cs|] eqn:Hcs; [|discriminate].
  injection Hpage as ->. apply courts_of_rows in Hcs.
  assert (Hlines : split LF (Csv.csv_content courts)
                   = removelast Csv.header :: map Csv.csv_line courts).
  { unfold Csv.csv_content.
    change Csv.header with (removelast Csv.header ++ [LF]).
    rewrite <- app_assoc. simpl app at 2.
    rewrite split_app_sep by (simpl; intuition discriminate).
    f_equal. apply split_join.
    - destruct Hcs; [congruence | discriminate].
    - rewrite Forall_forall. intros x Hx. apply in_map_iff in Hx.
      destruct Hx as (c & <- & Hc).
      destruct (Forall2_In_right _ _ _ _ Hcs Hc) as (r & Hr & Hrc).
      apply (csv_line_no_LF r c Hrc). intros td. apply Hcells; exact Hr. }
  split; [exact Hlines|].
  rewrite Hlines. simpl. rewrite length_map.
  rewrite (Forall2_length Hcs). reflexivity.
Qed.

Lemma Csv_file_lines_witness :
  exists courts,
    Csv.scrapePage url_choutei (Parsed table_ok) = inr courts /\
    table_ok <> [] /\
    (forall r td, In r table_ok -> In td (Csv.tds r) -> ~ In LF (trim td)) /\
    length (split LF (Csv.csv_content courts)) = 3%nat.
Proof.
  eexists. split; [reflexivity|].
  assert (Hne : table_ok <> []) by discriminate.
  assert (Hcells : forall r td, In r table_ok -> In td (Csv.tds r) ->
                                ~ In LF (trim td)).
  { intros r td [<-|[<-|[]]]; simpl; [|tauto].
    intros [<-|[<-|[]]]; vm_compute; intuition discriminate. }
  split; [exact Hne|]. split; [exact Hcells|].
  exact (proj2 (Csv_file_lines url_choutei table_ok _ eq_refl Hne Hcells)).
Defined.

(** ** The map note of the table cells *)

Section MapNoteFacts.

Import Part000.

(** The test of [strip_map_note] at one position. *)
Let note_at (s : jsstring) : bool :=
  startsWith chizu s && (0 <? len (skipn 2 s)) &&
  forallb (fun x => negb (is_line_terminator x)) (skipn 2 s).

Lemma strip_map_note_cons (c : code_unit) (s : jsstring) :
  strip_map_note (c :: s)
  = if note_at (c :: s) then [] else c :: strip_map_note s.
Proof. reflexivity. Qed.

Lemma one_line_forallb (note : jsstring) :
  Forall (fun x => is_line_terminator x = false) note <->
  forallb (fun x => negb (is_line_terminator x)) note = true.
Proof.
  rewrite forallb_forall, Forall_forall. split; intros H x Hx.
  - rewrite (H x Hx). reflexivity.
  - apply negb_true_iff. apply H; exact Hx.
Qed.

Lemma note_at_chizu (note : jsstring) :
  note <> [] -> Forall (fun x => is_line_terminator x = false) note ->
  note_at (chizu ++ note) = true.
Proof.
  intros Hne Hl. unfold note_at. rewrite startsWith_app.
  change (skipn 2 (chizu ++ note)) with note.
  rewrite (proj1 (one_line_forallb note) Hl), andb_true_r. simpl.
  destruct note; [congruence | reflexivity].
Qed.

Lemma note_at_no_zu (c : code_unit) (name rest : jsstring) :
  ~ In 0x56F3%N (c :: name) ->
  startsWith chizu (c :: name ++ chizu ++ rest) = false.
Proof.
  intros H. destruct name as [|x name].
  - change (startsWith chizu (c :: [] ++ chizu ++ rest))
      with ((0x5730 =? c)%N && false).
    apply andb_false_r.
  - change (startsWith chizu (c :: (x :: name) ++ chizu ++ rest))
      with ((0x5730 =? c)%N && ((0x56F3 =? x)%N && true)).
    destruct (N.eqb_spec 0x56F3 x) as [<-|_].
    + exfalso. apply H. right; left; reflexivity.
    + apply andb_false_r.
Qed.

Lemma strip_map_note_tail (s : jsstring) :
  exists tail,
    s = strip_map_note s ++ tail /\
    (tail = [] \/
     exists note, tail = chizu ++ note /\ note <> [] /\
                  Forall (fun x => is_line_terminator x = false) note).
Proof.
  induction s as [|c s IH]; [exists []; auto|].
  rewrite strip_map_note_cons. destruct (note_at (c :: s)) eqn:Hn.
  - exists (c :: s). split; [reflexivity|]. right.
    unfold note_at in Hn. apply andb_prop in Hn. destruct Hn as [Hn Hl].
    apply andb_prop in Hn. destruct Hn as [Hs Hlen].
    apply startsWith_prefix in Hs. destruct Hs as [note Hs].
    exists note. rewrite Hs in Hlen, Hl |- *.
    change (skipn 2 (chizu ++ note)) with note in Hlen, Hl.
    split; [reflexivity|]. split.
    + intros ->. discriminate.
    + apply one_line_forallb; exact Hl.
  - destruct IH as (tail & Hs & Ht). exists tail.
    split; [simpl; f_equal; exact Hs | exact Ht].
Qed.

Lemma strip_map_note_cut (name note : jsstring) :
  ~ In 0x56F3%N name -> note <> [] ->
  Forall (fun x => is_line_terminator x = false) note ->
  strip_map_note (name ++ chizu ++ note) = name.
Proof.
  intros Hz Hne Hl. induction name as [|c name IH].
  - pose proof (note_at_chizu note Hne Hl) as H.
    change ([] ++ chizu ++ note) with (0x5730%N :: (0x56F3%N :: note)) in *.
    rewrite strip_map_note_cons.
    change (0x5730%N :: 0x56F3%N :: note) with (chizu ++ note).
    rewrite H. reflexivity.
  - change ((c :: name) ++ chizu ++ note) with (c :: name ++ chizu ++ note).
    rewrite strip_map_note_cons. unfold note_at.
    rewrite (note_at_no_zu c name note Hz). cbn [andb]. f_equal.
    apply IH. intros H. apply Hz. right; exact H.
Qed.

Lemma strip_map_note_bare (name : jsstring) :
  ~ In 0x56F3%N name -> strip_map_note (name ++ chizu) = name ++ chizu.
Proof.
  intros Hz. induction name as [|c name IH]; [reflexivity|].
  change ((c :: name) ++ chizu) with (c :: name ++ chizu).
  rewrite strip_map_note_cons. unfold note_at.
  pose proof (note_at_no_zu c name [] Hz) as H. rewrite app_nil_r in H.
  rewrite H. cbn [andb]. f_equal.
  apply IH. intros H'. apply Hz. right; exact H'.
Qed.

Lemma strip_map_note_absent (s : jsstring) :
  ~ contains s chizu -> strip_map_note s = s.
Proof.
  induction s as [|c s IH]; intros Hc; [reflexivity|].
  rewrite strip_map_note_cons. unfold note_at.
  destruct (startsWith chizu (c :: s)) eqn:Hs.
  - exfalso. apply Hc. apply startsWith_prefix in Hs.
    destruct Hs as [rest ->]. exists [], rest. reflexivity.
  - cbn [andb]. f_equal. apply IH. intros (pre & post & ->).
    apply Hc. exists (c :: pre), post. reflexivity.
Qed.

Lemma note_at_extend (x note : jsstring) :
  note_at x = true ->
  Forall (fun c => is_line_terminator c = false) note ->
  note_at (x ++ chizu ++ note) = true.
Proof.
  unfold note_at. intros H Hl.
  apply andb_prop in H. destruct H as [H Hx].
  apply andb_prop in H. destruct H as [Hs Hlen].
  apply startsWith_prefix in Hs. destruct Hs as [rest ->].
  rewrite <- app_assoc, startsWith_app.
  change (skipn 2 (chizu ++ rest ++ chizu ++ note))
    with (rest ++ chizu ++ note).
  change (skipn 2 (chizu ++ rest)) with rest in Hlen, Hx.
  rewrite !forallb_app, Hx, (proj1 (one_line_forallb note) Hl).
  destruct rest; [discriminate | reflexivity].
Qed.

Lemma strip_map_note_twice (s : jsstring) :
  strip_map_note (strip_map_note s) = strip_map_note s.
Proof.
  induction s as [|c s IH]; [reflexivity|].
  rewrite strip_map_note_cons. destruct (note_at (c :: s)) eqn:Hn;
    [reflexivity|].
  rewrite strip_map_note_cons.
  destruct (note_at (c :: strip_map_note s)) eqn:Hn'.
  - exfalso. destruct (strip_map_note_tail s) as (tail & Hs & [->|Ht]).
    + rewrite app_nil_r in Hs. rewrite <- Hs in Hn'. congruence.
    + destruct Ht as (note & -> & _ & Hl).
      pose proof (note_at_extend _ note Hn' Hl) as H.
      change ((c :: strip_map_note s) ++ chizu ++ note)
        with (c :: (strip_map_note s ++ chizu ++ note)) in H.
      rewrite <- Hs in H. congruence.
  - f_equal. exact IH.
Qed.

End MapNoteFacts.

(** X19: on the pages of Okayama and Matsue the text of a table cell is
    cut at the link to the map: what [strip_map_note] returns is the
    start of the cell, and what it cuts off is "地図" followed by at least
    one code unit and no line terminator. A cell that ends with "地図", and
    a cell without "地図", are left as they are; a cell that was cut is not
    cut again. *)
Theorem strip_map_note_spec (s : jsstring) :
  (exists tail,
     s = Part000.strip_map_note s ++ tail /\
     (tail = [] \/
      exists note,
        tail = Part000.chizu ++ note /\ note <> [] /\
        Forall (fun x => Part000.is_line_terminator x = false) note)) /\
  (forall name note,
      ~ In 0x56F3%N name -> note <> [] ->
      Forall (fun x => Part000.is_line_terminator x = false) note ->
      Part000.strip_map_note (name ++ Part000.chizu ++ note) = name) /\
  (forall name,
      ~ In 0x56F3%N name ->
      Part000.strip_map_note (name ++ Part000.chizu)
      = name ++ Part000.chizu) /\
  (~ contains s Part000.chizu -> Part000.strip_map_note s = s) /\
  Part000.strip_map_note (Part000.strip_map_note s)
  = Part000.strip_map_note s.
Proof.
  split; [apply strip_map_note_tail|].
  split; [apply strip_map_note_cut|].
  split; [apply strip_map_note_bare|].
  split; [apply strip_map_note_absent | apply strip_map_note_twice].
Qed.

Lemma strip_map_note_spec_witness :
  ~ In 0x56F3%N okayama_chisai /\ okayama_note <> [] /\
  Forall (fun x => Part000.is_line_terminator x = false) okayama_note /\
  Part000.strip_map_note (okayama_chisai ++ Part000.chizu ++ okayama_note)
  = okayama_chisai /\
  Part000.strip_map_note (okayama_chisai ++ Part000.chizu)
  = okayama_chisai ++ Part000.chizu /\
  ~ contains okayama_chisai Part000.chizu /\
  Part000.strip_map_note okayama_chisai = okayama_chisai.
Proof.
  assert (Hz : ~ In 0x56F3%N okayama_chisai)
    by (simpl; intuition discriminate).
  assert (Hne : okayama_note <> []) by discriminate.
  assert (Hl : Forall (fun x => Part000.is_line_terminator x = false)
                 okayama_note)
    by (repeat constructor).
  assert (Hc : ~ contains okayama_chisai Part000.chizu).
  { intros (pre & post & H). apply Hz. rewrite H.
    apply in_or_app; right. right; left; reflexivity. }
  split; [exact Hz|]. split; [exact Hne|]. split; [exact Hl|].
  split; [|split; [|split; [exact Hc|]]].
  - exact (proj1 (proj2 (strip_map_note_spec [])) _ _ Hz Hne Hl).
  - exact (proj1 (proj2 (proj2 (strip_map_note_spec []))) _ Hz).
  - exact (proj1 (proj2 (proj2 (proj2 (strip_map_note_spec okayama_chisai))))
             Hc).
Defined.
